(** * DurableFunctionsMonitor: the function-project traversal

    A shallow embedding of [traverseFunctionProject] and of the helpers that
    live in the same source file ([readProxiesJson],
    [mapOrchestratorsAndActivitiesAsync], [getEventNames],
    [getFunctionsAndTheirCodesAsync], [mapActivitiesToOrchestrator]).

    JavaScript objects used as dictionaries are finite maps ([gmap]) paired
    with the list of their keys in [Object.keys] order; arrays are lists;
    [push] is [++ [x]]; optional properties are [option]s.

    A second, shorter part embeds the helpers of [MonitorViewList.ts] that
    work on plain data. *)

From stdpp Require Import base option list sorting strings gmap.

Set Default Proof Using "Type".

(** ** Data model *)

(** One entry of a function's [bindings] array.  The source reads the two
    properties [type] and [direction]; everything else a binding carries is
    kept, untouched, in [extra]. *)
Record Binding := mkBinding {
  type : string;
  direction : option string;
  extra : string
}.

Global Instance Binding_eq_dec : EqDecision Binding.
Proof. solve_decision. Defined.

(** An element of [isSignalledBy]: [{ name, signalName }]. *)
Record Signal := mkSignal {
  name : string;
  signalName : string
}.

Global Instance Signal_eq_dec : EqDecision Signal.
Proof. solve_decision. Defined.

(** Modelled from the spec: the value type of [FunctionsMap] (the module
    [./FunctionsMap] is imported by the source but is not part of it).
    [bindings], [isCalledBy] and [isSignalledBy] are sequences; the source
    creates an entry without [isCalledByItself], [filePath], [pos] and
    [lineNr] (it writes [{ bindings, isCalledBy: [], isSignalledBy: [] }]),
    so these four are optional. *)
Record FunctionInfo := mkFunctionInfo {
  bindings : list Binding;
  isCalledBy : list string;
  isSignalledBy : list Signal;
  isCalledByItself : option bool;
  filePath : option string;
  pos : option nat;
  lineNr : option nat
}.

(** The [functions] object: [fo_keys] is [Object.keys(functions)], in that
    order (for names that are not array indices, the order in which the
    properties were first assigned), and [fo_map] is the property lookup
    [functions[name]]. *)
Record FunctionsMap := mkFunctionsMap {
  fo_keys : list string;
  fo_map : gmap string FunctionInfo
}.

(** What a JavaScript object guarantees about its own keys. *)
Definition wfFunctionsMap (functions : FunctionsMap) : Prop :=
  NoDup (fo_keys functions) ∧
  ∀ k, k ∈ fo_keys functions ↔ is_Some (fo_map functions !! k).

(** ** Own property keys

    [Object.keys] lists the keys that are array indices first, in ascending
    numeric order, and after them the other keys in the order in which they
    were created. *)

Definition digitOf (c : Ascii.ascii) : option N :=
  let n := Ascii.N_of_ascii c in
  if bool_decide (48 ≤ n ≤ 57)%N then Some (n - 48)%N else None.

Fixpoint digitsValue (acc : N) (s : string) : option N :=
  match s with
  | EmptyString => Some acc
  | String c s' => d ← digitOf c; digitsValue (10 * acc + d)%N s'
  end.

(** An array index: the canonical decimal string of a number below
    [2^32 - 1] (no sign, no leading zero). *)
Definition arrayIndex (k : string) : option N :=
  match k with
  | EmptyString => None
  | String c k' =>
      if Ascii.eqb c (Ascii.ascii_of_nat 48) && negb (bool_decide (k' = ""))
      then None
      else v ← digitsValue 0 k;
           if bool_decide (v < 4294967295)%N then Some v else None
  end.

(** The place of a new array index [i], written [k], among the keys. *)
Fixpoint insertIndexKey (i : N) (k : string) (keys : list string) : list string :=
  match keys with
  | [] => [k]
  | k' :: keys' =>
      match arrayIndex k' with
      | Some j => if bool_decide (j < i)%N then k' :: insertIndexKey i k keys'
                  else k :: keys
      | None => k :: keys
      end
  end.

(** The keys after [object[k] = value]. *)
Definition keysAfterAssign (k : string) (keys : list string) : list string :=
  if bool_decide (k ∈ keys) then keys
  else match arrayIndex k with
       | Some i => insertIndexKey i k keys
       | None => keys ++ [k]
       end.

(** ** Array helpers *)

(** [Array.prototype.some]. *)
Definition some {A} (p : A → bool) (l : list A) : bool := existsb p l.

(** [Array.prototype.includes] on an array of strings. *)
Definition includes (l : list string) (x : string) : bool :=
  bool_decide (x ∈ l).

(** JavaScript truthiness of a [string | undefined] value: [!v] holds for
    [undefined] and for the empty string. *)
Definition truthy (v : option string) : bool :=
  match v with
  | None => false
  | Some s => negb (bool_decide (s = ""))
  end.

(** ** Classification of the functions (the four [filter] calls) *)

(** [functions[name].bindings]; the names the source passes are the object's
    own keys, for which the lookup is always defined. *)
Definition bindingsOf (functions : gmap string FunctionInfo) (n : string)
  : list Binding :=
  match functions !! n with
  | Some f => bindings f
  | None => []
  end.

Definition hasBinding (functions : gmap string FunctionInfo) (t n : string)
  : bool :=
  some (λ b, bool_decide (type b = t)) (bindingsOf functions n).

Definition triggerTypes : list string :=
  ["orchestrationTrigger"; "activityTrigger"; "entityTrigger"].

Definition hasAnyTrigger (functions : gmap string FunctionInfo) (n : string)
  : bool :=
  some (λ b, includes triggerTypes (type b)) (bindingsOf functions n).

Definition orchestratorNamesOf (functions : FunctionsMap) : list string :=
  filter (λ n, hasBinding (fo_map functions) "orchestrationTrigger" n)
         (fo_keys functions).

Definition activityNamesOf (functions : FunctionsMap) : list string :=
  filter (λ n, hasBinding (fo_map functions) "activityTrigger" n)
         (fo_keys functions).

Definition entityNamesOf (functions : FunctionsMap) : list string :=
  filter (λ n, hasBinding (fo_map functions) "entityTrigger" n)
         (fo_keys functions).

Definition otherFunctionNamesOf (functions : FunctionsMap) : list string :=
  filter (λ n, negb (hasAnyTrigger (fo_map functions) n))
         (fo_keys functions).

(** The four name lists, and how many of them hold a given name. *)
Definition nameLists (functions : FunctionsMap) : list (list string) :=
  [orchestratorNamesOf functions; activityNamesOf functions;
   entityNamesOf functions; otherFunctionNamesOf functions].

Definition listsContaining (functions : FunctionsMap) (n : string) : nat :=
  length (filter (λ l, n ∈ l) (nameLists functions)).

(** ** Binding enrichment (the body of the [projectKind === 'dotNet'] loop) *)

(** The first inner loop: [existingBindingTypes] is computed once, before
    the loop, and every candidate whose type is not in it is pushed. *)
Definition pushExtracted (bindingsFromFunctionJson bindingsFromCode : list Binding)
  : list Binding :=
  let existingBindingTypes := type <$> bindingsFromFunctionJson in
  foldl (λ acc binding,
           if negb (includes existingBindingTypes (type binding))
           then acc ++ [binding] else acc)
        bindingsFromFunctionJson bindingsFromCode.

(** The candidates the first loop pushed. *)
Definition appended (bindingsFromFunctionJson bindingsFromCode : list Binding)
  : list Binding :=
  drop (length bindingsFromFunctionJson)
       (pushExtracted bindingsFromFunctionJson bindingsFromCode).

(** One iteration of the second inner loop. *)
Definition setDefaultDirection (bindingsFromCode : list Binding) (binding : Binding)
  : Binding :=
  if negb (truthy (direction binding)) then
    let bindingsOfThisTypeFromCode :=
      filter (λ b, type b = type binding) bindingsFromCode in
    match bindingsOfThisTypeFromCode with
    | [b0] => mkBinding (type binding) (direction b0) (extra binding)
    | _ => binding
    end
  else binding.

(** Both inner loops, on one function's binding array. *)
Definition enrichBindings (bindingsFromFunctionJson bindingsFromCode : list Binding)
  : list Binding :=
  setDefaultDirection bindingsFromCode
    <$> pushExtracted bindingsFromFunctionJson bindingsFromCode.

(** *** The same two loops, on the heap

    In the source the candidates are pushed as they are: the objects of
    [bindingsFromCode] that end up in [bindingsFromFunctionJson] are shared by
    the two arrays, and the second loop writes [direction] into objects of the
    one while it reads objects of the other.  Here the binding objects live
    in a store and an array is a list of references; the properties section
    shows that what the source leaves in the array is [enrichBindings] of
    what the two arrays held. *)

Global Instance Binding_inhabited : Inhabited Binding :=
  populate (mkBinding "" None "").

(** The bindings an array of references holds. *)
Definition deref (store : gmap nat Binding) (refs : list nat) : list Binding :=
  (λ r, store !!! r) <$> refs.

Definition pushExtractedRefs (store : gmap nat Binding)
    (bindingsFromFunctionJson bindingsFromCode : list nat) : list nat :=
  let existingBindingTypes :=
    (λ r, type (store !!! r)) <$> bindingsFromFunctionJson in
  foldl (λ acc r,
           if negb (includes existingBindingTypes (type (store !!! r)))
           then acc ++ [r] else acc)
        bindingsFromFunctionJson bindingsFromCode.

Definition setDefaultDirectionAt (bindingsFromCode : list nat)
    (store : gmap nat Binding) (r : nat) : gmap nat Binding :=
  let binding := store !!! r in
  if negb (truthy (direction binding)) then
    let bindingsOfThisTypeFromCode :=
      filter (λ c, type (store !!! c) = type binding) bindingsFromCode in
    match bindingsOfThisTypeFromCode with
    | [c0] =>
        <[r := mkBinding (type binding) (direction (store !!! c0)) (extra binding)]>
          store
    | _ => store
    end
  else store.

(** The store and the array of [functions[func.name].bindings] after both
    loops. *)
Definition enrichOnHeap (store : gmap nat Binding)
    (bindingsFromFunctionJson bindingsFromCode : list nat)
  : gmap nat Binding * list nat :=
  let merged := pushExtractedRefs store bindingsFromFunctionJson bindingsFromCode in
  (foldl (setDefaultDirectionAt bindingsFromCode) store merged, merged).

(** ** The pattern catalogue

    [TraversalRegexes] is imported from [./traverseFunctionProjectUtils]; the
    traversal only ever asks a pattern whether (and, for the awaited events,
    where) it matches, so every pattern is taken by its [exec] behaviour.

    The patterns built per name are fresh, non-global [RegExp] objects and
    [continueAsNewRegex] is used for presence only: [!!regex.exec(code)] is a
    boolean function of the code.  [waitForExternalEventRegex] is one shared
    global pattern driven through its [lastIndex]: the field gives, for a code
    and a [lastIndex], [None] when [exec] answers [null] (which resets
    [lastIndex] to 0) and otherwise the new [lastIndex] with [match[4]]. *)
Record TraversalRegexes := mkTraversalRegexes {
  getStartNewOrchestrationRegex : string → string → bool;
  getCallSubOrchestratorRegex : string → string → bool;
  getCallActivityRegex : string → string → bool;
  continueAsNewRegex : string → bool;
  getRaiseEventRegex : string → string → bool;
  getSignalEntityRegex : string → string → bool;
  waitForExternalEventRegex : string → nat → option (nat * string)
}.

(** A match of the global pattern is never empty and lies inside the code:
    this is what makes the [while] loop of [getEventNames] come to an end. *)
Definition advances (regex : string → nat → option (nat * string)) : Prop :=
  ∀ code lastIndex lastIndex' group,
    regex code lastIndex = Some (lastIndex', group) →
    lastIndex < lastIndex' ∧ lastIndex' ≤ String.length code.

(** ** Outcomes and the traversal monad *)

(** How a call ends: with a value, with a thrown error, or not at all. *)
Inductive Outcome (A : Type) : Type :=
  | Ok (a : A)
  | Throw (err : string)
  | Diverge.
Global Arguments Ok {A} a.
Global Arguments Throw {A} err.
Global Arguments Diverge {A}.

(** A computation threads the lines handed to the [log] callback. *)
Definition M (A : Type) : Type := list string → Outcome A * list string.

Definition ret {A} (a : A) : M A := λ lines, (Ok a, lines).

Definition bind {A B} (m : M A) (k : A → M B) : M B :=
  λ lines,
    match m lines with
    | (Ok a, lines') => k a lines'
    | (Throw err, lines') => (Throw err, lines')
    | (Diverge, lines') => (Diverge, lines')
    end.

Definition throw {A} (err : string) : M A := λ lines, (Throw err, lines).

Definition log (line : string) : M unit := λ lines, (Ok tt, lines ++ [line]).

(** An external call made with [await], or a synchronous call that may throw. *)
Definition io {A} (o : Outcome A) : M A := λ lines, (o, lines).

(** [try { body } catch (err) { handler(err) }]. *)
Definition tryCatch {A} (body : M A) (handler : string → M A) : M A :=
  λ lines,
    match body lines with
    | (Throw err, lines') => handler err lines'
    | r => r
    end.

(** A pure loop that may fail to terminate. *)
Definition orDiverge {A} (o : option A) : M A :=
  match o with
  | Some a => ret a
  | None => io Diverge
  end.

Declare Scope traversal_scope.
Delimit Scope traversal_scope with traversal.
Notation "x ←' m ; k" := (bind m (λ x, k))
  (at level 100, m at next level, right associativity,
   format "x  ←'  m ;  '/' k") : traversal_scope.
Notation "m ;;' k" := (bind m (λ _, k))
  (at level 100, right associativity) : traversal_scope.
Local Open Scope traversal_scope.

(** [for (const x of xs) { body }] over a computation. *)
Fixpoint forEachM {A S} (body : A → S → M S) (xs : list A) (s : S) : M S :=
  match xs with
  | [] => ret s
  | x :: xs' => s' ←' body x s; forEachM body xs' s'
  end.

(** [Promise.all(xs.map(f))]: the results come back in the order of [xs]. *)
Fixpoint promiseAll {A B} (f : A → M B) (xs : list A) : M (list B) :=
  match xs with
  | [] => ret []
  | x :: xs' => y ←' f x; ys ←' promiseAll f xs'; ret (y :: ys)
  end.

(** ** Records exchanged with the environment *)

(** What [findFileRecursivelyAsync] resolves to when it finds a file.  [fm_pos]
    and [fm_length] are only reported when a content pattern was passed;
    [fm_code] is the file's text (empty when the contents were not asked
    for, which the only truthiness test on it cannot tell from absent). *)
Record FileMatch := mkFileMatch {
  fm_filePath : string;
  fm_code : string;
  fm_pos : option nat;
  fm_length : option nat
}.

(** The content pattern handed to [findFileRecursivelyAsync]. *)
Inductive ContentPattern : Type :=
  | DotNetFunctionNameRegex (functionName : string).

(** An element of the arrays built by [getFunctionsAndTheirCodesAsync]. *)
Record FunctionCode := mkFunctionCode {
  fc_name : string;
  fc_code : string;
  fc_filePath : string;
  fc_pos : nat;
  fc_lineNr : nat
}.

Global Instance FunctionCode_eq_dec : EqDecision FunctionCode.
Proof. solve_decision. Defined.

Record GitInfo := mkGitInfo {
  gitTempFolder : string;
  gi_projectFolder : string
}.

(** Modelled from the spec: the value type of [ProxiesMap], declared in
    [./FunctionsMap] like [FunctionsMap].  A value of the [proxies] object
    has the descriptor's own fields, opaque to the traversal, and the four
    properties the source assigns, under the names the source gives them. *)
Record ProxyInfo := mkProxyInfo {
  proxy_descriptor : string;
  proxy_filePath : option string;
  warningNotAddedToCsProjFile : option bool;
  proxy_pos : option nat;
  proxy_lineNr : option nat
}.

(** The [proxies] object, keys in [for ... in] order. *)
Record ProxiesMap := mkProxiesMap {
  po_keys : list string;
  po_map : gmap string ProxyInfo
}.

Definition emptyProxies : ProxiesMap := mkProxiesMap [] ∅.

Record TraverseFunctionResult := mkTraverseFunctionResult {
  tr_functions : FunctionsMap;
  tr_proxies : ProxiesMap;
  tr_tempFolders : list string;
  tr_projectFolder : string
}.

Inductive ProjectKind : Type := dotNet | java | other.

Global Instance ProjectKind_eq_dec : EqDecision ProjectKind.
Proof. solve_decision. Defined.

(** What [functionJson.bindings] is after [JSON.parse]: the array of the
    binding objects, or a value on which the first
    [bindings.some(b => b.type === ...)] of the mapping throws: a value that
    is no array ([undefined] when the descriptor has no such property), or an
    array in which that call comes to a [null] element.  Such a value is
    taken by the [TypeError] raised.  An array that holds [null] only behind
    a binding of type [orchestrationTrigger] is not covered. *)
Inductive BindingsValue : Type :=
  | BindingsArray (bindings : list Binding)
  | NoArray (typeError : string).

(** ** The environment

    Everything the source file reaches outside itself: the helpers of
    [./traverseFunctionProjectUtils] and [./traverseDotNetIsolatedOrJavaProject],
    Node's [fs], [path], [os] and [child_process], [JSON.parse] and the
    [RegExp] constructor.  A call is answered by its arguments (the file
    system is the one the traversal sees; the publish step writes to a fresh
    folder) and may throw. *)
Record Env := mkEnv {
  cloneFromGitHub : string → Outcome GitInfo;
  findFileRecursivelyAsync :
    string → string → bool → option ContentPattern → Outcome (option FileMatch);
  isDotNetProjectAsync : string → Outcome bool;
  isDotNetIsolatedProjectAsync : string → Outcome bool;
  isJavaProjectAsync : string → Outcome bool;
  traverseDotNetIsolatedProject : string → Outcome FunctionsMap;
  traverseJavaProject : string → Outcome FunctionsMap;
  (** [getCodeInBrackets(str, startFrom, openingBracket, closingBracket,
      mustHaveSymbols).code] *)
  getCodeInBrackets : string → nat → string → string → string → string;
  posToLineNr : string → nat → nat;
  (** [BindingsParser.tryExtractBindings] *)
  tryExtractBindings : string → list Binding;
  path_join : string → string → string;
  path_dirname : string → string;
  os_tmpdir : string;
  mkdtemp : string → Outcome string;
  (** [execAsync(command, { cwd })] *)
  execAsync : string → string → Outcome unit;
  readdir : string → Outcome (list string);
  (** [(await fs.promises.lstat(p)).isDirectory()] *)
  lstat_isDirectory : string → Outcome bool;
  existsSync : string → bool;
  readFile : string → Outcome string;
  (** [JSON.parse(s).bindings], for a function descriptor *)
  JSON_parse_bindings : string → Outcome BindingsValue;
  (** [JSON.parse(s).proxies]: [None] when the property is falsy *)
  JSON_parse_proxies : string → Outcome (option ProxiesMap);
  (** [new RegExp(source)]: the constructor throws on a malformed source;
      the object it builds has no flags and is taken by its [exec], which
      answers the index of the match, if any *)
  RegExp_new : string → Outcome (string → option nat);
  (** The order in which the callbacks started over the listing of a folder
      come to their last step (each callback writes its key, or its log
      line, when its own reads are done): a permutation of the listing *)
  completionOrder : string → list string → list string
}.

(** ** Strings *)

Definition toLowerCaseAscii (c : Ascii.ascii) : Ascii.ascii :=
  let n := Ascii.nat_of_ascii c in
  if bool_decide (65 ≤ n ≤ 90) then Ascii.ascii_of_nat (n + 32) else c.

(** [String.prototype.toLowerCase], on the letters A to Z; no other
    character lower-cases to one of h, t, p, which is all the caller tests. *)
Fixpoint toLowerCase (s : string) : string :=
  match s with
  | EmptyString => EmptyString
  | String c s' => String (toLowerCaseAscii c) (toLowerCase s')
  end.

Definition startsWith (s p : string) : bool := String.prefix p s.

Definition dquote : string := String (Ascii.ascii_of_nat 34) EmptyString.
Definition newline : string := String (Ascii.ascii_of_nat 10) EmptyString.

(** ** getEventNames *)

Section Traversal.
Context (rx : TraversalRegexes) (env : Env).

(** The [while] loop, with the pattern's [lastIndex] made explicit; the
    fuel bounds the number of [exec] calls. *)
Fixpoint getEventNames_loop (fuel : nat) (orchestratorCode : string)
    (lastIndex : nat) (result : list string) : option (list string) :=
  match fuel with
  | 0 => None
  | S fuel' =>
      match waitForExternalEventRegex rx orchestratorCode lastIndex with
      | None => Some result
      | Some (lastIndex', group4) =>
          getEventNames_loop fuel' orchestratorCode lastIndex'
                             (result ++ [group4])
      end
  end.

(** [None] stands for a loop that never ends (an empty match would leave
    [lastIndex] where it is). *)
Definition getEventNames (orchestratorCode : string) : option (list string) :=
  getEventNames_loop (S (String.length orchestratorCode)) orchestratorCode 0 [].

(** ** getFunctionsAndTheirCodesAsync *)

(** The [switch (projectKind)] that picks the file search. *)
Definition findFunctionFile (projectKind : ProjectKind)
    (projectFolder hostJsonFolder : string) (n : string)
  : Outcome (option FileMatch) :=
  match projectKind with
  | dotNet =>
      findFileRecursivelyAsync env projectFolder ".+\.(f|c)s$" true
        (Some (DotNetFunctionNameRegex n))
  | java =>
      findFileRecursivelyAsync env projectFolder ".+\.java$" true
        (Some (DotNetFunctionNameRegex n))
  | other =>
      findFileRecursivelyAsync env (path_join env hostJsonFolder n)
        "(index\.ts|index\.js|__init__\.py)$" true None
  end.

(** What is returned for a function whose file was found. *)
Definition toFunctionCode (projectKind : ProjectKind) (n : string)
    (m : FileMatch) : FunctionCode :=
  let code :=
    if bool_decide (projectKind = other) then fm_code m
    else getCodeInBrackets env (fm_code m)
           (default 0 (fm_pos m) + default 0 (fm_length m))
           "{" "}" (" " +:+ newline) in
  let pos := default 0 (fm_pos m) in
  let lineNr := posToLineNr env (fm_code m) pos in
  mkFunctionCode n code (fm_filePath m) pos lineNr.

(** The callback mapped over the names. *)
Definition functionAndItsCode (projectKind : ProjectKind)
    (projectFolder hostJsonFolder : string) (n : string)
  : M (option FunctionCode) :=
  m ←' io (findFunctionFile projectKind projectFolder hostJsonFolder n);
  match m with
  | None => ret None
  | Some m => ret (Some (toFunctionCode projectKind n m))
  end.

Definition getFunctionsAndTheirCodesAsync (functionNames : list string)
    (projectKind : ProjectKind) (projectFolder hostJsonFolder : string)
  : M (list FunctionCode) :=
  found ←' promiseAll (functionAndItsCode projectKind projectFolder hostJsonFolder)
                      functionNames;
  ret (omap id found).

(** ** The graph passes of mapOrchestratorsAndActivitiesAsync

    The assignments below are the in-place updates of the source:
    [functions[k].field.push(x)] and [functions[k].field = x] rewrite the
    entry under [k], and every [k] used is one of the object's keys. *)

Definition push_isCalledBy (caller : string) (f : FunctionInfo) : FunctionInfo :=
  mkFunctionInfo (bindings f) (isCalledBy f ++ [caller]) (isSignalledBy f)
                 (isCalledByItself f) (filePath f) (pos f) (lineNr f).

Definition push_isSignalledBy (s : Signal) (f : FunctionInfo) : FunctionInfo :=
  mkFunctionInfo (bindings f) (isCalledBy f) (isSignalledBy f ++ [s])
                 (isCalledByItself f) (filePath f) (pos f) (lineNr f).

Definition set_isCalledByItself (f : FunctionInfo) : FunctionInfo :=
  mkFunctionInfo (bindings f) (isCalledBy f) (isSignalledBy f)
                 (Some true) (filePath f) (pos f) (lineNr f).

Definition enrich (bindingsFromCode : list Binding) (f : FunctionInfo)
  : FunctionInfo :=
  mkFunctionInfo (enrichBindings (bindings f) bindingsFromCode)
                 (isCalledBy f) (isSignalledBy f)
                 (isCalledByItself f) (filePath f) (pos f) (lineNr f).

Definition set_location (func : FunctionCode) (f : FunctionInfo) : FunctionInfo :=
  mkFunctionInfo (bindings f) (isCalledBy f) (isSignalledBy f)
                 (isCalledByItself f)
                 (Some (fc_filePath func)) (Some (fc_pos func))
                 (Some (fc_lineNr func)).

(** [isCalledBy] is an array in every entry, so the source's
    [if (!functions[activityName].isCalledBy)] never fires (an array, even
    an empty one, is truthy) and the iteration is the [push] alone. *)
Definition mapActivitiesToOrchestrator (functions : gmap string FunctionInfo)
    (orch : FunctionCode) (activityNames : list string)
  : gmap string FunctionInfo :=
  foldl (λ functions activityName,
           if getCallActivityRegex rx activityName (fc_code orch)
           then alter (push_isCalledBy (fc_name orch)) activityName functions
           else functions)
        functions activityNames.

(** The callers found by the start-new-orchestration pattern. *)
Definition mapCallers (otherFunctions : list FunctionCode) (orch : FunctionCode)
    (functions : gmap string FunctionInfo) : gmap string FunctionInfo :=
  foldl (λ functions func,
           if getStartNewOrchestrationRegex rx (fc_name orch) (fc_code func)
           then alter (push_isCalledBy (fc_name func)) (fc_name orch) functions
           else functions)
        functions otherFunctions.

(** The sub-orchestrators this orchestrator calls. *)
Definition mapSubOrchestrators (orchestrators : list FunctionCode)
    (orch : FunctionCode) (functions : gmap string FunctionInfo)
  : gmap string FunctionInfo :=
  foldl (λ functions subOrch,
           if bool_decide (fc_name orch = fc_name subOrch) then functions
           else if getCallSubOrchestratorRegex rx (fc_name subOrch) (fc_code orch)
           then alter (push_isCalledBy (fc_name orch)) (fc_name subOrch) functions
           else functions)
        functions orchestrators.

Definition mapContinueAsNew (orch : FunctionCode)
    (functions : gmap string FunctionInfo) : gmap string FunctionInfo :=
  if continueAsNewRegex rx (fc_code orch)
  then alter set_isCalledByItself (fc_name orch) functions
  else functions.

(** The producers of one awaited event. *)
Definition mapEventProducers (otherFunctions : list FunctionCode)
    (orch : FunctionCode) (functions : gmap string FunctionInfo)
    (eventName : string) : gmap string FunctionInfo :=
  foldl (λ functions func,
           if getRaiseEventRegex rx eventName (fc_code func)
           then alter (push_isSignalledBy (mkSignal (fc_name func) eventName))
                      (fc_name orch) functions
           else functions)
        functions otherFunctions.

(** One iteration of [for (const orch of orchestrators)]. *)
Definition mapOrchestrator (orchestrators otherFunctions : list FunctionCode)
    (activityNames : list string) (orch : FunctionCode)
    (functions : gmap string FunctionInfo)
  : option (gmap string FunctionInfo) :=
  let functions := mapCallers otherFunctions orch functions in
  let functions := mapSubOrchestrators orchestrators orch functions in
  let functions := mapActivitiesToOrchestrator functions orch activityNames in
  let functions := mapContinueAsNew orch functions in
  eventNames ← getEventNames (fc_code orch);
  Some (foldl (mapEventProducers otherFunctions orch) functions eventNames).

(** A [for ... of] loop whose body may not terminate. *)
Fixpoint forEachO {A S} (body : A → S → option S) (xs : list A) (s : S)
  : option S :=
  match xs with
  | [] => Some s
  | x :: xs' => s' ← body x s; forEachO body xs' s'
  end.

(** One iteration of [for (const entity of entities)]. *)
Definition mapEntity (otherFunctions : list FunctionCode)
    (functions : gmap string FunctionInfo) (entity : FunctionCode)
  : gmap string FunctionInfo :=
  foldl (λ functions func,
           if getSignalEntityRegex rx (fc_name entity) (fc_code func)
           then alter (push_isCalledBy (fc_name func)) (fc_name entity) functions
           else functions)
        functions otherFunctions.

(** One iteration of the loop over [activities.concat(otherFunctions)]. *)
Definition enrichFunction (functions : gmap string FunctionInfo)
    (func : FunctionCode) : gmap string FunctionInfo :=
  alter (enrich (tryExtractBindings env (fc_code func))) (fc_name func) functions.

Definition addLocation (functions : gmap string FunctionInfo)
    (func : FunctionCode) : gmap string FunctionInfo :=
  alter (set_location func) (fc_name func) functions.

(** Everything after the four calls of [getFunctionsAndTheirCodesAsync]. *)
Definition mapGraph (projectKind : ProjectKind)
    (orchestrators : list FunctionCode)
    (activityNames : list string)
    (activities entities otherFunctions : list FunctionCode)
    (functions : gmap string FunctionInfo)
  : option (gmap string FunctionInfo) :=
  functions ← forEachO (mapOrchestrator orchestrators otherFunctions activityNames)
                       orchestrators functions;
  let functions := foldl (mapEntity otherFunctions) functions entities in
  let functions :=
    if bool_decide (projectKind = dotNet)
    then foldl enrichFunction functions (activities ++ otherFunctions)
    else functions in
  Some (foldl addLocation functions
              (otherFunctions ++ orchestrators ++ activities ++ entities)).

Definition getProjectKind (projectFolder : string) : M ProjectKind :=
  isDotNet ←' io (isDotNetProjectAsync env projectFolder);
  if isDotNet : bool then ret dotNet
  else
    isJava ←' io (isJavaProjectAsync env projectFolder);
    ret (if isJava : bool then java else other).

Definition mapOrchestratorsAndActivitiesAsync (functions : FunctionsMap)
    (projectFolder hostJsonFolder : string) : M FunctionsMap :=
  projectKind ←' getProjectKind projectFolder;
  let orchestratorNames := orchestratorNamesOf functions in
  orchestrators ←' getFunctionsAndTheirCodesAsync orchestratorNames projectKind
                     projectFolder hostJsonFolder;
  let activityNames := activityNamesOf functions in
  activities ←' getFunctionsAndTheirCodesAsync activityNames projectKind
                  projectFolder hostJsonFolder;
  let entityNames := entityNamesOf functions in
  entities ←' getFunctionsAndTheirCodesAsync entityNames projectKind
                projectFolder hostJsonFolder;
  let otherFunctionNames := otherFunctionNamesOf functions in
  otherFunctions ←' getFunctionsAndTheirCodesAsync otherFunctionNames projectKind
                      projectFolder hostJsonFolder;
  m ←' orDiverge (mapGraph projectKind orchestrators activityNames activities
                           entities otherFunctions (fo_map functions));
  ret (mkFunctionsMap (fo_keys functions) m).

(** ** readProxiesJson *)

Definition set_proxy_filePath (proxiesJsonPath : string) (proxy : ProxyInfo)
  : ProxyInfo :=
  mkProxyInfo (proxy_descriptor proxy) (Some proxiesJsonPath)
              (warningNotAddedToCsProjFile proxy)
              (proxy_pos proxy) (proxy_lineNr proxy).

Definition set_proxy_warning (proxy : ProxyInfo) : ProxyInfo :=
  mkProxyInfo (proxy_descriptor proxy) (proxy_filePath proxy) (Some true)
              (proxy_pos proxy) (proxy_lineNr proxy).

Definition set_proxy_position (index lineNr : nat) (proxy : ProxyInfo)
  : ProxyInfo :=
  mkProxyInfo (proxy_descriptor proxy) (proxy_filePath proxy)
              (warningNotAddedToCsProjFile proxy)
              (Some index) (Some lineNr).

(** The source of the pattern built for one proxy name: the name goes in
    as it is, between two quotes. *)
Definition proxyNameRegexSource (proxyName : string) : string :=
  dquote +:+ proxyName +:+ dquote +:+ "\s*:".

Definition proxiesJsonEntryRegexSource : string :=
  "\s*=\s*" +:+ dquote +:+ "proxies.json" +:+ dquote +:+ "\s*>".

(** One iteration of [for (var proxyName in proxies)]. *)
Definition addFilePathAndLineNr (proxiesJsonPath proxiesJsonString : string)
    (notAddedToCsProjFile : bool) (proxyName : string)
    (proxies : gmap string ProxyInfo) : M (gmap string ProxyInfo) :=
  let proxies := alter (set_proxy_filePath proxiesJsonPath) proxyName proxies in
  let proxies :=
    if notAddedToCsProjFile then alter set_proxy_warning proxyName proxies
    else proxies in
  proxyNameRegex ←' io (RegExp_new env (proxyNameRegexSource proxyName));
  match proxyNameRegex proxiesJsonString with
  | Some index =>
      ret (alter (set_proxy_position index
                    (posToLineNr env proxiesJsonString index))
                 proxyName proxies)
  | None => ret proxies
  end.

(** The check that [proxies.json] is mentioned in the [.csproj] file. *)
Definition checkCsProjFile (projectFolder : string) : M bool :=
  isDotNet ←' io (isDotNetProjectAsync env projectFolder);
  if isDotNet : bool then
    csProjFile ←' io (findFileRecursivelyAsync env projectFolder
                        ".+\.csproj$" true None);
    proxiesJsonEntryRegex ←' io (RegExp_new env proxiesJsonEntryRegexSource);
    match csProjFile with
    | Some csProjFile =>
        ret (negb (bool_decide (fm_code csProjFile = ""))
             && negb (bool_decide
                        (is_Some (proxiesJsonEntryRegex (fm_code csProjFile)))))
    | None => ret false
    end
  else ret false.

Definition failedToParse (path err : string) : string :=
  ">>> Failed to parse " +:+ path +:+ ": " +:+ err.

Definition readProxiesJson (projectFolder : string) : M ProxiesMap :=
  let proxiesJsonPath := path_join env projectFolder "proxies.json" in
  if negb (existsSync env proxiesJsonPath) then ret emptyProxies
  else
    proxiesJsonString ←' io (readFile env proxiesJsonPath);
    tryCatch
      (parsed ←' io (JSON_parse_proxies env proxiesJsonString);
       match parsed with
       | None => ret emptyProxies
       | Some proxies =>
           notAddedToCsProjFile ←' checkCsProjFile projectFolder;
           m ←' forEachM (addFilePathAndLineNr proxiesJsonPath proxiesJsonString
                            notAddedToCsProjFile)
                         (po_keys proxies) (po_map proxies);
           ret (mkProxiesMap (po_keys proxies) m)
       end)
      (λ err, log (failedToParse proxiesJsonPath err);;' ret emptyProxies).

(** ** traverseFunctionProject *)

(** [functions[functionName] = info].  The name [__proto__] is no property
    of the object: assigning an object to it replaces the prototype and
    creates no key.  (What the prototype then lends to the lookup of other
    names is never asked for: the source looks an entry up by one of the
    object's own keys only.) *)
Definition setFunction (functionName : string) (info : FunctionInfo)
    (functions : FunctionsMap) : FunctionsMap :=
  if bool_decide (functionName = "__proto__") then functions
  else mkFunctionsMap (keysAfterAssign functionName (fo_keys functions))
                      (<[functionName := info]> (fo_map functions)).

(** The [functions] object while the function.json files are read: an
    entry is [{ bindings: functionJson.bindings, isCalledBy: [],
    isSignalledBy: [] }], whatever [functionJson.bindings] is. *)
Record ReadFunctions := mkReadFunctions {
  rf_keys : list string;
  rf_map : gmap string BindingsValue
}.

Definition emptyRead : ReadFunctions := mkReadFunctions [] ∅.

Definition setRead (functionName : string) (value : BindingsValue)
    (functions : ReadFunctions) : ReadFunctions :=
  if bool_decide (functionName = "__proto__") then functions
  else mkReadFunctions (keysAfterAssign functionName (rf_keys functions))
                       (<[functionName := value]> (rf_map functions)).

(** The callback mapped over the directory listing. *)
Definition readFunctionJson (hostJsonFolder functionName : string)
    (functions : ReadFunctions) : M ReadFunctions :=
  let fullPath := path_join env hostJsonFolder functionName in
  let functionJsonFilePath := path_join env fullPath "function.json" in
  isDirectory ←' io (lstat_isDirectory env fullPath);
  let functionJsonExists := existsSync env functionJsonFilePath in
  if (isDirectory : bool) && functionJsonExists then
    tryCatch
      (functionJsonString ←' io (readFile env functionJsonFilePath);
       bindings ←' io (JSON_parse_bindings env functionJsonString);
       ret (setRead functionName bindings functions))
      (λ err, log (failedToParse functionJsonFilePath err);;' ret functions)
  else ret functions.

(** [await Promise.all(promises)] over the listing.  The callbacks are
    started together; each has one visible step, the write of its key, its
    log line or its rejection, which it takes when its own reads are done.
    They are run here in the order of these steps, and the first rejection
    ends the wait. *)
Definition readFunctionJsons (hostJsonFolder : string)
    (functionNames : list string) : M ReadFunctions :=
  forEachM (readFunctionJson hostJsonFolder)
           (completionOrder env hostJsonFolder functionNames) emptyRead.

(** The error of the first entry, in key order, whose [bindings] is no
    array. *)
Definition firstNoArray (functions : ReadFunctions) : option string :=
  head (omap (λ k, match rf_map functions !! k with
                   | Some (NoArray typeError) => Some typeError
                   | _ => None
                   end) (rf_keys functions)).

(** The object read, when every [bindings] is an array. *)
Definition functionsOfRead (functions : ReadFunctions) : FunctionsMap :=
  mkFunctionsMap
    (rf_keys functions)
    (omap (λ value, match value with
                    | BindingsArray bindings =>
                        Some (mkFunctionInfo bindings [] [] None None None None)
                    | NoArray _ => None
                    end) (rf_map functions)).

(** [mapOrchestratorsAndActivitiesAsync] called on the object read.  After
    the project kind is known, the first thing the mapping does with an entry
    is [functions[name].bindings.some(...)] in the first [filter], key by key:
    it throws for a [bindings] that is no array, before anything is changed. *)
Definition mapReadFunctions (functions : ReadFunctions)
    (projectFolder hostJsonFolder : string) : M FunctionsMap :=
  match firstNoArray functions with
  | Some typeError => getProjectKind projectFolder;;' throw typeError
  | None => mapOrchestratorsAndActivitiesAsync (functionsOfRead functions)
              projectFolder hostJsonFolder
  end.

(** The clone step: the temporary folders so far and the folder to scan. *)
Definition cloneIfGitRepo (projectFolder : string) : M (list string * string) :=
  if startsWith (toLowerCase projectFolder) "http" then
    log ("Cloning " +:+ projectFolder);;'
    gitInfo ←' io (cloneFromGitHub env projectFolder);
    log ("Successfully cloned to " +:+ gitTempFolder gitInfo);;'
    ret ([gitTempFolder gitInfo], gi_projectFolder gitInfo)
  else ret ([], projectFolder).

(** The publish step of a .NET project. *)
Definition publishIfDotNet (tempFolders : list string) (hostJsonFolder : string)
  : M (list string * string) :=
  isDotNetProject ←' io (isDotNetProjectAsync env hostJsonFolder);
  if isDotNetProject : bool then
    publishTempFolder ←' io (mkdtemp env (path_join env (os_tmpdir env)
                                                    "dotnet-publish-"));
    let tempFolders := tempFolders ++ [publishTempFolder] in
    log (">>> Publishing " +:+ hostJsonFolder +:+ " to " +:+ publishTempFolder
         +:+ "...");;'
    io (execAsync env ("dotnet publish -o " +:+ publishTempFolder) hostJsonFolder);;'
    ret (tempFolders, publishTempFolder)
  else ret (tempFolders, hostJsonFolder).

Definition hostJsonNotFound : string :=
  "host.json file not found under the provided project path".

Definition emptyFunctions : FunctionsMap := mkFunctionsMap [] ∅.

(** The traversal up to (not including) the proxies: the functions, the
    temporary folders and the folder that was scanned. *)
Definition traverseFunctions (projectFolder : string)
  : M (FunctionsMap * list string * string) :=
  cloned ←' cloneIfGitRepo projectFolder;
  let tempFolders := cloned.1 in
  let projectFolder := cloned.2 in
  hostJsonMatch ←' io (findFileRecursivelyAsync env projectFolder "host.json"
                         false None);
  match hostJsonMatch with
  | None => throw hostJsonNotFound
  | Some hostJsonMatch =>
      log (">>> Found host.json at " +:+ fm_filePath hostJsonMatch);;'
      let hostJsonFolder := path_dirname env (fm_filePath hostJsonMatch) in
      isDotNetIsolatedProject ←' io (isDotNetIsolatedProjectAsync env projectFolder);
      probed ←' (if negb isDotNetIsolatedProject then
                   published ←' publishIfDotNet tempFolders hostJsonFolder;
                   isJavaProject ←' io (isJavaProjectAsync env published.2);
                   ret (published, isJavaProject)
                 else ret ((tempFolders, hostJsonFolder), false));
      let tempFolders := probed.1.1 in
      let hostJsonFolder := probed.1.2 in
      let isJavaProject : bool := probed.2 in
      functions ←'
        (if isJavaProject then
           functions ←' io (traverseJavaProject env projectFolder);
           mapOrchestratorsAndActivitiesAsync functions projectFolder hostJsonFolder
         else if isDotNetIsolatedProject then
           io (traverseDotNetIsolatedProject env projectFolder)
         else
           functionNames ←' io (readdir env hostJsonFolder);
           functions ←' readFunctionJsons hostJsonFolder functionNames;
           mapReadFunctions functions projectFolder hostJsonFolder);
      ret (functions, tempFolders, projectFolder)
  end.

Definition traverseFunctionProject (projectFolder : string)
  : M TraverseFunctionResult :=
  traversed ←' traverseFunctions projectFolder;
  let functions := traversed.1.1 in
  let tempFolders := traversed.1.2 in
  let projectFolder := traversed.2 in
  (* Also reading proxies *)
  proxies ←' readProxiesJson projectFolder;
  ret (mkTraverseFunctionResult functions proxies tempFolders projectFolder).

End Traversal.

(** * MonitorViewList.ts

    The helpers of the extension's view list that work on plain data: the
    hub names read off a table list, the table endpoint, and the connection
    strings kept between sessions. *)

(** [String.prototype.endsWith], and [substr(0, n)], on the characters of a
    string. *)
Definition endsWith (s searchString : string) : bool :=
  bool_decide (String.list_ascii_of_string searchString
                 `suffix_of` String.list_ascii_of_string s).

Definition substr0 (s : string) (n : nat) : string :=
  String.string_of_list_ascii (take n (String.list_ascii_of_string s)).

(** [Array.prototype.indexOf] on an array of strings; [None] stands for -1. *)
Fixpoint indexOf (l : list string) (x : string) : option nat :=
  match l with
  | [] => None
  | y :: l' => if bool_decide (y = x) then Some 0 else S <$> indexOf l' x
  end.

(** An entry of the table list that Table Storage answers with. *)
Record Table := mkTable { TableName : string }.

Global Instance Table_eq_dec : EqDecision Table.
Proof. solve_decision. Defined.

Definition getTaskHubNamesFromTableNames (tableNames : list Table) : list string :=
  let instancesTables :=
    (λ tableName, substr0 tableName
                    (String.length tableName - String.length "Instances"))
      <$> filter (λ tableName, endsWith tableName "Instances")
                 (TableName <$> tableNames) in
  let historyTables :=
    (λ tableName, substr0 tableName
                    (String.length tableName - String.length "History"))
      <$> filter (λ tableName, endsWith tableName "History")
                 (TableName <$> tableNames) in
  (* Considering it to be a hub, if it has both *Instances and *History tables *)
  filter (λ n, is_Some (indexOf historyTables n)) instancesTables.

(** [!tableEndpointUrl] holds for the empty string. *)
Definition fixTableEndpointUrl (tableEndpointUrl accountName : string) : string :=
  if bool_decide (tableEndpointUrl = "") then
    "https://" +:+ accountName +:+ ".table.core.windows.net/"
  else if negb (endsWith tableEndpointUrl "/") then tableEndpointUrl +:+ "/"
  else tableEndpointUrl.

(** ** The connection strings kept between sessions

    What [_context.secrets] and the [ConnectionStringHashes] entry of
    [_context.globalState] hold; the entry is absent until the first save.
    The writes are taken when they are issued. *)
Record Persisted := mkPersisted {
  secrets : gmap string string;
  connectionStringHashes : option (list string)
}.

(** The two properties of a [StorageConnectionSettings] object (the class
    is declared in [./StorageConnectionSettings]) that [saveConnectionString]
    reads. *)
Record StorageConnectionSettings := mkStorageConnectionSettings {
  storageConnString : string;
  connStringHashKey : string
}.

Definition saveConnectionString (connSettings : StorageConnectionSettings)
    (ctx : Persisted) : Persisted :=
  let connStringHashes := default [] (connectionStringHashes ctx) in
  let connStringHashes :=
    if negb (includes connStringHashes (connStringHashKey connSettings))
    then connStringHashes ++ [connStringHashKey connSettings]
    else connStringHashes in
  mkPersisted (<[connStringHashKey connSettings := storageConnString connSettings]>
                 (secrets ctx))
              (Some connStringHashes).

Definition getPersistedConnStrings (ctx : Persisted) : list string :=
  match connectionStringHashes ctx with
  | None => []
  | Some connStringHashes =>
      foldl (λ result connStringHash,
               let connString := secrets ctx !! connStringHash in
               if truthy connString then result ++ [default "" connString]
               else result)
            [] connStringHashes
  end.

(** The [while] loop of [forgetConnectionString]; the fuel bounds the number
    of [indexOf] calls. *)
Fixpoint forget_loop (fuel : nat) (connStringHashes : list string)
    (connStringHashKey : string) : option (list string) :=
  match fuel with
  | 0 => None
  | S fuel' =>
      match indexOf connStringHashes connStringHashKey with
      | Some i => forget_loop fuel' (delete i connStringHashes) connStringHashKey
      | None => Some connStringHashes
      end
  end.

(** What [forgetConnectionString] does to the persisted state, after it
    detached the backend; [GetConnStringHashKey] is the static method of
    [StorageConnectionSettings].  [None] stands for a loop that never ends. *)
Definition forgetConnectionString (GetConnStringHashKey : string → string)
    (storageConnString : string) (ctx : Persisted) : option Persisted :=
  let connStringHashKey := GetConnStringHashKey storageConnString in
  let secrets := delete connStringHashKey (secrets ctx) in
  match connectionStringHashes ctx with
  | None => Some (mkPersisted secrets None)
  | Some connStringHashes =>
      connStringHashes ← forget_loop (S (length connStringHashes)) connStringHashes
                                     connStringHashKey;
      Some (mkPersisted secrets (Some connStringHashes))
  end.

(** ** Loading the hub names *)

(** The REST call: the headers built for it (opaque here) and the
    [response.data.value] of the answer, [None] when the response, its [data]
    or its [value] is missing.  An error is carried by its [message], and the
    lines of the computation are those written with [console.log]. *)
Record TableStorage := mkTableStorage {
  CreateAuthHeadersForTableStorage : string → string → string → Outcome string;
  axios_get : string → string → Outcome (option (list Table))
}.

Definition failedToLoadHubNames (message : string) : string :=
  "Failed to load hub names from table storage. " +:+ message.

Definition getTaskHubNamesFromTableStorage (storage : TableStorage)
    (tableEndpointUrl accountName accountKey : string) (throwUponError : bool)
  : M (option (list string)) :=
  let tableEndpointUrl := fixTableEndpointUrl tableEndpointUrl accountName in
  response ←'
    tryCatch
      (authHeaders ←' io (CreateAuthHeadersForTableStorage storage accountName
                            accountKey tableEndpointUrl);
       io (axios_get storage (tableEndpointUrl +:+ "Tables") authHeaders))
      (λ err, if throwUponError then throw err
              else log (failedToLoadHubNames err);;' ret None);
  match response with
  | None => ret None
  | Some value =>
      if bool_decide (length value ≤ 0) then ret None
      else ret (Some (getTaskHubNamesFromTableNames value))
  end.

(** * Vocabulary of the statements *)

(** The project kind and the code arrays, read off an environment whose
    calls all answer. *)
Definition projectKindOf (env : Env) (projectFolder : string) : ProjectKind :=
  match isDotNetProjectAsync env projectFolder with
  | Ok true => dotNet
  | _ => match isJavaProjectAsync env projectFolder with
         | Ok true => java
         | _ => other
         end
  end.

Definition codeOf (env : Env) (projectKind : ProjectKind)
    (projectFolder hostJsonFolder : string) (n : string) : option FunctionCode :=
  match findFunctionFile env projectKind projectFolder hostJsonFolder n with
  | Ok (Some m) => Some (toFunctionCode env projectKind n m)
  | _ => None
  end.

Definition codesOf (env : Env) (projectKind : ProjectKind)
    (projectFolder hostJsonFolder : string) (names : list string)
  : list FunctionCode :=
  omap (codeOf env projectKind projectFolder hostJsonFolder) names.

(** The file-system probes made while mapping answer (none throws). *)
Definition answers (env : Env) (projectFolder hostJsonFolder : string) : Prop :=
  (∃ b, isDotNetProjectAsync env projectFolder = Ok b) ∧
  (∃ b, isJavaProjectAsync env projectFolder = Ok b) ∧
  ∀ projectKind n,
    ∃ r, findFunctionFile env projectKind projectFolder hostJsonFolder n = Ok r.

(** Edge lists only grow: every entry is still there and its [isCalledBy]
    has the old list as a prefix. *)
Definition extends (m m' : gmap string FunctionInfo) : Prop :=
  ∀ k f, m !! k = Some f →
         ∃ f', m' !! k = Some f' ∧ isCalledBy f `prefix_of` isCalledBy f'.

(** The caller [x] was appended to the [isCalledBy] list under [k]. *)
Definition pushedTo (x : string) (m m' : gmap string FunctionInfo) (k : string)
  : Prop :=
  ∀ f, m !! k = Some f →
       ∃ f' l, m' !! k = Some f' ∧ isCalledBy f' = isCalledBy f ++ l ∧ x ∈ l.

(** A pass that leaves one property of every entry alone. *)
Definition preserves {X} (proj : FunctionInfo → X)
    (m m' : gmap string FunctionInfo) : Prop :=
  ∀ k, proj <$> m' !! k = proj <$> m !! k.

(** The signals one orchestrator collects: for each awaited event, in
    order, the other functions that raise it, in order. *)
Definition signalsFor (rx : TraversalRegexes) (otherFunctions : list FunctionCode)
    (eventNames : list string) : list Signal :=
  eventName ← eventNames;
  (λ func, mkSignal (fc_name func) eventName)
    <$> filter (λ func, getRaiseEventRegex rx eventName (fc_code func))
               otherFunctions.

(** The signals collected under the key [k] by a run over [orchestrators]. *)
Definition signalsOf (rx : TraversalRegexes) (otherFunctions : list FunctionCode)
    (k : string) (orchestrators : list FunctionCode) : list Signal :=
  orch ← orchestrators;
  if bool_decide (fc_name orch = k)
  then signalsFor rx otherFunctions (default [] (getEventNames rx (fc_code orch)))
  else [].

(** Some orchestrator stored under [k] restarts itself. *)
Definition continuesAsNew (rx : TraversalRegexes) (k : string)
    (orchestrators : list FunctionCode) : bool :=
  some (λ orch, bool_decide (fc_name orch = k) && continueAsNewRegex rx (fc_code orch))
       orchestrators.

(** The successive matches of the awaited-event pattern from [lastIndex]
    on, each search starting where the match before it ended. *)
Inductive awaited (rx : TraversalRegexes) (code : string)
  : nat → list string → Prop :=
  | awaited_none lastIndex :
      waitForExternalEventRegex rx code lastIndex = None →
      awaited rx code lastIndex []
  | awaited_match lastIndex lastIndex' group4 events :
      waitForExternalEventRegex rx code lastIndex = Some (lastIndex', group4) →
      awaited rx code lastIndex' events →
      awaited rx code lastIndex (group4 :: events).

(** What one iteration of the loop over the proxies makes of a proxy, once
    the pattern for its name is built. *)
Definition annotateProxy (env : Env) (proxiesJsonPath proxiesJsonString : string)
    (notAddedToCsProjFile : bool) (proxyNameRegex : string → option nat)
    (proxy : ProxyInfo) : ProxyInfo :=
  let proxy := set_proxy_filePath proxiesJsonPath proxy in
  let proxy := if notAddedToCsProjFile then set_proxy_warning proxy else proxy in
  match proxyNameRegex proxiesJsonString with
  | Some index =>
      set_proxy_position index (posToLineNr env proxiesJsonString index) proxy
  | None => proxy
  end.

(** ** Vocabulary for the edges of the call graph *)

(** A pass appended [l] to a list-valued property of the entry under [k]. *)
Definition appendsAt {X} (proj : FunctionInfo → list X) (l : list X)
    (m m' : gmap string FunctionInfo) (k : string) : Prop :=
  proj <$> m' !! k = (λ f, proj f ++ l) <$> m !! k.

(** The callers that the iteration for [orch] of the loop over the
    orchestrators appends under [k]: the starters of [orch], then [orch] as
    caller of a sub-orchestrator, then [orch] as caller of an activity. *)
Definition callersFromOrchestrator (rx : TraversalRegexes)
    (orchestrators otherFunctions : list FunctionCode) (activityNames : list string)
    (k : string) (orch : FunctionCode) : list string :=
  (func ← otherFunctions;
   if getStartNewOrchestrationRegex rx (fc_name orch) (fc_code func)
      && bool_decide (fc_name orch = k)
   then [fc_name func] else [])
  ++ (subOrch ← orchestrators;
      if negb (bool_decide (fc_name orch = fc_name subOrch))
         && getCallSubOrchestratorRegex rx (fc_name subOrch) (fc_code orch)
         && bool_decide (fc_name subOrch = k)
      then [fc_name orch] else [])
  ++ (activityName ← activityNames;
      if getCallActivityRegex rx activityName (fc_code orch)
         && bool_decide (activityName = k)
      then [fc_name orch] else []).

(** The callers that the iteration for [entity] of the loop over the
    entities appends under [k]. *)
Definition callersFromEntity (rx : TraversalRegexes)
    (otherFunctions : list FunctionCode) (k : string) (entity : FunctionCode)
  : list string :=
  func ← otherFunctions;
  if getSignalEntityRegex rx (fc_name entity) (fc_code func)
     && bool_decide (fc_name entity = k)
  then [fc_name func] else [].

(** All the callers the mapping appends under [k], in the order of the
    pushes. *)
Definition callersOf (rx : TraversalRegexes)
    (orchestrators otherFunctions : list FunctionCode) (activityNames : list string)
    (entities : list FunctionCode) (k : string) : list string :=
  (orch ← orchestrators;
   callersFromOrchestrator rx orchestrators otherFunctions activityNames k orch)
  ++ (entity ← entities; callersFromEntity rx otherFunctions k entity).

(** The four code arrays of the mapping, for an environment that answers. *)
Definition orchestratorsOf (env : Env) (projectFolder hostJsonFolder : string)
    (functions : FunctionsMap) : list FunctionCode :=
  codesOf env (projectKindOf env projectFolder) projectFolder hostJsonFolder
          (orchestratorNamesOf functions).

Definition activitiesOf (env : Env) (projectFolder hostJsonFolder : string)
    (functions : FunctionsMap) : list FunctionCode :=
  codesOf env (projectKindOf env projectFolder) projectFolder hostJsonFolder
          (activityNamesOf functions).

Definition entitiesOf (env : Env) (projectFolder hostJsonFolder : string)
    (functions : FunctionsMap) : list FunctionCode :=
  codesOf env (projectKindOf env projectFolder) projectFolder hostJsonFolder
          (entityNamesOf functions).

Definition otherFunctionsOf (env : Env) (projectFolder hostJsonFolder : string)
    (functions : FunctionsMap) : list FunctionCode :=
  codesOf env (projectKindOf env projectFolder) projectFolder hostJsonFolder
          (otherFunctionNamesOf functions).

(** The three properties the last loop of the mapping assigns. *)
Definition location (f : FunctionInfo) : option string * option nat * option nat :=
  (filePath f, pos f, lineNr f).

(** The same three, as the last loop copies them from a code. *)
Definition locationIn (func : FunctionCode)
  : option string * option nat * option nat :=
  (Some (fc_filePath func), Some (fc_pos func), Some (fc_lineNr func)).

(** The last element of [funcs] stored under [k], if any. *)
Definition locationOf (funcs : list FunctionCode) (k : string) : option FunctionCode :=
  last (filter (λ func, fc_name func = k) funcs).

(** What the traversal reads for a listed name: the [bindings] of its
    function.json, when the name is a directory that has one and the file can
    be read and parsed. *)
Definition descriptorOf (env : Env) (hostJsonFolder functionName : string)
  : option BindingsValue :=
  let fullPath := path_join env hostJsonFolder functionName in
  let functionJsonFilePath := path_join env fullPath "function.json" in
  match lstat_isDirectory env fullPath with
  | Ok true =>
      if existsSync env functionJsonFilePath then
        match readFile env functionJsonFilePath with
        | Ok functionJsonString =>
            match JSON_parse_bindings env functionJsonString with
            | Ok bindings => Some bindings
            | _ => None
            end
        | _ => None
        end
      else None
  | _ => None
  end.

(** What a JavaScript object guarantees about its own keys, for the object
    under construction. *)
Definition wfReadFunctions (functions : ReadFunctions) : Prop :=
  NoDup (rf_keys functions) ∧
  ∀ k, k ∈ rf_keys functions ↔ is_Some (rf_map functions !! k).

(** The order of [Object.keys] between two keys: an array index comes
    before every key that is none, and before the array indices that are not
    smaller. *)
Definition keyOrder (k1 k2 : string) : Prop :=
  match arrayIndex k1, arrayIndex k2 with
  | Some i, Some j => (i ≤ j)%N
  | Some _, None => True
  | None, Some _ => False
  | None, None => True
  end.

(** * Sample inputs *)

Definition blobIn : Binding := mkBinding "blob" (Some "in") "input".
Definition blobOut : Binding := mkBinding "blob" (Some "out") "output".
Definition queueNoDirection : Binding := mkBinding "queue" None "items".
Definition queueOut : Binding := mkBinding "queue" (Some "out") "q".
Definition httpTrigger : Binding := mkBinding "httpTrigger" (Some "in") "req".

Definition orchestrationTrigger : Binding :=
  mkBinding "orchestrationTrigger" (Some "in") "context".
Definition activityTrigger : Binding :=
  mkBinding "activityTrigger" (Some "in") "input".
Definition entityTrigger : Binding :=
  mkBinding "entityTrigger" (Some "in") "ctx".

Definition newFunction (bs : list Binding) : FunctionInfo :=
  mkFunctionInfo bs [] [] None None None None.

(** A function.json that declares two of the durable triggers. *)
Definition twoTriggers : FunctionsMap :=
  setFunction "Http" (newFunction [httpTrigger])
    (setFunction "Both" (newFunction [orchestrationTrigger; activityTrigger])
       emptyFunctions).

(** ** A sample machine with three project folders

    [proj] is a script-based project with two orchestrators, an activity
    and two starters; [bad] has a host.json and a proxies.json that does not
    parse; [nohost] has no host.json.  The sample patterns are literal:
    [callActivity(Name)], [startNew(Name)], [raise(e)], [continueAsNew(] and,
    for an awaited event, [!] followed by the one-letter event name. *)

Fixpoint contains (p s : string) : bool :=
  String.prefix p s
  || match s with
     | String _ s' => contains p s'
     | EmptyString => false
     end.

Fixpoint dropString (n : nat) (s : string) : string :=
  match n, s with
  | S n', String _ s' => dropString n' s'
  | _, _ => s
  end.

Fixpoint scanWait (s : string) (offset : nat) : option (nat * string) :=
  match s with
  | EmptyString => None
  | String c s' =>
      if Ascii.eqb c (Ascii.ascii_of_nat 33) then
        match s' with
        | String e _ => Some (offset + 2, String e EmptyString)
        | EmptyString => None
        end
      else scanWait s' (S offset)
  end.

Definition sampleRegexes : TraversalRegexes :=
  mkTraversalRegexes
    (λ n code, contains ("startNew(" +:+ n +:+ ")") code)
    (λ n code, contains ("callSubOrchestrator(" +:+ n +:+ ")") code)
    (λ n code, contains ("callActivity(" +:+ n +:+ ")") code)
    (λ code, contains "continueAsNew(" code)
    (λ e code, contains ("raise(" +:+ e +:+ ")") code)
    (λ n code, contains ("signalEntity(" +:+ n +:+ ")") code)
    (λ code lastIndex, scanWait (dropString lastIndex code) lastIndex).

(** The proxies descriptor of [proj]: the name of [p1] is followed by its
    colon at once, the name of [p2] by a space first, and the name of [p3]
    is written with an escape, so that its text is not in the file. *)
Definition sampleProxiesText : string :=
  "{" +:+ dquote +:+ "proxies" +:+ dquote +:+ ":{" +:+ dquote +:+ "p1" +:+ dquote
  +:+ ":{}," +:+ newline +:+ dquote +:+ "p2" +:+ dquote +:+ " :{},"
  +:+ dquote +:+ "p\u0033" +:+ dquote +:+ ":{}}}".

(** The text of a function.json with one binding, of the type given. *)
Definition functionJson (bindingType : string) : string :=
  "{" +:+ dquote +:+ "bindings" +:+ dquote +:+ ":[{" +:+ dquote +:+ "type"
  +:+ dquote +:+ ":" +:+ dquote +:+ bindingType +:+ dquote +:+ "}]}".

(** The descriptors the samples parse: [functionJson] of a type, [{}]
    (no bindings) and texts that are no JSON. *)
Definition sampleParseBindings (text : string) : Outcome BindingsValue :=
  let opening := String.substring 0 22 (functionJson "") in
  let closing := String.substring 22 4 (functionJson "") in
  if bool_decide (text = "{}") then
    Ok (NoArray "TypeError: Cannot read properties of undefined (reading 'some')")
  else if String.prefix opening text && endsWith text closing then
    Ok (BindingsArray
          [mkBinding (String.substring 22 (String.length text - 26) text) None ""])
  else Throw "SyntaxError: Unexpected end of JSON input".

(** The patterns of the samples: a source is read as literal characters,
    escaped characters, [.] and [\s*], which is all that the names of the
    samples ask for; a source with an opening parenthesis is refused. *)
Inductive PatternItem : Type :=
  | Literal (c : Ascii.ascii)
  | AnyCharacter
  | WhiteSpaces.

Fixpoint parsePattern (source : string) : option (list PatternItem) :=
  match source with
  | EmptyString => Some []
  | String c rest =>
      if Ascii.eqb c (Ascii.ascii_of_nat 92) then
        match rest with
        | EmptyString => None
        | String c1 rest1 =>
            match rest1 with
            | String c2 rest2 =>
                if Ascii.eqb c1 (Ascii.ascii_of_nat 115)
                   && Ascii.eqb c2 (Ascii.ascii_of_nat 42)
                then (WhiteSpaces ::.) <$> parsePattern rest2
                else (Literal c1 ::.) <$> parsePattern rest1
            | EmptyString => Some [Literal c1]
            end
        end
      else if Ascii.eqb c (Ascii.ascii_of_nat 40) then None
      else if Ascii.eqb c (Ascii.ascii_of_nat 46)
      then (AnyCharacter ::.) <$> parsePattern rest
      else (Literal c ::.) <$> parsePattern rest
  end.

Definition isWhiteSpace (c : Ascii.ascii) : bool :=
  let n := Ascii.nat_of_ascii c in
  bool_decide (9 ≤ n ≤ 13) || bool_decide (n = 32).

Fixpoint matchHere (items : list PatternItem) : string → bool :=
  match items with
  | [] => λ _, true
  | Literal c :: items' =>
      λ text, match text with
              | String c' text' => Ascii.eqb c c' && matchHere items' text'
              | EmptyString => false
              end
  | AnyCharacter :: items' =>
      λ text, match text with
              | String c' text' =>
                  negb (Ascii.eqb c' (Ascii.ascii_of_nat 10)) && matchHere items' text'
              | EmptyString => false
              end
  | WhiteSpaces :: items' =>
      fix spaces (text : string) : bool :=
        matchHere items' text
        || match text with
           | String c' text' => isWhiteSpace c' && spaces text'
           | EmptyString => false
           end
  end.

Fixpoint searchPattern (items : list PatternItem) (text : string) (index : nat)
  : option nat :=
  if matchHere items text then Some index
  else match text with
       | String _ text' => searchPattern items text' (S index)
       | EmptyString => None
       end.

Definition sampleRegExp (source : string) : Outcome (string → option nat) :=
  match parsePattern source with
  | Some items => Ok (λ text, searchPattern items text 0)
  | None => Throw "SyntaxError: Invalid regular expression"
  end.

Definition sampleFiles : list (string * string) :=
  [("proj/host.json", "{}");
   ("proj/OrchA/function.json", functionJson "orchestrationTrigger");
   ("proj/OrchA/index.js", "callActivity(ActB); wait !a; wait !b;");
   ("proj/OrchLoop/function.json", functionJson "orchestrationTrigger");
   ("proj/OrchLoop/index.js", "continueAsNew();");
   ("proj/ActB/function.json", functionJson "activityTrigger");
   ("proj/ActB/index.js", "return 1;");
   ("proj/Starter1/function.json", functionJson "httpTrigger");
   ("proj/Starter1/index.js", "startNew(OrchA); raise(a);");
   ("proj/Starter2/function.json", functionJson "queueTrigger");
   ("proj/Starter2/index.js", "raise(b);");
   ("proj/proxies.json", sampleProxiesText);
   ("bad/host.json", "{}");
   ("bad/proxies.json", "{ oops")].

Definition sampleFile (path : string) : option string :=
  (λ found, found.2.2) <$> list_find (λ entry, entry.1 = path) sampleFiles.

Definition sampleProxies : ProxiesMap :=
  mkProxiesMap ["p1"; "p2"; "p3"]
    (<["p1" := mkProxyInfo "{}" None None None None]>
       (<["p2" := mkProxyInfo "{}" None None None None]>
          (<["p3" := mkProxyInfo "{}" None None None None]> ∅))).

Fixpoint countNewlines (n : nat) (s : string) : nat :=
  match n, s with
  | S n', String c s' =>
      (if Ascii.eqb c (Ascii.ascii_of_nat 10) then 1 else 0) + countNewlines n' s'
  | _, _ => 0
  end.

Definition sampleEnv : Env :=
  mkEnv
    (λ url, Throw "clone failed")
    (λ folder pattern _ _,
       if bool_decide (pattern = "host.json") then
         Ok (if existsb (String.eqb (folder +:+ "/host.json")) (fst <$> sampleFiles)
             then Some (mkFileMatch (folder +:+ "/host.json") "" None None)
             else None)
       else if bool_decide (pattern = "(index\.ts|index\.js|__init__\.py)$") then
         Ok ((λ code, mkFileMatch (folder +:+ "/index.js") code None None)
               <$> sampleFile (folder +:+ "/index.js"))
       else Ok None)
    (λ _, Ok false)
    (λ _, Ok false)
    (λ _, Ok false)
    (λ _, Ok emptyFunctions)
    (λ _, Ok emptyFunctions)
    (λ code _ _ _ _, code)
    (λ text pos, S (countNewlines pos text))
    (λ _, [])
    (λ a b, a +:+ "/" +:+ b)
    (λ path, String.substring 0 (String.length path - 10) path)
    "/tmp"
    (λ prefix, Ok (prefix +:+ "XXXXXX"))
    (λ _ _, Ok tt)
    (λ folder,
       if bool_decide (folder = "proj")
       then Ok ["OrchA"; "OrchLoop"; "ActB"; "Starter1"; "Starter2"; "host.json"]
       else if bool_decide (folder = "bad") then Ok ["host.json"]
       else Throw "ENOENT")
    (λ path, Ok (negb (bool_decide (path = "proj/host.json")
                       || bool_decide (path = "bad/host.json"))))
    (λ path, bool_decide (is_Some (sampleFile path)))
    (λ path, match sampleFile path with
             | Some text => Ok text
             | None => Throw "ENOENT"
             end)
    sampleParseBindings
    (λ text, if bool_decide (text = sampleProxiesText) then Ok (Some sampleProxies)
             else Throw "SyntaxError: Unexpected token o in JSON at position 2")
    sampleRegExp
    (λ _ functionNames, functionNames).

(** The functions object the traversal reads from [proj]. *)
Definition sampleFunctions : FunctionsMap :=
  setFunction "Starter2" (newFunction [mkBinding "queueTrigger" None ""])
    (setFunction "Starter1" (newFunction [mkBinding "httpTrigger" None ""])
       (setFunction "ActB" (newFunction [mkBinding "activityTrigger" None ""])
          (setFunction "OrchLoop"
             (newFunction [mkBinding "orchestrationTrigger" None ""])
             (setFunction "OrchA"
                (newFunction [mkBinding "orchestrationTrigger" None ""])
                emptyFunctions)))).

Definition sampleCode (n code : string) : FunctionCode :=
  mkFunctionCode n code ("proj/" +:+ n +:+ "/index.js") 0 1.

Definition orchA : FunctionCode :=
  sampleCode "OrchA" "callActivity(ActB); wait !a; wait !b;".
Definition orchLoop : FunctionCode := sampleCode "OrchLoop" "continueAsNew();".
Definition starter1 : FunctionCode :=
  sampleCode "Starter1" "startNew(OrchA); raise(a);".
Definition starter2 : FunctionCode := sampleCode "Starter2" "raise(b);".

(** ** Sample machines in general

    A machine is given by its files, its directory listings, the folders
    that pass for a .NET, an isolated .NET or a Java project, the functions
    the isolated and Java readers return, the repositories that can be
    cloned, the texts that parse as a proxies descriptor and the bindings
    the parser finds in a code, and the folders whose reads complete in
    another order than the listing.  The patterns of file names are answered
    literally: [host.json], [index.js] and [app.csproj] in the folder asked
    for, and [<name>.cs] for the declaration of a function. *)

Record Machine := mkMachine {
  mc_files : list (string * string);
  mc_listing : list (string * list string);
  mc_dotNet : list string;
  mc_isolated : list string;
  mc_java : list string;
  mc_foreign : FunctionsMap;
  mc_clone : list (string * GitInfo);
  mc_proxies : list (string * option ProxiesMap);
  mc_extracted : list (string * list Binding);
  mc_completion : list (string * list string)
}.

Definition assoc {B} (k : string) (l : list (string * B)) : option B :=
  (λ found, found.2.2) <$> list_find (λ entry, entry.1 = k) l.

Definition machineEnv (mc : Machine) : Env :=
  mkEnv
    (λ url, match assoc url (mc_clone mc) with
            | Some gitInfo => Ok gitInfo
            | None => Throw "fatal: repository not found"
            end)
    (λ folder pattern _ contentPattern,
       if bool_decide (pattern = "host.json") then
         Ok ((λ _, mkFileMatch (folder +:+ "/host.json") "" None None)
               <$> assoc (folder +:+ "/host.json") (mc_files mc))
       else if bool_decide (pattern = "(index\.ts|index\.js|__init__\.py)$") then
         Ok ((λ code, mkFileMatch (folder +:+ "/index.js") code None None)
               <$> assoc (folder +:+ "/index.js") (mc_files mc))
       else if bool_decide (pattern = ".+\.csproj$") then
         Ok ((λ code, mkFileMatch (folder +:+ "/app.csproj") code None None)
               <$> assoc (folder +:+ "/app.csproj") (mc_files mc))
       else
         match contentPattern with
         | Some (DotNetFunctionNameRegex n) =>
             Ok ((λ code, mkFileMatch (folder +:+ "/" +:+ n +:+ ".cs") code
                            (Some 0) (Some 0))
                   <$> assoc (folder +:+ "/" +:+ n +:+ ".cs") (mc_files mc))
         | None => Ok None
         end)
    (λ folder, Ok (bool_decide (folder ∈ mc_dotNet mc)))
    (λ folder, Ok (bool_decide (folder ∈ mc_isolated mc)))
    (λ folder, Ok (bool_decide (folder ∈ mc_java mc)))
    (λ _, Ok (mc_foreign mc))
    (λ _, Ok (mc_foreign mc))
    (λ code _ _ _ _, code)
    (λ text pos, S (countNewlines pos text))
    (λ code, default [] (assoc code (mc_extracted mc)))
    (λ a b, a +:+ "/" +:+ b)
    (λ path, String.substring 0 (String.length path - 10) path)
    "/tmp"
    (λ prefix, Ok (prefix +:+ "XXXXXX"))
    (λ _ _, Ok tt)
    (λ folder, match assoc folder (mc_listing mc) with
               | Some names => Ok names
               | None => Throw "ENOENT"
               end)
    (λ path, Ok (negb (bool_decide (is_Some (assoc path (mc_files mc))))))
    (λ path, bool_decide (is_Some (assoc path (mc_files mc))))
    (λ path, match assoc path (mc_files mc) with
             | Some text => Ok text
             | None => Throw "ENOENT"
             end)
    sampleParseBindings
    (λ text, match assoc text (mc_proxies mc) with
             | Some parsed => Ok parsed
             | None => Throw "SyntaxError: Unexpected token in JSON"
             end)
    sampleRegExp
    (λ folder functionNames,
       default functionNames (assoc folder (mc_completion mc))).

(** A script project with a sub-orchestration, an entity and a function
    that is both an orchestrator and an activity. *)
Definition flowMachine : Machine :=
  mkMachine
    [("flow/host.json", "{}");
     ("flow/Main/function.json", functionJson "orchestrationTrigger");
     ("flow/Main/index.js", "callSubOrchestrator(Child);");
     ("flow/Child/function.json", functionJson "orchestrationTrigger");
     ("flow/Child/index.js", "callActivity(Work);");
     ("flow/Both/index.js", "callActivity(Both);");
     ("flow/Work/function.json", functionJson "activityTrigger");
     ("flow/Counter/function.json", functionJson "entityTrigger");
     ("flow/Counter/index.js", "state++;");
     ("flow/Client/function.json", functionJson "httpTrigger");
     ("flow/Client/index.js", "startNew(Main); signalEntity(Counter);")]
    [("flow", ["Main"; "Child"; "Work"; "Counter"; "Client"; "host.json"])]
    [] [] [] emptyFunctions [] [] [] [].

Definition flowFunctions : FunctionsMap :=
  setFunction "Both" (newFunction [orchestrationTrigger; activityTrigger])
    (setFunction "Client" (newFunction [httpTrigger])
       (setFunction "Counter" (newFunction [entityTrigger])
          (setFunction "Work" (newFunction [activityTrigger])
             (setFunction "Child" (newFunction [orchestrationTrigger])
                (setFunction "Main" (newFunction [orchestrationTrigger])
                   emptyFunctions))))).

Definition flowCode (n code : string) : FunctionCode :=
  mkFunctionCode n code ("flow/" +:+ n +:+ "/index.js") 0 1.

Definition flowMain : FunctionCode := flowCode "Main" "callSubOrchestrator(Child);".
Definition flowChild : FunctionCode := flowCode "Child" "callActivity(Work);".
Definition flowBoth : FunctionCode := flowCode "Both" "callActivity(Both);".
Definition flowCounter : FunctionCode := flowCode "Counter" "state++;".
Definition flowClient : FunctionCode :=
  flowCode "Client" "startNew(Main); signalEntity(Counter);".

(** A .NET project: the code is in the project folder, the function.json
    files are in the folder the project is published to, where the read of
    [Act] is the first to complete. *)
Definition netPublished : string := "/tmp/dotnet-publish-XXXXXX".

Definition netProxiesText : string :=
  "{" +:+ dquote +:+ "proxies" +:+ dquote +:+ ":{" +:+ dquote +:+ "api" +:+ dquote
  +:+ ":{}}}".

Definition netProxies : ProxiesMap :=
  mkProxiesMap ["api"] (<["api" := mkProxyInfo "{}" None None None None]> ∅).

Definition netMachine : Machine :=
  mkMachine
    [("net/host.json", "{}");
     ("net/app.csproj", "<Project/>");
     ("net/proxies.json", netProxiesText);
     ("net/Orch.cs", "callActivity(Act);");
     ("net/Act.cs", "[Blob] [Queue]");
     ("net/Http.cs", "startNew(Orch); [Queue]");
     (netPublished +:+ "/Orch/function.json", functionJson "orchestrationTrigger");
     (netPublished +:+ "/Act/function.json", functionJson "activityTrigger");
     (netPublished +:+ "/Http/function.json", functionJson "queue")]
    [(netPublished, ["Orch"; "Act"; "Http"])]
    ["net"] [] [] emptyFunctions [] [(netProxiesText, Some netProxies)]
    [("[Blob] [Queue]", [blobIn; queueOut]);
     ("startNew(Orch); [Queue]", [queueOut])]
    [(netPublished, ["Act"; "Orch"; "Http"])].

(** The functions of the published folder, with the keys as reads that
    complete in listing order leave them. *)
Definition netFunctions : FunctionsMap :=
  setFunction "Http" (newFunction [mkBinding "queue" None ""])
    (setFunction "Act" (newFunction [mkBinding "activityTrigger" None ""])
       (setFunction "Orch" (newFunction [mkBinding "orchestrationTrigger" None ""])
          emptyFunctions)).

Definition netCode (n code : string) : FunctionCode :=
  mkFunctionCode n code ("net/" +:+ n +:+ ".cs") 0 1.

(** A proxies descriptor with a name that is no pattern. *)
Definition cloudProxiesText : string :=
  "{" +:+ dquote +:+ "proxies" +:+ dquote +:+ ":{" +:+ dquote +:+ "ok" +:+ dquote
  +:+ ":{}," +:+ dquote +:+ "a(b" +:+ dquote +:+ ":{}}}".

(** A machine that can clone one repository (into the flow project
    above), with an isolated .NET project in [iso] and a Java project in
    [jv]; the two readers return [twoTriggers], and the Java project has the
    proxies above.  The folder [mix] holds function.json files of every
    kind: good ones, also under names that are array indices and under
    [__proto__], one without bindings and one that is no JSON; its reads
    complete in the order given last. *)
Definition cloudMachine : Machine :=
  mkMachine
    (mc_files flowMachine
     ++ [("iso/host.json", "{}"); ("jv/host.json", "{}");
         ("pub/host.json", "{}"); ("jv/proxies.json", cloudProxiesText);
         ("mix/host.json", "{}");
         ("mix/Good/function.json", functionJson "timerTrigger");
         ("mix/10/function.json", functionJson "queueTrigger");
         ("mix/9/function.json", functionJson "httpTrigger");
         ("mix/__proto__/function.json", functionJson "blobTrigger");
         ("mix/Bare/function.json", "{}");
         ("mix/Broken/function.json", "{")])
    (mc_listing flowMachine
     ++ [("mix", ["10"; "9"; "Bare"; "Broken"; "Good"; "__proto__"; "host.json"])])
    ["pub"] ["iso"] ["jv"] twoTriggers
    [("HTTPS://example.org/flow.git", mkGitInfo "/tmp/git-1" "flow")]
    [(cloudProxiesText,
      Some (mkProxiesMap ["ok"; "a(b"]
              (<["ok" := mkProxyInfo "{}" None None None None]>
                 (<["a(b" := mkProxyInfo "{}" None None None None]> ∅))))]
    []
    [("mix", ["Good"; "10"; "__proto__"; "Broken"; "host.json"; "9"; "Bare"])].

(** An environment with its file search, its [execAsync] and its
    [readFile] replaced. *)
Definition withCalls (env : Env)
    (find : string → string → bool → option ContentPattern
            → Outcome (option FileMatch))
    (exec : string → string → Outcome unit)
    (read : string → Outcome string) : Env :=
  mkEnv (cloneFromGitHub env) find
        (isDotNetProjectAsync env) (isDotNetIsolatedProjectAsync env)
        (isJavaProjectAsync env) (traverseDotNetIsolatedProject env)
        (traverseJavaProject env) (getCodeInBrackets env) (posToLineNr env)
        (tryExtractBindings env) (path_join env) (path_dirname env)
        (os_tmpdir env) (mkdtemp env) exec
        (readdir env) (lstat_isDirectory env) (existsSync env) read
        (JSON_parse_bindings env) (JSON_parse_proxies env) (RegExp_new env)
        (completionOrder env).

(** The cloud machine, where [dotnet publish] fails. *)
Definition brokenPublishEnv : Env :=
  withCalls (machineEnv cloudMachine)
            (findFileRecursivelyAsync (machineEnv cloudMachine))
            (λ _ _, Throw "Command failed: dotnet publish")
            (readFile (machineEnv cloudMachine)).


(** The flow machine, where the folder of [Child] cannot be searched. *)
Definition unsearchableEnv : Env :=
  withCalls (machineEnv flowMachine)
            (λ folder pattern readContents contentPattern,
               if bool_decide (folder = "flow/Child")
               then Throw "EACCES: permission denied"
               else findFileRecursivelyAsync (machineEnv flowMachine) folder
                      pattern readContents contentPattern)
            (execAsync (machineEnv flowMachine))
            (readFile (machineEnv flowMachine)).

(** A storage account with two hubs, a table that is no hub, and a table
    of instances without its history. *)
Definition sampleTables : list Table :=
  [mkTable "HubAInstances"; mkTable "HubAHistory"; mkTable "Users";
   mkTable "HubBHistory"; mkTable "HubBInstances"; mkTable "HubCInstances"].

(** Table Storage, reachable under one endpoint only. *)
Definition sampleStorage : TableStorage :=
  mkTableStorage
    (λ _ _ _, Ok "SharedKeyLite")
    (λ url _, if bool_decide (url = "https://acc.table.core.windows.net/Tables")
              then Ok (Some sampleTables)
              else Throw "Request failed with status code 404").

(** Two connection strings kept so far. *)
Definition samplePersisted : Persisted :=
  mkPersisted (<["h1" := "conn1"]> (<["h2" := "conn2"]> ∅)) (Some ["h1"; "h2"]).

(** A heap for one function: the objects 0 and 1 were read from
    function.json, the objects 2, 3 and 4 were extracted from the code. *)
Definition sampleStore : gmap nat Binding :=
  <[0 := httpTrigger]> (<[1 := queueNoDirection]>
    (<[2 := queueOut]> (<[3 := blobIn]> (<[4 := blobOut]> ∅)))).

(** * Properties *)

(** Settles a decidable statement about concrete data by evaluating its
    decision procedure. *)
Ltac by_computing :=
  apply (bool_decide_unpack _); vm_compute; exact I.

(** ** Array helpers *)

Lemma some_true {A} (p : A → bool) (l : list A) :
  some p l = true ↔ ∃ x, x ∈ l ∧ p x = true.
Proof.
  unfold some. rewrite existsb_exists.
  split; intros (x & Hx & Hp); exists x; split; auto; by apply list_elem_of_In.
Qed.

Lemma some_false {A} (p : A → bool) (l : list A) :
  some p l = false ↔ ∀ x, x ∈ l → p x = false.
Proof.
  split.
  - intros Hs x Hx. destruct (p x) eqn:Hp; [|done].
    assert (some p l = true) by (apply some_true; eauto). congruence.
  - intros Hall. destruct (some p l) eqn:Hs; [|done].
    apply some_true in Hs as (x & Hx & Hp). rewrite (Hall x Hx) in Hp. done.
Qed.

Lemma includes_true l x : includes l x = true ↔ x ∈ l.
Proof. unfold includes. by rewrite bool_decide_eq_true. Qed.

Lemma includes_false l x : includes l x = false ↔ x ∉ l.
Proof. unfold includes. by rewrite bool_decide_eq_false. Qed.

Lemma filter_none {A} (P : A → Prop) `{∀ x, Decision (P x)} (l : list A) :
  (∀ x, x ∈ l → ¬ P x) → filter P l = [].
Proof.
  induction l as [|x l IH]; intros Hall; [done|].
  rewrite filter_cons_False by (apply Hall; left).
  apply IH. intros y Hy. apply Hall. by right.
Qed.

(** ** The functions object *)

Lemma wf_emptyFunctions : wfFunctionsMap emptyFunctions.
Proof.
  split; simpl; [constructor|].
  intros k. rewrite elem_of_nil, lookup_empty, is_Some_alt. done.
Qed.

Lemma insertIndexKey_Permutation i k (keys : list string) :
  insertIndexKey i k keys ≡ₚ k :: keys.
Proof.
  induction keys as [|k' keys IH]; simpl; [done|].
  destruct (arrayIndex k') as [j|]; [|done].
  case_bool_decide; [|done]. rewrite IH. apply Permutation_swap.
Qed.

Lemma keysAfterAssign_Permutation k (keys : list string) :
  k ∉ keys → keysAfterAssign k keys ≡ₚ k :: keys.
Proof.
  intros Hk. unfold keysAfterAssign. rewrite bool_decide_false by done.
  destruct (arrayIndex k) as [i|].
  - apply insertIndexKey_Permutation.
  - symmetry. apply Permutation_cons_append.
Qed.

Lemma elem_of_keysAfterAssign k (keys : list string) k' :
  k' ∈ keysAfterAssign k keys ↔ k' = k ∨ k' ∈ keys.
Proof.
  destruct (decide (k ∈ keys)) as [Hk|Hk].
  - unfold keysAfterAssign. rewrite bool_decide_true by done.
    split; [by right|]. by intros [->|?].
  - by rewrite (keysAfterAssign_Permutation k keys Hk), elem_of_cons.
Qed.

Lemma NoDup_keysAfterAssign k (keys : list string) :
  NoDup keys → NoDup (keysAfterAssign k keys).
Proof.
  intros Hnd. destruct (decide (k ∈ keys)) as [Hk|Hk].
  - unfold keysAfterAssign. by rewrite bool_decide_true.
  - rewrite (keysAfterAssign_Permutation k keys Hk). by apply NoDup_cons.
Qed.

Lemma wf_setFunction functionName info functions :
  wfFunctionsMap functions → wfFunctionsMap (setFunction functionName info functions).
Proof.
  intros [Hnd Hkeys]. unfold setFunction. case_bool_decide; [done|].
  split; simpl.
  - by apply NoDup_keysAfterAssign.
  - intros k. rewrite lookup_insert_is_Some', elem_of_keysAfterAssign, Hkeys.
    split; intros [?|?]; auto.
Qed.

(** ** The binding enrichment *)

Section Enrichment.
Implicit Types (d c : list Binding) (b : Binding).

Lemma pushExtracted_loop (existing : list string) acc c :
  foldl (λ acc b, if negb (includes existing (type b)) then acc ++ [b] else acc)
        acc c
  = acc ++ filter (λ b, type b ∉ existing) c.
Proof.
  revert acc. induction c as [|b c IH]; intros acc; simpl.
  - by rewrite filter_nil, app_nil_r.
  - rewrite IH. destruct (includes existing (type b)) eqn:Hin; simpl.
    + apply includes_true in Hin. rewrite filter_cons_False by tauto. done.
    + apply includes_false in Hin. rewrite filter_cons_True by done.
      by rewrite <-app_assoc.
Qed.

(** The first loop appends, in order, the candidates whose type the
    descriptor's list does not have. *)
Lemma pushExtracted_filter d c :
  pushExtracted d c = d ++ filter (λ b, type b ∉ type <$> d) c.
Proof. unfold pushExtracted. apply pushExtracted_loop. Qed.

Lemma setDefaultDirection_type c b :
  type (setDefaultDirection c b) = type b.
Proof.
  unfold setDefaultDirection.
  destruct (negb (truthy (direction b))); [|done].
  by destruct (filter _ c) as [|? [|? ?]].
Qed.


(** Setting the default direction a second time changes nothing. *)
Lemma setDefaultDirection_idemp c b :
  setDefaultDirection c (setDefaultDirection c b) = setDefaultDirection c b.
Proof.
  unfold setDefaultDirection at 2.
  destruct (negb (truthy (direction b))) eqn:Hb.
  - destruct (filter (λ b0, type b0 = type b) c) as [|b0 [|? ?]] eqn:Hf.
    + unfold setDefaultDirection. by rewrite Hb, Hf.
    + unfold setDefaultDirection. simpl. rewrite Hf.
      rewrite Hb. by destruct (negb (truthy (direction b0))).
    + unfold setDefaultDirection. by rewrite Hb, Hf.
  - unfold setDefaultDirection. by rewrite Hb.
Qed.

Lemma enrichBindings_types d c :
  type <$> enrichBindings d c = type <$> pushExtracted d c.
Proof.
  unfold enrichBindings. rewrite <-list_fmap_compose.
  apply list_fmap_ext. intros i b _. simpl. apply setDefaultDirection_type.
Qed.

(** After the merge every candidate's type is in the list. *)
Lemma pushExtracted_covers d c b :
  b ∈ c → type b ∈ type <$> pushExtracted d c.
Proof.
  intros Hb. rewrite pushExtracted_filter, fmap_app, elem_of_app.
  destruct (decide (type b ∈ type <$> d)); [by left|right].
  apply list_elem_of_fmap. exists b. split; [done|].
  by apply list_elem_of_filter.
Qed.

Lemma pushExtracted_again d c :
  pushExtracted (enrichBindings d c) c = enrichBindings d c.
Proof.
  rewrite pushExtracted_filter.
  assert (filter (λ b, type b ∉ type <$> enrichBindings d c) c = []) as ->;
    [|by rewrite app_nil_r].
  apply filter_none. intros b Hb Hn. apply Hn.
  rewrite enrichBindings_types. by apply pushExtracted_covers.
Qed.
Lemma enrichBindings_again d c :
  enrichBindings (enrichBindings d c) c = enrichBindings d c.
Proof.
  unfold enrichBindings at 1. rewrite pushExtracted_again.
  unfold enrichBindings. rewrite <-list_fmap_compose.
  apply list_fmap_ext. intros i b _. simpl. apply setDefaultDirection_idemp.
Qed.

Lemma appended_filter d c :
  appended d c = filter (λ b, type b ∉ type <$> d) c.
Proof.
  unfold appended. rewrite pushExtracted_filter. by rewrite drop_app_length.
Qed.

Lemma NoDup_fmap_filter {A B} (f : A → B) (P : A → Prop)
    `{∀ x, Decision (P x)} (l : list A) :
  NoDup (f <$> l) → NoDup (f <$> filter P l).
Proof.
  induction l as [|x l IH]; [done|].
  rewrite fmap_cons, NoDup_cons. intros [Hx Hl].
  destruct (decide (P x)).
  - rewrite filter_cons_True by done. rewrite fmap_cons, NoDup_cons.
    split; [|by apply IH]. intros Hin. apply Hx.
    apply list_elem_of_fmap in Hin as (y & -> & Hy).
    apply list_elem_of_fmap. exists y. split; [done|].
    by apply list_elem_of_filter in Hy as [_ ?].
  - rewrite filter_cons_False by done. by apply IH.
Qed.

(** *** The heap and the values agree *)

Lemma filter_fmap {A B} (f : A → B) (P : B → Prop) `{∀ y, Decision (P y)}
    (l : list A) :
  filter P (f <$> l) = f <$> filter (λ x, P (f x)) l.
Proof.
  induction l as [|x l IH]; [done|]. rewrite fmap_cons.
  destruct (decide (P (f x))).
  - rewrite !filter_cons_True by done. by rewrite fmap_cons, IH.
  - by rewrite !filter_cons_False by done.
Qed.

Lemma list_fmap_fixed {A} (f : A → A) (l : list A) :
  (∀ x, x ∈ l → f x = x) → f <$> l = l.
Proof.
  induction l as [|x l IH]; intros Hfix; [done|].
  rewrite fmap_cons, Hfix by left. f_equal. apply IH. intros y Hy.
  apply Hfix. by right.
Qed.

Lemma binding_eta b : mkBinding (type b) (direction b) (extra b) = b.
Proof. by destruct b. Qed.

(** A candidate is its own default. *)
Lemma setDefaultDirection_candidate c b :
  b ∈ c → setDefaultDirection c b = b.
Proof.
  intros Hb. unfold setDefaultDirection.
  destruct (negb (truthy (direction b))); [|done].
  destruct (filter (λ b', type b' = type b) c) as [|b0 [|? ?]] eqn:Hf; try done.
  assert (b ∈ [b0]) as ->%list_elem_of_singleton
    by (rewrite <-Hf; by apply list_elem_of_filter).
  apply binding_eta.
Qed.

Lemma pushExtractedRefs_loop (store : gmap nat Binding) (existing : list string)
    (acc code : list nat) :
  foldl (λ acc r, if negb (includes existing (type (store !!! r)))
                  then acc ++ [r] else acc) acc code
  = acc ++ filter (λ r, type (store !!! r) ∉ existing) code.
Proof.
  revert acc. induction code as [|r code IH]; intros acc; simpl.
  - by rewrite filter_nil, app_nil_r.
  - rewrite IH. destruct (includes existing (type (store !!! r))) eqn:Hin; simpl.
    + apply includes_true in Hin. rewrite filter_cons_False by tauto. done.
    + apply includes_false in Hin. rewrite filter_cons_True by done.
      by rewrite <-app_assoc.
Qed.

Lemma deref_pushExtractedRefs (store : gmap nat Binding) (json code : list nat) :
  pushExtractedRefs store json code
  = json ++ filter (λ r, type (store !!! r) ∉ type <$> deref store json) code.
Proof.
  unfold pushExtractedRefs, deref. rewrite pushExtractedRefs_loop.
  by rewrite <-list_fmap_compose.
Qed.

Lemma setDefaultDirectionAt_here (store : gmap nat Binding) (code : list nat) r :
  setDefaultDirectionAt code store r !!! r
  = setDefaultDirection (deref store code) (store !!! r).
Proof.
  unfold setDefaultDirectionAt, setDefaultDirection, deref.
  destruct (negb (truthy (direction (store !!! r)))); [|done].
  rewrite filter_fmap.
  destruct (filter _ code) as [|c0 [|? ?]]; simpl; try done.
  by rewrite lookup_total_insert_eq.
Qed.

Lemma setDefaultDirectionAt_elsewhere (store : gmap nat Binding) (code : list nat)
    r r' :
  r' ≠ r → setDefaultDirectionAt code store r !!! r' = store !!! r'.
Proof.
  intros Hne. unfold setDefaultDirectionAt.
  destruct (negb (truthy (direction (store !!! r)))); [|done].
  destruct (filter _ code) as [|c0 [|? ?]]; try done.
  by rewrite lookup_total_insert_ne.
Qed.

Lemma setDefaultDirectionAt_is_Some (store : gmap nat Binding) (code : list nat)
    r k :
  is_Some (store !! k) → is_Some (setDefaultDirectionAt code store r !! k).
Proof.
  intros Hk. unfold setDefaultDirectionAt.
  destruct (negb (truthy (direction (store !!! r)))); [|done].
  destruct (filter _ code) as [|c0 [|? ?]]; try done.
  rewrite lookup_insert_is_Some'. by right.
Qed.

(** Writing the default into a candidate writes what it holds already. *)
Lemma setDefaultDirectionAt_candidate (store : gmap nat Binding) (code : list nat) r :
  r ∈ code → is_Some (store !! r) → setDefaultDirectionAt code store r = store.
Proof.
  intros Hr [b Hb]. unfold setDefaultDirectionAt.
  destruct (negb (truthy (direction (store !!! r)))); [|done].
  destruct (filter (λ r', type (store !!! r') = type (store !!! r)) code)
    as [|c0 [|? ?]] eqn:Hf; try done.
  assert (r ∈ [c0]) as ->%list_elem_of_singleton
    by (rewrite <-Hf; by apply list_elem_of_filter).
  rewrite binding_eta. apply insert_id.
  by rewrite (lookup_total_correct _ _ _ Hb).
Qed.

Lemma deref_ext (store store' : gmap nat Binding) (refs : list nat) :
  (∀ r, r ∈ refs → store' !!! r = store !!! r) →
  deref store' refs = deref store refs.
Proof.
  intros Hext. unfold deref. apply list_fmap_ext. intros i r Hr.
  apply Hext. by eapply list_elem_of_lookup_2.
Qed.

(** The second loop over references that are not candidates. *)
Lemma directions_of_descriptor (code : list nat) (l : list nat)
    (store : gmap nat Binding) :
  NoDup l → (∀ r, r ∈ l → r ∉ code) →
  let store' := foldl (setDefaultDirectionAt code) store l in
  (∀ r, r ∉ l → store' !!! r = store !!! r) ∧
  (∀ r, r ∈ l →
        store' !!! r = setDefaultDirection (deref store code) (store !!! r)) ∧
  (∀ k, is_Some (store !! k) → is_Some (store' !! k)).
Proof.
  revert store. induction l as [|a l IH]; intros store Hnd Hdisj; simpl.
  - split; [done|]. split; [|done]. by intros r ?%elem_of_nil.
  - apply NoDup_cons in Hnd as [Ha Hnd].
    destruct (IH (setDefaultDirectionAt code store a) Hnd) as (Hout & Hin & Hdom).
    { intros r Hr. apply Hdisj. by right. }
    assert (deref (setDefaultDirectionAt code store a) code = deref store code)
      as Hcode.
    { apply deref_ext. intros c Hc. apply setDefaultDirectionAt_elsewhere.
      intros ->. by apply (Hdisj a); [left|]. }
    split; [|split].
    + intros r Hr. apply not_elem_of_cons in Hr as [Hne Hr].
      rewrite (Hout r Hr). by apply setDefaultDirectionAt_elsewhere.
    + intros r [->|Hr]%elem_of_cons.
      * rewrite (Hout a Ha). apply setDefaultDirectionAt_here.
      * rewrite (Hin r Hr), Hcode. f_equal.
        apply setDefaultDirectionAt_elsewhere. by intros ->.
    + intros k Hk. by apply Hdom, setDefaultDirectionAt_is_Some.
Qed.

(** The second loop over candidates changes nothing. *)
Lemma directions_of_candidates (code : list nat) (l : list nat)
    (store : gmap nat Binding) :
  (∀ r, r ∈ l → r ∈ code ∧ is_Some (store !! r)) →
  foldl (setDefaultDirectionAt code) store l = store.
Proof.
  induction l as [|a l IH]; intros Hl; simpl; [done|].
  rewrite setDefaultDirectionAt_candidate.
  - apply IH. intros r Hr. apply Hl. by right.
  - apply Hl. by left.
  - apply Hl. by left.
Qed.

(** When the array read from function.json and the array extracted from
    the code share no object, the array the two loops leave behind holds
    [enrichBindings] of what the two held, and the extracted objects are as
    they were. *)
Lemma enrichOnHeap_enrichBindings (store : gmap nat Binding) (json code : list nat) :
  NoDup json → (∀ r, r ∈ json → r ∉ code) →
  (∀ r, r ∈ json ++ code → is_Some (store !! r)) →
  deref (enrichOnHeap store json code).1 (enrichOnHeap store json code).2
  = enrichBindings (deref store json) (deref store code) ∧
  deref (enrichOnHeap store json code).1 code = deref store code.
Proof.
  intros Hnd Hdisj Hvalid. unfold enrichOnHeap. simpl.
  rewrite deref_pushExtractedRefs, foldl_app.
  destruct (directions_of_descriptor code json store Hnd Hdisj)
    as (Hout & Hin & Hdom).
  set (store1 := foldl (setDefaultDirectionAt code) store json) in *.
  rewrite directions_of_candidates.
  2:{ intros r [_ Hr]%list_elem_of_filter. split; [done|].
      apply Hdom, Hvalid, elem_of_app. by right. }
  assert (deref store1 code = deref store code) as Hcode.
  { apply deref_ext. intros c Hc. apply Hout. intros Hj. by apply (Hdisj c). }
  split; [|done].
  unfold enrichBindings. rewrite pushExtracted_filter, fmap_app.
  unfold deref at 1. rewrite fmap_app. f_equal.
  - unfold deref. rewrite <-list_fmap_compose. apply list_fmap_ext.
    intros i r Hr. simpl. apply Hin. by eapply list_elem_of_lookup_2.
  - fold (deref store1 (filter (λ r, type (store !!! r) ∉ type <$> deref store json)
                               code)).
    rewrite (deref_ext store store1).
    2:{ intros r [_ Hr]%list_elem_of_filter. apply Hout.
        intros Hj. by apply (Hdisj r). }
    assert (filter (λ b, type b ∉ type <$> deref store json) (deref store code)
            = deref store
                (filter (λ r, type (store !!! r) ∉ type <$> deref store json) code))
      as -> by exact (filter_fmap (λ r : nat, store !!! r)
                        (λ b, type b ∉ type <$> deref store json) code).
    symmetry. apply list_fmap_fixed. intros b Hb.
    apply setDefaultDirection_candidate. unfold deref in *.
    apply list_elem_of_fmap in Hb as (r & -> & [_ Hr]%list_elem_of_filter).
    by apply (list_elem_of_fmap_2 (λ r' : nat, store !!! r')).
Qed.

Example enrichOnHeap_sample :
  (enrichOnHeap sampleStore [0; 1] [2; 3; 4]).2 = [0; 1; 3; 4] ∧
  deref (enrichOnHeap sampleStore [0; 1] [2; 3; 4]).1 [0; 1; 3; 4]
  = [httpTrigger; mkBinding "queue" (Some "out") "items"; blobIn; blobOut] ∧
  enrichBindings [httpTrigger; queueNoDirection] [queueOut; blobIn; blobOut]
  = [httpTrigger; mkBinding "queue" (Some "out") "items"; blobIn; blobOut].
Proof. split; [|split]; by vm_compute. Qed.

(** C2, as the code has it.  A candidate is pushed only if no binding of
    the list read from function.json has its type; the list keeps every
    binding it had; and when neither that list nor the candidate list
    repeats a type, the enriched list has at most one binding of a type. *)
Theorem enrichment_skips_descriptor_types d c :
  take (length d) (pushExtracted d c) = d ∧
  (∀ b, b ∈ appended d c → b ∈ c ∧ type b ∉ type <$> d) ∧
  (NoDup (type <$> d) → NoDup (type <$> c) →
   NoDup (type <$> enrichBindings d c)).
Proof.
  split; [|split].
  - rewrite pushExtracted_filter. by rewrite take_app_length.
  - intros b. rewrite appended_filter, list_elem_of_filter. tauto.
  - intros Hd Hc. rewrite enrichBindings_types, pushExtracted_filter, fmap_app.
    apply NoDup_app. split; [done|]. split.
    + intros t Ht Ht'. apply list_elem_of_fmap in Ht' as (b & -> & Hb).
      by apply list_elem_of_filter in Hb as [Hb _].
    + by apply NoDup_fmap_filter.
Qed.

Lemma enrichment_skips_descriptor_types_witness :
  take 1 (pushExtracted [httpTrigger] [blobIn; queueOut; httpTrigger])
    = [httpTrigger] ∧
  NoDup (type <$> enrichBindings [httpTrigger] [blobIn; queueOut; httpTrigger]).
Proof.
  pose proof (enrichment_skips_descriptor_types
                [httpTrigger] [blobIn; queueOut; httpTrigger]) as (H1 & _ & H3).
  split; [exact H1|]. apply H3.
  - apply NoDup_ListNoDup. repeat constructor; simpl; intuition discriminate.
  - apply NoDup_ListNoDup. repeat constructor; simpl; intuition discriminate.
Defined.

(** C2, as the claim words it, fails: two candidates of a type that the
    descriptor lacks are both pushed, and a type the descriptor repeats
    stays repeated. *)
Lemma enrichment_duplicates_counterexample :
  type <$> enrichBindings [httpTrigger] [blobIn; blobOut]
    = ["httpTrigger"; "blob"; "blob"] ∧
  type <$> enrichBindings [blobIn; blobOut] [] = ["blob"; "blob"] ∧
  ¬ (∀ d c, NoDup (type <$> enrichBindings d c)).
Proof.
  split; [reflexivity|]. split; [reflexivity|].
  intros Hall. specialize (Hall [httpTrigger] [blobIn; blobOut]).
  apply NoDup_ListNoDup in Hall. vm_compute in Hall.
  inversion Hall as [|? ? _ Hrest]. inversion Hrest as [|? ? Hnotin _].
  apply Hnotin. by left.
Qed.

(** C7.  Running the enrichment again on its own result, with the same
    bindings extracted from the code, pushes nothing and leaves the list as
    the first run made it. *)
Theorem enrichment_idempotent d c :
  pushExtracted (enrichBindings d c) c = enrichBindings d c ∧
  enrichBindings (enrichBindings d c) c = enrichBindings d c.
Proof. split; [apply pushExtracted_again | apply enrichBindings_again]. Qed.

(** C8.  For a binding of the merged list that lacks a direction: when
    exactly one binding of its type was extracted from the code, the
    enriched list has, in its place, the same binding with that one's
    direction; when none or several were, it is left as it was. *)
Theorem direction_inference d c i b
    (Hi : pushExtracted d c !! i = Some b)
    (Hb : truthy (direction b) = false) :
  (∀ b0, filter (λ b', type b' = type b) c = [b0] →
         enrichBindings d c !! i
         = Some (mkBinding (type b) (direction b0) (extra b))) ∧
  (length (filter (λ b', type b' = type b) c) ≠ 1 →
   enrichBindings d c !! i = Some b).
Proof.
  unfold enrichBindings. rewrite list_lookup_fmap, Hi. simpl.
  unfold setDefaultDirection. rewrite Hb. simpl. split.
  - intros b0 ->. done.
  - intros Hlen. by destruct (filter _ c) as [|? [|? ?]].
Qed.

Lemma direction_inference_witness :
  enrichBindings [httpTrigger; queueNoDirection] [queueOut; blobIn; blobOut] !! 1
    = Some (mkBinding "queue" (Some "out") "items").
Proof.
  assert (pushExtracted [httpTrigger; queueNoDirection] [queueOut; blobIn; blobOut] !! 1
          = Some queueNoDirection) as Hi by reflexivity.
  assert (truthy (direction queueNoDirection) = false) as Hb by reflexivity.
  destruct (direction_inference _ _ _ _ Hi Hb) as [H1 _].
  apply (H1 queueOut). reflexivity.
Defined.
End Enrichment.

(** ** Classification *)

Section Classification.
Implicit Types (functions : FunctionsMap) (n : string).

Lemma includes_triggerTypes (t : string) :
  includes triggerTypes t
  = bool_decide (t = "orchestrationTrigger")
    || bool_decide (t = "activityTrigger")
    || bool_decide (t = "entityTrigger").
Proof.
  unfold includes, triggerTypes. apply Bool.eq_iff_eq_true.
  rewrite !orb_true_iff, !bool_decide_eq_true, !elem_of_cons, elem_of_nil.
  tauto.
Qed.

Lemma hasAnyTrigger_orb (m : gmap string FunctionInfo) n :
  hasAnyTrigger m n
  = hasBinding m "orchestrationTrigger" n
    || hasBinding m "activityTrigger" n
    || hasBinding m "entityTrigger" n.
Proof.
  unfold hasAnyTrigger, hasBinding, some.
  induction (bindingsOf m n) as [|b l IH]; [done|].
  simpl. rewrite IH, includes_triggerTypes.
  repeat destruct (bool_decide _); repeat destruct (existsb _ _); done.
Qed.

Lemma elem_of_filter_bool (p : string → bool) (l : list string) n :
  n ∈ filter (λ x, p x) l ↔ p n = true ∧ n ∈ l.
Proof.
  rewrite list_elem_of_filter. by rewrite Is_true_true.
Qed.

Lemma length_filter_cons_elem (n : string) (l : list string)
    (ls : list (list string)) :
  length (filter (λ l', n ∈ l') (l :: ls))
  = Nat.b2n (bool_decide (n ∈ l)) + length (filter (λ l', n ∈ l') ls).
Proof.
  rewrite filter_cons. case_bool_decide; by destruct (decide (n ∈ l)).
Qed.

(** C1, as the code has it.  The four lists come from four independent
    filters over the keys: a function is in the orchestrator, activity
    or entity list exactly when it has a binding of that trigger type, and
    in the list of the others exactly when it has none of the three.  So
    every function is in at least one list, a function with none or one of
    the trigger types is in exactly one, and a function with several is in
    the list of each. *)
Theorem classification_by_trigger functions n
    (Hn : n ∈ fo_keys functions) :
  let o := hasBinding (fo_map functions) "orchestrationTrigger" n in
  let a := hasBinding (fo_map functions) "activityTrigger" n in
  let e := hasBinding (fo_map functions) "entityTrigger" n in
  (n ∈ orchestratorNamesOf functions ↔ o = true) ∧
  (n ∈ activityNamesOf functions ↔ a = true) ∧
  (n ∈ entityNamesOf functions ↔ e = true) ∧
  (n ∈ otherFunctionNamesOf functions ↔ o = false ∧ a = false ∧ e = false) ∧
  listsContaining functions n
    = (if o || a || e then Nat.b2n o + Nat.b2n a + Nat.b2n e else 1) ∧
  1 ≤ listsContaining functions n ∧
  (Nat.b2n o + Nat.b2n a + Nat.b2n e ≤ 1 → listsContaining functions n = 1).
Proof.
  intros o a e.
  assert (n ∈ orchestratorNamesOf functions ↔ o = true) as Ho.
  { unfold orchestratorNamesOf. rewrite elem_of_filter_bool. tauto. }
  assert (n ∈ activityNamesOf functions ↔ a = true) as Ha.
  { unfold activityNamesOf. rewrite elem_of_filter_bool. tauto. }
  assert (n ∈ entityNamesOf functions ↔ e = true) as He.
  { unfold entityNamesOf. rewrite elem_of_filter_bool. tauto. }
  assert (n ∈ otherFunctionNamesOf functions
          ↔ o = false ∧ a = false ∧ e = false) as Hx.
  { unfold otherFunctionNamesOf. rewrite elem_of_filter_bool.
    rewrite hasAnyTrigger_orb. fold o a e.
    destruct o, a, e; simpl; intuition congruence. }
  assert (listsContaining functions n
          = (if o || a || e then Nat.b2n o + Nat.b2n a + Nat.b2n e else 1))
    as Hcount.
  { unfold listsContaining, nameLists.
    rewrite !length_filter_cons_elem, filter_nil. simpl.
    rewrite (bool_decide_ext _ _ Ho), (bool_decide_ext _ _ Ha),
      (bool_decide_ext _ _ He), (bool_decide_ext _ _ Hx).
    destruct o, a, e; simpl; repeat case_bool_decide; simpl;
      try done; intuition congruence. }
  refine (conj Ho (conj Ha (conj He (conj Hx (conj Hcount (conj _ _))))));
    rewrite Hcount; destruct o, a, e; simpl; lia.
Qed.

Lemma classification_by_trigger_witness :
  listsContaining twoTriggers "Http" = 1 ∧
  "Http" ∈ otherFunctionNamesOf twoTriggers.
Proof.
  assert ("Http" ∈ fo_keys twoTriggers) as Hn by by_computing.
  destruct (classification_by_trigger twoTriggers "Http" Hn)
    as (_ & _ & _ & Hx & _ & _ & H1).
  split.
  - apply H1. vm_compute. lia.
  - apply Hx. vm_compute. done.
Defined.

(** C1, as the claim words it, fails: a function that declares both an
    orchestration trigger and an activity trigger is in two of the lists. *)
Lemma classification_counterexample :
  wfFunctionsMap twoTriggers ∧
  "Both" ∈ fo_keys twoTriggers ∧
  "Both" ∈ orchestratorNamesOf twoTriggers ∧
  "Both" ∈ activityNamesOf twoTriggers ∧
  listsContaining twoTriggers "Both" = 2.
Proof.
  split; [|split; [|split; [|split]]].
  - unfold twoTriggers. do 2 apply wf_setFunction. apply wf_emptyFunctions.
  - by_computing.
  - by_computing.
  - by_computing.
  - reflexivity.
Qed.
End Classification.

(** ** The graph passes *)

Section Passes.
Implicit Types (m : gmap string FunctionInfo) (k : string).

Lemma preserves_refl {X} (proj : FunctionInfo → X) m : preserves proj m m.
Proof. by intros k. Qed.

Lemma preserves_trans {X} (proj : FunctionInfo → X) m1 m2 m3 :
  preserves proj m1 m2 → preserves proj m2 m3 → preserves proj m1 m3.
Proof. intros H12 H23 k. by rewrite H23, H12. Qed.

Lemma preserves_alter {X} (proj : FunctionInfo → X) (g : FunctionInfo → FunctionInfo)
    k m :
  (∀ f, proj (g f) = proj f) → preserves proj m (alter g k m).
Proof.
  intros Hg j. rewrite lookup_alter. case_decide; [subst|done].
  destruct (m !! j); simpl; [|done]. by rewrite Hg.
Qed.

Lemma preserves_foldl {A X} (proj : FunctionInfo → X)
    (step : gmap string FunctionInfo → A → gmap string FunctionInfo) (l : list A) :
  (∀ m a, preserves proj m (step m a)) →
  ∀ m, preserves proj m (foldl step m l).
Proof.
  intros Hstep. induction l as [|a l IH]; intros m; simpl.
  - apply preserves_refl.
  - eapply preserves_trans; [apply Hstep | apply IH].
Qed.

Lemma extends_refl m : extends m m.
Proof. intros k f Hk. by exists f. Qed.

Lemma extends_trans m1 m2 m3 : extends m1 m2 → extends m2 m3 → extends m1 m3.
Proof.
  intros H12 H23 k f Hk.
  destruct (H12 k f Hk) as (f2 & Hk2 & Hp2).
  destruct (H23 k f2 Hk2) as (f3 & Hk3 & Hp3).
  exists f3. split; [done|]. by etrans.
Qed.

Lemma extends_alter (g : FunctionInfo → FunctionInfo) k m :
  (∀ f, isCalledBy f `prefix_of` isCalledBy (g f)) → extends m (alter g k m).
Proof.
  intros Hg j f Hj. rewrite lookup_alter. case_decide; subst.
  - rewrite Hj. simpl. eauto.
  - by exists f.
Qed.

Lemma extends_foldl {A}
    (step : gmap string FunctionInfo → A → gmap string FunctionInfo) (l : list A) :
  (∀ m a, extends m (step m a)) → ∀ m, extends m (foldl step m l).
Proof.
  intros Hstep. induction l as [|a l IH]; intros m; simpl.
  - apply extends_refl.
  - eapply extends_trans; [apply Hstep | apply IH].
Qed.



End Passes.

(** Proves that a pass built from [foldl], [if] and [alter] leaves a
    property alone, or only appends callers. *)
Ltac pass :=
  repeat first
    [ apply preserves_refl
    | apply extends_refl
    | apply preserves_foldl; intros
    | apply extends_foldl; intros
    | apply preserves_alter; by intros []
    | apply extends_alter; intros []; simpl;
      first [reflexivity | by apply prefix_app_r]
    | case_match ].

Section GraphPasses.
Context (rx : TraversalRegexes) (env : Env).
Implicit Types (m : gmap string FunctionInfo) (k : string).
Implicit Types (orch func : FunctionCode).

Lemma mapCallers_extends others orch m : extends m (mapCallers rx others orch m).
Proof. unfold mapCallers. pass. Qed.

Lemma mapCallers_itself others orch m :
  preserves isCalledByItself m (mapCallers rx others orch m).
Proof. unfold mapCallers. pass. Qed.

Lemma mapCallers_signals others orch m :
  preserves isSignalledBy m (mapCallers rx others orch m).
Proof. unfold mapCallers. pass. Qed.

Lemma mapSubOrchestrators_extends os orch m :
  extends m (mapSubOrchestrators rx os orch m).
Proof. unfold mapSubOrchestrators. pass. Qed.

Lemma mapSubOrchestrators_itself os orch m :
  preserves isCalledByItself m (mapSubOrchestrators rx os orch m).
Proof. unfold mapSubOrchestrators. pass. Qed.

Lemma mapSubOrchestrators_signals os orch m :
  preserves isSignalledBy m (mapSubOrchestrators rx os orch m).
Proof. unfold mapSubOrchestrators. pass. Qed.

Lemma mapActivities_extends orch names m :
  extends m (mapActivitiesToOrchestrator rx m orch names).
Proof. unfold mapActivitiesToOrchestrator. pass. Qed.

Lemma mapActivities_itself orch names m :
  preserves isCalledByItself m (mapActivitiesToOrchestrator rx m orch names).
Proof. unfold mapActivitiesToOrchestrator. pass. Qed.

Lemma mapActivities_signals orch names m :
  preserves isSignalledBy m (mapActivitiesToOrchestrator rx m orch names).
Proof. unfold mapActivitiesToOrchestrator. pass. Qed.

Lemma mapContinueAsNew_extends orch m : extends m (mapContinueAsNew rx orch m).
Proof. unfold mapContinueAsNew. pass. Qed.

Lemma mapContinueAsNew_signals orch m :
  preserves isSignalledBy m (mapContinueAsNew rx orch m).
Proof. unfold mapContinueAsNew. pass. Qed.

Lemma mapEventProducers_extends others orch m e :
  extends m (mapEventProducers rx others orch m e).
Proof. unfold mapEventProducers. pass. Qed.

Lemma mapEventProducers_itself others orch m e :
  preserves isCalledByItself m (mapEventProducers rx others orch m e).
Proof. unfold mapEventProducers. pass. Qed.

Lemma mapEntity_extends others m entity : extends m (mapEntity rx others m entity).
Proof. unfold mapEntity. pass. Qed.

Lemma mapEntity_itself others m entity :
  preserves isCalledByItself m (mapEntity rx others m entity).
Proof. unfold mapEntity. pass. Qed.

Lemma mapEntity_signals others m entity :
  preserves isSignalledBy m (mapEntity rx others m entity).
Proof. unfold mapEntity. pass. Qed.

Lemma enrichFunction_extends m func : extends m (enrichFunction env m func).
Proof. unfold enrichFunction. pass. Qed.

Lemma enrichFunction_itself m func :
  preserves isCalledByItself m (enrichFunction env m func).
Proof. unfold enrichFunction. pass. Qed.

Lemma enrichFunction_signals m func :
  preserves isSignalledBy m (enrichFunction env m func).
Proof. unfold enrichFunction. pass. Qed.

Lemma addLocation_extends m func : extends m (addLocation m func).
Proof. unfold addLocation. pass. Qed.

Lemma addLocation_itself m func :
  preserves isCalledByItself m (addLocation m func).
Proof. unfold addLocation. pass. Qed.

Lemma addLocation_signals m func :
  preserves isSignalledBy m (addLocation m func).
Proof. unfold addLocation. pass. Qed.

(** *** Termination *)

Lemma getEventNames_loop_total code fuel lastIndex result :
  advances (waitForExternalEventRegex rx) →
  lastIndex ≤ String.length code →
  String.length code - lastIndex < fuel →
  is_Some (getEventNames_loop rx fuel code lastIndex result).
Proof.
  intros Hadv. revert lastIndex result.
  induction fuel as [|fuel IH]; intros lastIndex result Hle Hfuel; [lia|].
  simpl. destruct (waitForExternalEventRegex rx code lastIndex)
    as [[lastIndex' group]|] eqn:Hexec; [|by eexists].
  destruct (Hadv _ _ _ _ Hexec) as [Hlt Hle']. apply IH; lia.
Qed.

Lemma getEventNames_total code :
  advances (waitForExternalEventRegex rx) → is_Some (getEventNames rx code).
Proof. intros Hadv. apply getEventNames_loop_total; [done|lia..]. Qed.

Lemma mapOrchestrator_total os others names orch m :
  advances (waitForExternalEventRegex rx) →
  is_Some (mapOrchestrator rx os others names orch m).
Proof.
  intros Hadv. unfold mapOrchestrator.
  destruct (getEventNames_total (fc_code orch) Hadv) as [events ->].
  simpl. by eexists.
Qed.

Lemma forEachO_total {A S} (body : A → S → option S) (l : list A) (s : S) :
  (∀ a s, is_Some (body a s)) → is_Some (forEachO body l s).
Proof.
  intros Hbody. revert s. induction l as [|a l IH]; intros s; simpl.
  - by eexists.
  - destruct (Hbody a s) as [s' ->]. simpl. apply IH.
Qed.

Lemma mapGraph_total kind os names acts ents others m :
  advances (waitForExternalEventRegex rx) →
  is_Some (mapGraph rx env kind os names acts ents others m).
Proof.
  intros Hadv. unfold mapGraph.
  destruct (forEachO_total (mapOrchestrator rx os others names) os m) as [m' ->].
  { intros. by apply mapOrchestrator_total. }
  simpl. by eexists.
Qed.

Lemma fmap_const_transfer {X Y} (p : FunctionInfo → X) (q : FunctionInfo → X)
    (y : Y) (a b : option FunctionInfo) :
  p <$> a = q <$> b → (λ _, y) <$> a = (λ _, y) <$> b.
Proof. by destruct a, b. Qed.

(** *** isCalledByItself *)

Lemma mapContinueAsNew_itself orch m k :
  isCalledByItself <$> mapContinueAsNew rx orch m !! k
  = (if bool_decide (fc_name orch = k) && continueAsNewRegex rx (fc_code orch)
     then λ _, Some true else isCalledByItself) <$> m !! k.
Proof.
  unfold mapContinueAsNew.
  destruct (continueAsNewRegex rx (fc_code orch)); rewrite ?andb_false_r; [|done].
  rewrite andb_true_r, lookup_alter.
  case_bool_decide; case_decide; try done. subst.
  by destruct (m !! fc_name orch).
Qed.

Lemma mapOrchestrator_itself os others names orch m m' k :
  mapOrchestrator rx os others names orch m = Some m' →
  isCalledByItself <$> m' !! k
  = (if bool_decide (fc_name orch = k) && continueAsNewRegex rx (fc_code orch)
     then λ _, Some true else isCalledByItself) <$> m !! k.
Proof.
  unfold mapOrchestrator. intros Hrun.
  destruct (getEventNames rx (fc_code orch)) as [events|]; simplify_eq/=.
  rewrite (preserves_foldl isCalledByItself _ events
             (λ m e, mapEventProducers_itself others orch m e)).
  rewrite mapContinueAsNew_itself.
  pose proof (mapActivities_itself orch names
                (mapSubOrchestrators rx os orch (mapCallers rx others orch m)) k) as H3.
  pose proof (mapSubOrchestrators_itself os orch (mapCallers rx others orch m) k) as H2.
  pose proof (mapCallers_itself others orch m k) as H1.
  destruct (bool_decide (fc_name orch = k) && continueAsNewRegex rx (fc_code orch)).
  - etrans; [exact (fmap_const_transfer _ _ _ _ _ H3)|].
    etrans; [exact (fmap_const_transfer _ _ _ _ _ H2)|].
    exact (fmap_const_transfer _ _ _ _ _ H1).
  - by rewrite H3, H2, H1.
Qed.

Lemma forEachO_itself os others names (l : list FunctionCode) m m' k :
  forEachO (mapOrchestrator rx os others names) l m = Some m' →
  isCalledByItself <$> m' !! k
  = (if continuesAsNew rx k l then λ _, Some true else isCalledByItself) <$> m !! k.
Proof.
  revert m m'. induction l as [|orch l' IH]; intros m m2 Hrun; simpl in Hrun.
  - by simplify_eq.
  - destruct (mapOrchestrator rx os others names orch m) as [m1|] eqn:Hstep;
      simplify_eq/=.
    specialize (IH _ _ Hrun).
    pose proof (mapOrchestrator_itself _ _ _ _ _ _ k Hstep) as H1.
    unfold continuesAsNew in *. simpl.
    destruct (bool_decide (fc_name orch = k) && continueAsNewRegex rx (fc_code orch));
      simpl.
    + destruct (some _ l').
      * rewrite IH. exact (fmap_const_transfer _ _ _ _ _ H1).
      * by rewrite IH, H1.
    + destruct (some _ l').
      * rewrite IH. exact (fmap_const_transfer _ _ _ _ _ H1).
      * by rewrite IH, H1.
Qed.

Lemma mapGraph_itself kind os names acts ents others m m' k :
  mapGraph rx env kind os names acts ents others m = Some m' →
  isCalledByItself <$> m' !! k
  = (if continuesAsNew rx k os then λ _, Some true else isCalledByItself) <$> m !! k.
Proof.
  unfold mapGraph. intros Hrun.
  destruct (forEachO _ os m) as [m1|] eqn:Hloop; simplify_eq/=.
  rewrite (preserves_foldl isCalledByItself _ _ addLocation_itself).
  rewrite <-(forEachO_itself _ _ _ _ _ _ k Hloop).
  case_bool_decide.
  - rewrite (preserves_foldl isCalledByItself _ _ enrichFunction_itself).
    by rewrite (preserves_foldl isCalledByItself _ _ (mapEntity_itself others)).
  - by rewrite (preserves_foldl isCalledByItself _ _ (mapEntity_itself others)).
Qed.

(** *** isSignalledBy *)

Lemma mapEventProducers_signals others orch m e k :
  isSignalledBy <$> mapEventProducers rx others orch m e !! k
  = (λ f, isSignalledBy f ++
          if bool_decide (fc_name orch = k) then signalsFor rx others [e] else [])
      <$> m !! k.
Proof.
  unfold signalsFor, mapEventProducers. simpl. rewrite app_nil_r.
  revert m. induction others as [|func others IH]; intros m; simpl.
  - destruct (m !! k); simpl; [|done].
    case_bool_decide; by rewrite ?filter_nil, app_nil_r.
  - rewrite IH. clear IH.
    destruct (getRaiseEventRegex rx e (fc_code func)) eqn:Hraise.
    + rewrite filter_cons_True by by rewrite Hraise.
      rewrite lookup_alter. case_decide as Hk; subst.
      * rewrite bool_decide_true by done.
        destruct (m !! fc_name orch) as [[]|]; simpl; [|done].
        by rewrite <-app_assoc.
      * by rewrite bool_decide_false by done.
    + rewrite filter_cons_False by (rewrite Hraise; intros []). done.
Qed.

Lemma signalsFor_cons others e events :
  signalsFor rx others (e :: events)
  = signalsFor rx others [e] ++ signalsFor rx others events.
Proof. unfold signalsFor. simpl. by rewrite app_nil_r. Qed.

Lemma mapEvents_signals others orch events m k :
  isSignalledBy <$> foldl (mapEventProducers rx others orch) m events !! k
  = (λ f, isSignalledBy f ++
          if bool_decide (fc_name orch = k) then signalsFor rx others events else [])
      <$> m !! k.
Proof.
  revert m. induction events as [|e events IH]; intros m; simpl.
  - destruct (m !! k); simpl; [|done]. case_bool_decide; by rewrite app_nil_r.
  - rewrite IH. clear IH.
    pose proof (mapEventProducers_signals others orch m e k) as H1.
    destruct (mapEventProducers rx others orch m e !! k) as [f1|], (m !! k) as [f|];
      simplify_eq/=; [|done].
    rewrite H1. case_bool_decide; by rewrite ?app_nil_r, <-?app_assoc.
Qed.

Lemma mapOrchestrator_signals os others names orch m m' k :
  mapOrchestrator rx os others names orch m = Some m' →
  isSignalledBy <$> m' !! k
  = (λ f, isSignalledBy f ++ signalsOf rx others k [orch]) <$> m !! k.
Proof.
  unfold mapOrchestrator, signalsOf. intros Hrun. simpl. 
  destruct (getEventNames rx (fc_code orch)) as [events|]; simplify_eq/=.
  rewrite mapEvents_signals, app_nil_r.
  pose proof (mapContinueAsNew_signals orch
    (mapActivitiesToOrchestrator rx
       (mapSubOrchestrators rx os orch (mapCallers rx others orch m)) orch names) k)
    as H4.
  pose proof (mapActivities_signals orch names
                (mapSubOrchestrators rx os orch (mapCallers rx others orch m)) k) as H3.
  pose proof (mapSubOrchestrators_signals os orch (mapCallers rx others orch m) k) as H2.
  pose proof (mapCallers_signals others orch m k) as H1.
  rewrite H3, H2, H1 in H4. clear H1 H2 H3.
  destruct (mapContinueAsNew _ _ _ !! k) as [f1|], (m !! k) as [f|];
    simplify_eq/=; [|done].
  by rewrite H4.
Qed.

Lemma forEachO_signals os others names (l : list FunctionCode) m m' k :
  forEachO (mapOrchestrator rx os others names) l m = Some m' →
  isSignalledBy <$> m' !! k
  = (λ f, isSignalledBy f ++ signalsOf rx others k l) <$> m !! k.
Proof.
  revert m m'. induction l as [|orch l' IH]; intros m m2 Hrun; simpl in Hrun.
  - simplify_eq. unfold signalsOf. simpl.
    destruct (m2 !! k); simpl; [|done]. by rewrite app_nil_r.
  - destruct (mapOrchestrator rx os others names orch m) as [m1|] eqn:Hstep;
      simplify_eq/=.
    rewrite (IH _ _ Hrun).
    pose proof (mapOrchestrator_signals _ _ _ _ _ _ k Hstep) as H1.
    destruct (m1 !! k) as [f1|], (m !! k) as [f|]; simplify_eq/=; [|done].
    rewrite H1. unfold signalsOf. simpl. by rewrite app_nil_r, <-app_assoc.
Qed.

Lemma mapGraph_signals kind os names acts ents others m m' k :
  mapGraph rx env kind os names acts ents others m = Some m' →
  isSignalledBy <$> m' !! k
  = (λ f, isSignalledBy f ++ signalsOf rx others k os) <$> m !! k.
Proof.
  unfold mapGraph. intros Hrun.
  destruct (forEachO _ os m) as [m1|] eqn:Hloop; simplify_eq/=.
  rewrite (preserves_foldl isSignalledBy _ _ addLocation_signals).
  rewrite <-(forEachO_signals _ _ _ _ _ _ k Hloop).
  case_bool_decide.
  - rewrite (preserves_foldl isSignalledBy _ _ enrichFunction_signals).
    by rewrite (preserves_foldl isSignalledBy _ _ (mapEntity_signals others)).
  - by rewrite (preserves_foldl isSignalledBy _ _ (mapEntity_signals others)).
Qed.

Lemma signalsOf_cons others k orch (l : list FunctionCode) :
  signalsOf rx others k (orch :: l)
  = (if bool_decide (fc_name orch = k)
     then signalsFor rx others (default [] (getEventNames rx (fc_code orch)))
     else []) ++ signalsOf rx others k l.
Proof. done. Qed.

Lemma signalsOf_absent others k (l : list FunctionCode) :
  k ∉ fc_name <$> l → signalsOf rx others k l = [].
Proof.
  induction l as [|o l IH]; intros Hk; [done|].
  rewrite fmap_cons, not_elem_of_cons in Hk. destruct Hk as [Hne Hk].
  rewrite signalsOf_cons, bool_decide_false by done. by apply IH.
Qed.

(** With one orchestrator per name, the signals under its name are its own. *)
Lemma signalsOf_unique others (l : list FunctionCode) orch :
  NoDup (fc_name <$> l) → orch ∈ l →
  signalsOf rx others (fc_name orch) l
  = signalsFor rx others (default [] (getEventNames rx (fc_code orch))).
Proof.
  induction l as [|o l IH]; intros Hnd Hin.
  - by apply elem_of_nil in Hin.
  - rewrite fmap_cons, NoDup_cons in Hnd. destruct Hnd as [Hnotin Hnd].
    rewrite signalsOf_cons. apply elem_of_cons in Hin as [->|Hin].
    + rewrite bool_decide_true by done.
      by rewrite signalsOf_absent, app_nil_r.
    + rewrite bool_decide_false; [by apply IH|].
      intros Heq. apply Hnotin. rewrite Heq. by apply list_elem_of_fmap_2.
Qed.

(** *** isCalledBy *)

Lemma extends_pushedTo x m1 m2 m3 k :
  extends m1 m2 → pushedTo x m2 m3 k → pushedTo x m1 m3 k.
Proof.
  intros H12 H23 f Hf.
  destruct (H12 k f Hf) as (f2 & Hf2 & [l2 Hl2]).
  destruct (H23 f2 Hf2) as (f3 & l3 & Hf3 & Hl3 & Hx).
  exists f3, (l2 ++ l3). split; [done|]. split.
  - by rewrite Hl3, Hl2, app_assoc.
  - apply elem_of_app. by right.
Qed.

Lemma pushedTo_extends x m1 m2 m3 k :
  pushedTo x m1 m2 k → extends m2 m3 → pushedTo x m1 m3 k.
Proof.
  intros H12 H23 f Hf.
  destruct (H12 f Hf) as (f2 & l2 & Hf2 & Hl2 & Hx).
  destruct (H23 k f2 Hf2) as (f3 & Hf3 & [l3 Hl3]).
  exists f3, (l2 ++ l3). split; [done|]. split.
  - by rewrite Hl3, Hl2, app_assoc.
  - apply elem_of_app. by left.
Qed.

Lemma pushedTo_alter x m k : pushedTo x m (alter (push_isCalledBy x) k m) k.
Proof.
  intros f Hf. exists (push_isCalledBy x f), [x].
  rewrite lookup_alter_eq, Hf. split; [done|]. split; [done|]. by left.
Qed.

Lemma mapActivities_pushes orch names m A :
  A ∈ names → getCallActivityRegex rx A (fc_code orch) = true →
  pushedTo (fc_name orch) m (mapActivitiesToOrchestrator rx m orch names) A.
Proof.
  intros Hin Hcall. revert m.
  induction names as [|a names IH]; intros m; [by apply elem_of_nil in Hin|].
  unfold mapActivitiesToOrchestrator. simpl.
  destruct (decide (a = A)) as [->|Hne].
  - rewrite Hcall. eapply pushedTo_extends; [apply pushedTo_alter|].
    apply mapActivities_extends.
  - apply elem_of_cons in Hin as [->|Hin]; [done|].
    eapply extends_pushedTo; [|by apply IH].
    pass.
Qed.

Lemma mapOrchestrator_extends os others names orch m m' :
  mapOrchestrator rx os others names orch m = Some m' → extends m m'.
Proof.
  unfold mapOrchestrator. intros Hrun.
  destruct (getEventNames rx (fc_code orch)) as [events|]; simplify_eq/=.
  eapply extends_trans; [apply mapCallers_extends|].
  eapply extends_trans; [apply mapSubOrchestrators_extends|].
  eapply extends_trans; [apply mapActivities_extends|].
  eapply extends_trans; [apply mapContinueAsNew_extends|].
  apply extends_foldl. intros. apply mapEventProducers_extends.
Qed.

Lemma mapOrchestrator_pushes os others names orch m m' A :
  mapOrchestrator rx os others names orch m = Some m' →
  A ∈ names → getCallActivityRegex rx A (fc_code orch) = true →
  pushedTo (fc_name orch) m m' A.
Proof.
  unfold mapOrchestrator. intros Hrun Hin Hcall.
  destruct (getEventNames rx (fc_code orch)) as [events|]; simplify_eq/=.
  eapply extends_pushedTo; [apply mapCallers_extends|].
  eapply extends_pushedTo; [apply mapSubOrchestrators_extends|].
  eapply pushedTo_extends; [by apply mapActivities_pushes|].
  eapply extends_trans; [apply mapContinueAsNew_extends|].
  apply extends_foldl. intros. apply mapEventProducers_extends.
Qed.

Lemma forEachO_extends os others names (l : list FunctionCode) m m' :
  forEachO (mapOrchestrator rx os others names) l m = Some m' → extends m m'.
Proof.
  revert m m'. induction l as [|orch l IH]; intros m m2 Hrun; simpl in Hrun.
  - simplify_eq. apply extends_refl.
  - destruct (mapOrchestrator rx os others names orch m) as [m1|] eqn:Hstep;
      simplify_eq/=.
    eapply extends_trans; [by eapply mapOrchestrator_extends | by apply IH].
Qed.

Lemma forEachO_pushes os others names (l : list FunctionCode) orch m m' A :
  forEachO (mapOrchestrator rx os others names) l m = Some m' →
  orch ∈ l → A ∈ names → getCallActivityRegex rx A (fc_code orch) = true →
  pushedTo (fc_name orch) m m' A.
Proof.
  intros Hrun Horch Hin Hcall. revert m m' Hrun.
  induction l as [|o l IH]; intros m m2 Hrun; [by apply elem_of_nil in Horch|].
  simpl in Hrun.
  destruct (mapOrchestrator rx os others names o m) as [m1|] eqn:Hstep;
    simplify_eq/=.
  apply elem_of_cons in Horch as [->|Horch].
  - eapply pushedTo_extends; [by eapply mapOrchestrator_pushes|].
    by eapply forEachO_extends.
  - eapply extends_pushedTo; [by eapply mapOrchestrator_extends|].
    by apply IH.
Qed.

Lemma later_passes_extend kind acts ents others os m :
  extends m
    (foldl addLocation
       (if bool_decide (kind = dotNet)
        then foldl (enrichFunction env) (foldl (mapEntity rx others) m ents)
                   (acts ++ others)
        else foldl (mapEntity rx others) m ents)
       (others ++ os ++ acts ++ ents)).
Proof.
  eapply extends_trans; [|apply extends_foldl; intros; apply addLocation_extends].
  case_bool_decide.
  - eapply extends_trans;
      [|apply extends_foldl; intros; apply enrichFunction_extends].
    apply extends_foldl; intros; apply mapEntity_extends.
  - apply extends_foldl; intros; apply mapEntity_extends.
Qed.

Lemma mapGraph_extends kind os names acts ents others m m' :
  mapGraph rx env kind os names acts ents others m = Some m' → extends m m'.
Proof.
  unfold mapGraph. intros Hrun.
  destruct (forEachO _ os m) as [m1|] eqn:Hloop; simplify_eq/=.
  eapply extends_trans; [by eapply forEachO_extends|].
  apply later_passes_extend.
Qed.

Lemma mapGraph_pushes kind os names acts ents others m m' orch A :
  mapGraph rx env kind os names acts ents others m = Some m' →
  orch ∈ os → A ∈ names → getCallActivityRegex rx A (fc_code orch) = true →
  pushedTo (fc_name orch) m m' A.
Proof.
  unfold mapGraph. intros Hrun Horch Hin Hcall.
  destruct (forEachO _ os m) as [m1|] eqn:Hloop; simplify_eq/=.
  eapply pushedTo_extends; [by eapply forEachO_pushes|].
  apply later_passes_extend.
Qed.

End GraphPasses.

(** ** The mapping, run in an environment that answers *)

Section Mapping.
Context (rx : TraversalRegexes) (env : Env).
Implicit Types (functions : FunctionsMap) (lines : list string).

Lemma omap_id_fmap {A B} (f : A → option B) (l : list A) :
  omap id (f <$> l) = omap f l.
Proof. induction l as [|a l IH]; [done|]. csimpl. by rewrite IH. Qed.

Lemma functionAndItsCode_run kind pf hf n lines :
  (∃ r, findFunctionFile env kind pf hf n = Ok r) →
  functionAndItsCode env kind pf hf n lines = (Ok (codeOf env kind pf hf n), lines).
Proof.
  intros [r Hr]. unfold functionAndItsCode, codeOf, bind, io. rewrite Hr.
  by destruct r.
Qed.

Lemma promiseAll_run kind pf hf names lines :
  (∀ n, ∃ r, findFunctionFile env kind pf hf n = Ok r) →
  promiseAll (functionAndItsCode env kind pf hf) names lines
  = (Ok (codeOf env kind pf hf <$> names), lines).
Proof.
  intros Hfind. induction names as [|n names IH]; [done|].
  simpl. unfold bind at 1. rewrite functionAndItsCode_run by done.
  unfold bind at 1. by rewrite IH.
Qed.

Lemma getFunctionsAndTheirCodesAsync_run kind pf hf names lines :
  answers env pf hf →
  getFunctionsAndTheirCodesAsync env names kind pf hf lines
  = (Ok (codesOf env kind pf hf names), lines).
Proof.
  intros (_ & _ & Hfind). unfold getFunctionsAndTheirCodesAsync, bind.
  rewrite promiseAll_run by done. unfold ret, codesOf. by rewrite omap_id_fmap.
Qed.

Lemma getProjectKind_run pf hf lines :
  answers env pf hf →
  getProjectKind env pf lines = (Ok (projectKindOf env pf), lines).
Proof.
  intros ([b1 H1] & [b2 H2] & _). unfold getProjectKind, projectKindOf, bind, io.
  rewrite H1. destruct b1; [done|]. rewrite H2. by destruct b2.
Qed.

(** The code arrays the mapping works on. *)
Lemma mapOrchestratorsAndActivitiesAsync_run functions pf hf lines :
  advances (waitForExternalEventRegex rx) → answers env pf hf →
  let kind := projectKindOf env pf in
  ∃ m',
    mapGraph rx env kind
      (codesOf env kind pf hf (orchestratorNamesOf functions))
      (activityNamesOf functions)
      (codesOf env kind pf hf (activityNamesOf functions))
      (codesOf env kind pf hf (entityNamesOf functions))
      (codesOf env kind pf hf (otherFunctionNamesOf functions))
      (fo_map functions) = Some m' ∧
    mapOrchestratorsAndActivitiesAsync rx env functions pf hf lines
    = (Ok (mkFunctionsMap (fo_keys functions) m'), lines).
Proof.
  intros Hadv Hans kind.
  destruct (mapGraph_total rx env kind
              (codesOf env kind pf hf (orchestratorNamesOf functions))
              (activityNamesOf functions)
              (codesOf env kind pf hf (activityNamesOf functions))
              (codesOf env kind pf hf (entityNamesOf functions))
              (codesOf env kind pf hf (otherFunctionNamesOf functions))
              (fo_map functions) Hadv) as [m' Hm'].
  exists m'. split; [done|].
  unfold mapOrchestratorsAndActivitiesAsync.
  unfold bind at 1. rewrite (getProjectKind_run pf hf) by done. fold kind.
  unfold bind at 1. rewrite getFunctionsAndTheirCodesAsync_run by done.
  unfold bind at 1. rewrite getFunctionsAndTheirCodesAsync_run by done.
  unfold bind at 1. rewrite getFunctionsAndTheirCodesAsync_run by done.
  unfold bind at 1. rewrite getFunctionsAndTheirCodesAsync_run by done.
  unfold bind. by rewrite Hm'.
Qed.

Lemma codeOf_name kind pf hf n o :
  codeOf env kind pf hf n = Some o → fc_name o = n.
Proof.
  unfold codeOf. destruct (findFunctionFile _ _ _ _ _) as [[m|]| |]; try done.
  by intros [= <-].
Qed.

Lemma elem_of_codesOf kind pf hf names o :
  o ∈ codesOf env kind pf hf names ↔
  fc_name o ∈ names ∧ codeOf env kind pf hf (fc_name o) = Some o.
Proof.
  unfold codesOf. rewrite list_elem_of_omap. split.
  - intros (n & Hn & Ho). by rewrite (codeOf_name _ _ _ _ _ Ho).
  - intros [Hn Ho]. eauto.
Qed.

Lemma fc_name_codesOf kind pf hf names :
  fc_name <$> codesOf env kind pf hf names
  = filter (λ n, is_Some (codeOf env kind pf hf n)) names.
Proof.
  unfold codesOf. induction names as [|n names IH]; [done|].
  csimpl. destruct (codeOf env kind pf hf n) as [o|] eqn:Ho.
  - rewrite filter_cons_True by (by rewrite Ho). csimpl.
    by rewrite IH, (codeOf_name _ _ _ _ _ Ho).
  - rewrite filter_cons_False by (rewrite Ho; apply is_Some_None). done.
Qed.

Lemma NoDup_codesOf kind pf hf names :
  NoDup names → NoDup (fc_name <$> codesOf env kind pf hf names).
Proof. intros Hnd. rewrite fc_name_codesOf. by apply NoDup_filter. Qed.

Lemma hasBinding_is_Some (m : gmap string FunctionInfo) t n :
  hasBinding m t n = true → is_Some (m !! n).
Proof.
  unfold hasBinding, bindingsOf. destruct (m !! n); [by eexists|done].
Qed.

End Mapping.

(** ** The sample machine *)

Lemma scanWait_bounds s offset lastIndex' group :
  scanWait s offset = Some (lastIndex', group) →
  offset < lastIndex' ∧ lastIndex' ≤ offset + String.length s.
Proof.
  revert offset. induction s as [|c s IH]; intros offset Hscan; [done|].
  simpl in Hscan. destruct (Ascii.eqb c _).
  - destruct s; simplify_eq/=. lia.
  - apply IH in Hscan. simpl. lia.
Qed.

Lemma length_dropString n s :
  String.length (dropString n s) = String.length s - n.
Proof.
  revert s. induction n as [|n IH]; intros s; simpl.
  - lia.
  - destruct s; simpl; [done|]. apply IH.
Qed.

Lemma sample_advances : advances (waitForExternalEventRegex sampleRegexes).
Proof.
  intros code lastIndex lastIndex' group Hexec. simpl in Hexec.
  pose proof (length_dropString lastIndex code) as Hlen.
  destruct (scanWait_bounds _ _ _ _ Hexec) as [Hlt Hle].
  split; [done|].
  destruct (decide (lastIndex ≤ String.length code)); [lia|].
  destruct (dropString lastIndex code); [done|]. simpl in Hlen. lia.
Qed.

Lemma sample_answers pf hf : answers sampleEnv pf hf.
Proof.
  split; [by eexists|]. split; [by eexists|].
  intros kind n. destruct kind; simpl; repeat case_bool_decide; by eexists.
Qed.

Lemma sample_wf : wfFunctionsMap sampleFunctions.
Proof. unfold sampleFunctions. do 5 apply wf_setFunction. apply wf_emptyFunctions. Qed.

(** The sample project, traversed from the top. *)
Example sample_traversal :
  ∃ result,
    traverseFunctionProject sampleRegexes sampleEnv "proj" []
    = (Ok result, [">>> Found host.json at proj/host.json"]) ∧
    fo_keys (tr_functions result)
    = ["OrchA"; "OrchLoop"; "ActB"; "Starter1"; "Starter2"] ∧
    isCalledBy <$> fo_map (tr_functions result) !! "ActB" = Some ["OrchA"] ∧
    isCalledBy <$> fo_map (tr_functions result) !! "OrchA" = Some ["Starter1"] ∧
    isCalledByItself <$> fo_map (tr_functions result) !! "OrchLoop"
    = Some (Some true) ∧
    isCalledByItself <$> fo_map (tr_functions result) !! "OrchA" = Some None ∧
    isSignalledBy <$> fo_map (tr_functions result) !! "OrchA"
    = Some [mkSignal "Starter1" "a"; mkSignal "Starter2" "b"].
Proof. eexists. split; [vm_compute; reflexivity|]. by vm_compute. Qed.

(** ** The edges and flags in the result of the mapping *)

Section Graph.
Context (rx : TraversalRegexes) (env : Env).
Implicit Types (functions : FunctionsMap) (lines : list string).

Lemma getEventNames_loop_awaited fuel code lastIndex result events :
  getEventNames_loop rx fuel code lastIndex result = Some events →
  ∃ found, events = result ++ found ∧ awaited rx code lastIndex found.
Proof.
  revert lastIndex result. induction fuel as [|fuel IH];
    intros lastIndex result Hloop; [done|].
  simpl in Hloop.
  destruct (waitForExternalEventRegex rx code lastIndex)
    as [[lastIndex' group4]|] eqn:Hexec.
  - apply IH in Hloop as (found & -> & Hfound).
    exists (group4 :: found). split; [by rewrite <-app_assoc|].
    by eapply awaited_match.
  - simplify_eq. exists []. split; [by rewrite app_nil_r|].
    by apply awaited_none.
Qed.

(** [getEventNames] returns every successive match, in order. *)
Lemma getEventNames_awaited code events :
  getEventNames rx code = Some events → awaited rx code 0 events.
Proof.
  intros Hev. by apply getEventNames_loop_awaited in Hev as (found & -> & ?).
Qed.

Lemma awaited_inj code lastIndex events events' :
  awaited rx code lastIndex events → awaited rx code lastIndex events' →
  events = events'.
Proof.
  intros Hev. revert events'.
  induction Hev as [i Hnone|i i' g es Hexec _ IH]; intros events' Hev';
    inversion Hev' as [? Hnone'|? i'' g' es' Hexec' Hrest]; simplify_eq; [done|].
  f_equal. by apply IH.
Qed.

Lemma continuesAsNew_true k (l : list FunctionCode) :
  continuesAsNew rx k l = true ↔
  ∃ orch, orch ∈ l ∧ fc_name orch = k ∧ continueAsNewRegex rx (fc_code orch) = true.
Proof.
  unfold continuesAsNew. rewrite some_true. split.
  - intros (orch & Hin & Hb). apply andb_true_iff in Hb as [Hk Hc].
    apply bool_decide_eq_true in Hk. eauto.
  - intros (orch & Hin & Hk & Hc). exists orch. split; [done|].
    by rewrite Hc, bool_decide_true.
Qed.

(** C3, as the code has it.  For an orchestrator whose code body was
    found: if the continue-as-new pattern matches in it, [isCalledByItself]
    is [true] in the result; if it does not, the property is what it was in
    the functions object handed to the mapping, so it stays unset for an
    entry made from a function.json (it is never set to [false]). *)
Theorem continue_as_new_flag functions pf hf lines orch
    (Hadv : advances (waitForExternalEventRegex rx))
    (Hans : answers env pf hf)
    (Horch : orch ∈ codesOf env (projectKindOf env pf) pf hf
                      (orchestratorNamesOf functions)) :
  ∃ result,
    mapOrchestratorsAndActivitiesAsync rx env functions pf hf lines
    = (Ok result, lines) ∧
    (continueAsNewRegex rx (fc_code orch) = true →
     isCalledByItself <$> fo_map result !! fc_name orch = Some (Some true)) ∧
    (continueAsNewRegex rx (fc_code orch) = false →
     isCalledByItself <$> fo_map result !! fc_name orch
     = isCalledByItself <$> fo_map functions !! fc_name orch).
Proof.
  destruct (mapOrchestratorsAndActivitiesAsync_run rx env functions pf hf lines
              Hadv Hans) as (m' & Hgraph & Hrun).
  eexists. split; [exact Hrun|]. simpl.
  rewrite (mapGraph_itself _ _ _ _ _ _ _ _ _ _ (fc_name orch) Hgraph).
  pose proof Horch as Horch'.
  apply elem_of_codesOf in Horch' as [Hname Hcode].
  split.
  - intros Hmatch.
    assert (continuesAsNew rx (fc_name orch)
              (codesOf env (projectKindOf env pf) pf hf
                 (orchestratorNamesOf functions)) = true) as ->.
    { apply continuesAsNew_true. eauto. }
    unfold orchestratorNamesOf in Hname.
    apply elem_of_filter_bool in Hname as [Hb _].
    by destruct (hasBinding_is_Some _ _ _ Hb) as [f ->].
  - intros Hmatch.
    destruct (continuesAsNew rx (fc_name orch) _) eqn:Hc; [|done].
    apply continuesAsNew_true in Hc as (orch' & Hin' & Hk & Hc).
    apply elem_of_codesOf in Hin' as [_ Hcode'].
    rewrite Hk, Hcode in Hcode'. simplify_eq. congruence.
Qed.

(** C4.  For an orchestrator whose code body was found and an activity of
    the functions object: if the call-activity pattern for the activity's
    name matches in the orchestrator's code, the orchestrator's name is
    among the callers appended to the activity's [isCalledBy]. *)
Theorem call_activity_edge functions pf hf lines orch A
    (Hadv : advances (waitForExternalEventRegex rx))
    (Hans : answers env pf hf)
    (Horch : orch ∈ codesOf env (projectKindOf env pf) pf hf
                      (orchestratorNamesOf functions))
    (HA : A ∈ activityNamesOf functions)
    (Hcall : getCallActivityRegex rx A (fc_code orch) = true) :
  ∃ result f f' appendedCallers,
    mapOrchestratorsAndActivitiesAsync rx env functions pf hf lines
    = (Ok result, lines) ∧
    fo_map functions !! A = Some f ∧
    fo_map result !! A = Some f' ∧
    isCalledBy f' = isCalledBy f ++ appendedCallers ∧
    fc_name orch ∈ appendedCallers.
Proof.
  destruct (mapOrchestratorsAndActivitiesAsync_run rx env functions pf hf lines
              Hadv Hans) as (m' & Hgraph & Hrun).
  pose proof HA as HA'. unfold activityNamesOf in HA'.
  apply elem_of_filter_bool in HA' as [Hb _].
  destruct (hasBinding_is_Some _ _ _ Hb) as [f Hf].
  destruct (mapGraph_pushes _ _ _ _ _ _ _ _ _ _ orch A Hgraph Horch HA Hcall f Hf)
    as (f' & l & Hf' & Hl & Hin).
  exists (mkFunctionsMap (fo_keys functions) m'), f, f', l. done.
Qed.

(** C9.  For an orchestrator whose code body was found: the event names
    are all the successive matches of the wait-external-event pattern, and
    its [isSignalledBy] gains, for each of them in order, one entry for every
    other function whose code matches the raise-event pattern for that name.
    With two awaited events, each raised by one other function, and no
    signals before, it holds exactly the two pairs. *)
Theorem external_event_signals functions pf hf lines orch
    (Hadv : advances (waitForExternalEventRegex rx))
    (Hans : answers env pf hf)
    (Hwf : wfFunctionsMap functions)
    (Horch : orch ∈ codesOf env (projectKindOf env pf) pf hf
                      (orchestratorNamesOf functions)) :
  let otherFunctions :=
    codesOf env (projectKindOf env pf) pf hf (otherFunctionNamesOf functions) in
  ∃ result events f f',
    mapOrchestratorsAndActivitiesAsync rx env functions pf hf lines
    = (Ok result, lines) ∧
    getEventNames rx (fc_code orch) = Some events ∧
    awaited rx (fc_code orch) 0 events ∧
    fo_map functions !! fc_name orch = Some f ∧
    fo_map result !! fc_name orch = Some f' ∧
    isSignalledBy f' = isSignalledBy f ++ signalsFor rx otherFunctions events ∧
    (∀ i1 i2 e1 e2 f1 f2,
       waitForExternalEventRegex rx (fc_code orch) 0 = Some (i1, e1) →
       waitForExternalEventRegex rx (fc_code orch) i1 = Some (i2, e2) →
       waitForExternalEventRegex rx (fc_code orch) i2 = None →
       filter (λ func, getRaiseEventRegex rx e1 (fc_code func)) otherFunctions = [f1] →
       filter (λ func, getRaiseEventRegex rx e2 (fc_code func)) otherFunctions = [f2] →
       isSignalledBy f = [] →
       isSignalledBy f' = [mkSignal (fc_name f1) e1; mkSignal (fc_name f2) e2]).
Proof.
  intros otherFunctions.
  destruct (mapOrchestratorsAndActivitiesAsync_run rx env functions pf hf lines
              Hadv Hans) as (m' & Hgraph & Hrun).
  destruct (getEventNames_total rx (fc_code orch) Hadv) as [events Hev].
  pose proof (getEventNames_awaited _ _ Hev) as Haw.
  pose proof Horch as Horch'.
  apply elem_of_codesOf in Horch' as [Hname Hcode].
  unfold orchestratorNamesOf in Hname.
  pose proof Hname as Hname'.
  apply elem_of_filter_bool in Hname' as [Hb _].
  destruct (hasBinding_is_Some _ _ _ Hb) as [f Hf].
  pose proof (mapGraph_signals _ _ _ _ _ _ _ _ _ _ (fc_name orch) Hgraph) as Hsig.
  rewrite signalsOf_unique in Hsig; [|apply NoDup_codesOf|done].
  2:{ apply NoDup_filter. by destruct Hwf. }
  rewrite Hev, Hf in Hsig. simpl in Hsig.
  destruct (m' !! fc_name orch) as [f'|] eqn:Hf'; simplify_eq/=.
  exists (mkFunctionsMap (fo_keys functions) m'), events, f, f'.
  split; [done|]. split; [done|]. split; [done|]. split; [done|].
  split; [done|]. split; [done|].
  intros i1 i2 e1 e2 f1 f2 H1 H2 H3 Hf1 Hf2 Hnil.
  assert (events = [e1; e2]) as ->.
  { eapply awaited_inj; [exact Haw|].
    eapply awaited_match; [exact H1|].
    eapply awaited_match; [exact H2|]. by apply awaited_none. }
  rewrite Hsig, Hnil. unfold signalsFor. simpl.
  fold otherFunctions. by rewrite Hf1, Hf2.
Qed.

(** *** bindings *)

Lemma mapCallers_bindings others orch m :
  preserves bindings m (mapCallers rx others orch m).
Proof. unfold mapCallers. pass. Qed.

Lemma mapSubOrchestrators_bindings os orch m :
  preserves bindings m (mapSubOrchestrators rx os orch m).
Proof. unfold mapSubOrchestrators. pass. Qed.

Lemma mapActivities_bindings orch names m :
  preserves bindings m (mapActivitiesToOrchestrator rx m orch names).
Proof. unfold mapActivitiesToOrchestrator. pass. Qed.

Lemma mapContinueAsNew_bindings orch m :
  preserves bindings m (mapContinueAsNew rx orch m).
Proof. unfold mapContinueAsNew. pass. Qed.

Lemma mapEventProducers_bindings others orch m e :
  preserves bindings m (mapEventProducers rx others orch m e).
Proof. unfold mapEventProducers. pass. Qed.

Lemma mapOrchestrator_bindings os others names orch m m' :
  mapOrchestrator rx os others names orch m = Some m' → preserves bindings m m'.
Proof.
  unfold mapOrchestrator. intros Hrun k.
  destruct (getEventNames rx (fc_code orch)) as [events|]; simplify_eq/=.
  rewrite (preserves_foldl bindings _ events
             (λ m e, mapEventProducers_bindings others orch m e)).
  by rewrite mapContinueAsNew_bindings, mapActivities_bindings,
    mapSubOrchestrators_bindings, mapCallers_bindings.
Qed.

Lemma forEachO_bindings os others names (l : list FunctionCode) m m' :
  forEachO (mapOrchestrator rx os others names) l m = Some m' →
  preserves bindings m m'.
Proof.
  revert m m'. induction l as [|orch l IH]; intros m m2 Hrun; simpl in Hrun.
  - simplify_eq. apply preserves_refl.
  - destruct (mapOrchestrator rx os others names orch m) as [m1|] eqn:Hstep;
      simplify_eq/=.
    eapply preserves_trans; [by eapply mapOrchestrator_bindings | by apply IH].
Qed.

Lemma enrichFunctions_bindings (l : list FunctionCode) m k :
  bindings <$> foldl (enrichFunction env) m l !! k
  = (λ f, foldl (λ bs func, if bool_decide (fc_name func = k)
                            then enrichBindings bs (tryExtractBindings env (fc_code func))
                            else bs)
                (bindings f) l) <$> m !! k.
Proof.
  revert m. induction l as [|func l IH]; intros m; simpl; [done|].
  rewrite IH. unfold enrichFunction. rewrite lookup_alter.
  case_decide; case_bool_decide; try done. subst.
  by destruct (m !! fc_name func).
Qed.

Lemma enrich_once (l : list FunctionCode) func bs :
  NoDup (fc_name <$> l) → func ∈ l →
  foldl (λ bs func', if bool_decide (fc_name func' = fc_name func)
                     then enrichBindings bs (tryExtractBindings env (fc_code func'))
                     else bs) bs l
  = enrichBindings bs (tryExtractBindings env (fc_code func)).
Proof.
  revert bs. induction l as [|o l IH]; intros bs Hnd Hin;
    [by apply elem_of_nil in Hin|].
  rewrite fmap_cons, NoDup_cons in Hnd. destruct Hnd as [Hnotin Hnd]. simpl.
  assert (∀ bs', fc_name func ∉ fc_name <$> l →
            foldl (λ bs func', if bool_decide (fc_name func' = fc_name func)
                     then enrichBindings bs (tryExtractBindings env (fc_code func'))
                     else bs) bs' l = bs') as Hskip.
  { clear. intros bs' Hnotin. revert bs'.
    induction l as [|o l IH]; intros bs'; [done|]. simpl.
    rewrite fmap_cons, not_elem_of_cons in Hnotin. destruct Hnotin as [Hne Hnotin].
    rewrite bool_decide_false by done. by apply IH. }
  apply elem_of_cons in Hin as [->|Hin].
  - rewrite bool_decide_true by done. by apply Hskip.
  - rewrite bool_decide_false; [by apply IH|].
    intros Heq. apply Hnotin. rewrite Heq. by apply list_elem_of_fmap_2.
Qed.

Lemma mapGraph_bindings kind os names acts ents others m m' k :
  mapGraph rx env kind os names acts ents others m = Some m' →
  bindings <$> m' !! k
  = (if bool_decide (kind = dotNet)
     then λ f, foldl (λ bs func,
                        if bool_decide (fc_name func = k)
                        then enrichBindings bs (tryExtractBindings env (fc_code func))
                        else bs)
                     (bindings f) (acts ++ others)
     else bindings) <$> m !! k.
Proof.
  unfold mapGraph. intros Hrun.
  destruct (forEachO _ os m) as [m1|] eqn:Hloop; simplify_eq/=.
  assert (∀ m0 func, preserves bindings m0 (addLocation m0 func)) as Hloc
    by (intros; unfold addLocation; pass).
  assert (∀ m0 entity, preserves bindings m0 (mapEntity rx others m0 entity))
    as Hent by (intros; unfold mapEntity; pass).
  rewrite (preserves_foldl bindings _ _ Hloc).
  case_bool_decide.
  - rewrite enrichFunctions_bindings.
    pose proof (preserves_foldl bindings _ ents Hent m1 k) as H2.
    pose proof (forEachO_bindings _ _ _ _ _ _ Hloop k) as H1.
    destruct (foldl (mapEntity rx others) m1 ents !! k) as [f2|],
      (m1 !! k) as [f1|], (m !! k) as [f|]; simplify_eq/=; [|done].
    by rewrite H2, H1.
  - rewrite (preserves_foldl bindings _ _ Hent).
    by rewrite (forEachO_bindings _ _ _ _ _ _ Hloop k).
Qed.

(** In a .NET project the bindings of every activity and of every other
    function whose code was found are enriched, once, with the bindings
    extracted from that code; in the other kinds of project the bindings are
    left as read. *)
Lemma bindings_in_result functions pf hf lines :
  advances (waitForExternalEventRegex rx) → answers env pf hf →
  wfFunctionsMap functions →
  let kind := projectKindOf env pf in
  ∃ result,
    mapOrchestratorsAndActivitiesAsync rx env functions pf hf lines
    = (Ok result, lines) ∧
    (kind ≠ dotNet →
     ∀ k, bindings <$> fo_map result !! k = bindings <$> fo_map functions !! k) ∧
    (kind = dotNet →
     ∀ func,
       func ∈ codesOf env kind pf hf (activityNamesOf functions)
              ++ codesOf env kind pf hf (otherFunctionNamesOf functions) →
       bindings <$> fo_map result !! fc_name func
       = (λ f, enrichBindings (bindings f) (tryExtractBindings env (fc_code func)))
           <$> fo_map functions !! fc_name func).
Proof.
  intros Hadv Hans [Hnd _] kind.
  destruct (mapOrchestratorsAndActivitiesAsync_run rx env functions pf hf lines
              Hadv Hans) as (m' & Hgraph & Hrun).
  fold kind in Hgraph.
  eexists. split; [exact Hrun|]. simpl. split.
  - intros Hkind k. rewrite (mapGraph_bindings _ _ _ _ _ _ _ _ k Hgraph).
    by rewrite bool_decide_false.
  - intros Hkind func Hfunc.
    rewrite (mapGraph_bindings _ _ _ _ _ _ _ _ (fc_name func) Hgraph).
    rewrite bool_decide_true by done.
    destruct (fo_map functions !! fc_name func) as [f|]; simpl; [|done].
    f_equal. apply enrich_once; [|done].
    rewrite fmap_app. apply NoDup_app. split; [|split].
    + apply NoDup_codesOf. by apply NoDup_filter.
    + intros n. rewrite !fc_name_codesOf, !list_elem_of_filter.
      unfold activityNamesOf, otherFunctionNamesOf.
      rewrite !elem_of_filter_bool. intros [_ [Ha _]] [_ [Hx _]].
      rewrite hasAnyTrigger_orb, Ha in Hx. simpl in Hx.
      by rewrite orb_true_r in Hx.
    + apply NoDup_codesOf. by apply NoDup_filter.
Qed.

End Graph.

(** ** The claims about the graph, on the sample project *)

Lemma continue_as_new_flag_witness :
  ∃ result,
    mapOrchestratorsAndActivitiesAsync sampleRegexes sampleEnv sampleFunctions
      "proj" "proj" [] = (Ok result, []) ∧
    isCalledByItself <$> fo_map result !! "OrchLoop" = Some (Some true).
Proof.
  assert (orchLoop ∈ codesOf sampleEnv (projectKindOf sampleEnv "proj") "proj" "proj"
                      (orchestratorNamesOf sampleFunctions)) as Horch
    by by_computing.
  destruct (continue_as_new_flag sampleRegexes sampleEnv sampleFunctions
              "proj" "proj" [] orchLoop sample_advances (sample_answers _ _) Horch)
    as (result & Hrun & Htrue & _).
  exists result. split; [exact Hrun|]. apply Htrue. reflexivity.
Defined.

(** C3, as the claim words it, fails: the code of [OrchA] has no
    continue-as-new call, and its [isCalledByItself] is not [false] in the
    result but absent. *)
Lemma continue_as_new_counterexample :
  orchA ∈ codesOf sampleEnv (projectKindOf sampleEnv "proj") "proj" "proj"
            (orchestratorNamesOf sampleFunctions) ∧
  continueAsNewRegex sampleRegexes (fc_code orchA) = false ∧
  ∃ result,
    mapOrchestratorsAndActivitiesAsync sampleRegexes sampleEnv sampleFunctions
      "proj" "proj" [] = (Ok result, []) ∧
    isCalledByItself <$> fo_map result !! fc_name orchA = Some None ∧
    isCalledByItself <$> fo_map result !! fc_name orchA ≠ Some (Some false).
Proof.
  split; [by_computing|]. split; [reflexivity|].
  eexists. split; [vm_compute; reflexivity|].
  split; [by vm_compute|]. by vm_compute.
Qed.

Lemma call_activity_edge_witness :
  ∃ result f',
    mapOrchestratorsAndActivitiesAsync sampleRegexes sampleEnv sampleFunctions
      "proj" "proj" [] = (Ok result, []) ∧
    fo_map result !! "ActB" = Some f' ∧
    "OrchA" ∈ isCalledBy f'.
Proof.
  assert (orchA ∈ codesOf sampleEnv (projectKindOf sampleEnv "proj") "proj" "proj"
                    (orchestratorNamesOf sampleFunctions)) as Horch
    by by_computing.
  assert ("ActB" ∈ activityNamesOf sampleFunctions) as HA by by_computing.
  assert (getCallActivityRegex sampleRegexes "ActB" (fc_code orchA) = true)
    as Hcall by reflexivity.
  destruct (call_activity_edge sampleRegexes sampleEnv sampleFunctions
              "proj" "proj" [] orchA "ActB" sample_advances (sample_answers _ _)
              Horch HA Hcall)
    as (result & f & f' & l & Hrun & Hf & Hf' & Hl & Hin).
  exists result, f'. split; [exact Hrun|]. split; [exact Hf'|].
  rewrite Hl. apply elem_of_app. by right.
Defined.

Lemma external_event_signals_witness :
  ∃ result f',
    mapOrchestratorsAndActivitiesAsync sampleRegexes sampleEnv sampleFunctions
      "proj" "proj" [] = (Ok result, []) ∧
    fo_map result !! "OrchA" = Some f' ∧
    isSignalledBy f' = [mkSignal "Starter1" "a"; mkSignal "Starter2" "b"].
Proof.
  assert (orchA ∈ codesOf sampleEnv (projectKindOf sampleEnv "proj") "proj" "proj"
                    (orchestratorNamesOf sampleFunctions)) as Horch
    by by_computing.
  destruct (external_event_signals sampleRegexes sampleEnv sampleFunctions
              "proj" "proj" [] orchA sample_advances (sample_answers _ _)
              sample_wf Horch)
    as (result & events & f & f' & Hrun & Hev & Haw & Hf & Hf' & Hsig & Htwo).
  exists result, f'. split; [exact Hrun|]. split; [exact Hf'|].
  apply (Htwo 27 36 "a" "b" starter1 starter2); try reflexivity.
  vm_compute in Hf. by simplify_eq.
Defined.

(** ** Errors and proxies *)

Section Descriptors.
Context (rx : TraversalRegexes) (env : Env).
Implicit Types (lines : list string) (proxies : gmap string ProxyInfo).

(** C5.  When no host.json is found under the resolved project folder the
    traversal throws, whatever else the project holds: the call ends with
    the error and with no result. *)
Theorem host_json_not_found projectFolder lines tempFolders resolved lines'
    (Hclone : cloneIfGitRepo env projectFolder lines
              = (Ok (tempFolders, resolved), lines'))
    (Hfind : findFileRecursivelyAsync env resolved "host.json" false None = Ok None) :
  traverseFunctionProject rx env projectFolder lines = (Throw hostJsonNotFound, lines') ∧
  ∀ result lines'',
    traverseFunctionProject rx env projectFolder lines ≠ (Ok result, lines'').
Proof.
  assert (traverseFunctionProject rx env projectFolder lines
          = (Throw hostJsonNotFound, lines')) as Hrun.
  { unfold traverseFunctionProject, traverseFunctions.
    unfold bind at 1. unfold bind at 1. rewrite Hclone. simpl.
    unfold bind at 1. unfold io. by rewrite Hfind. }
  split; [done|]. intros result lines''. by rewrite Hrun.
Qed.

Lemma readProxiesJson_malformed projectFolder lines text err :
  let path := path_join env projectFolder "proxies.json" in
  existsSync env path = true →
  readFile env path = Ok text →
  JSON_parse_proxies env text = Throw err →
  readProxiesJson env projectFolder lines
  = (Ok emptyProxies, lines ++ [failedToParse path err]).
Proof.
  intros path Hexists Hread Hparse. unfold readProxiesJson. fold path.
  rewrite Hexists. simpl. unfold bind at 1. unfold io at 1. rewrite Hread.
  unfold tryCatch, bind at 1. unfold io at 1. by rewrite Hparse.
Qed.

(** C6.  When proxies.json is there but does not parse, reading the
    proxies returns the empty map after logging the failure, and a traversal
    that got as far as the proxies returns its result with that empty map. *)
Theorem malformed_proxies_json projectFolder lines functions tempFolders resolved
    lines1 text err
    (Hfront : traverseFunctions rx env projectFolder lines
              = (Ok (functions, tempFolders, resolved), lines1))
    (Hexists : existsSync env (path_join env resolved "proxies.json") = true)
    (Hread : readFile env (path_join env resolved "proxies.json") = Ok text)
    (Hparse : JSON_parse_proxies env text = Throw err) :
  let logged := failedToParse (path_join env resolved "proxies.json") err in
  readProxiesJson env resolved lines1 = (Ok emptyProxies, lines1 ++ [logged]) ∧
  traverseFunctionProject rx env projectFolder lines
  = (Ok (mkTraverseFunctionResult functions emptyProxies tempFolders resolved),
     lines1 ++ [logged]).
Proof.
  intros logged.
  pose proof (readProxiesJson_malformed resolved lines1 text err
                Hexists Hread Hparse) as Hproxies.
  split; [exact Hproxies|].
  unfold traverseFunctionProject, bind at 1. rewrite Hfront. simpl.
  unfold bind. by rewrite Hproxies.
Qed.

Lemma annotateProxy_idemp path text b regex proxy :
  annotateProxy env path text b regex (annotateProxy env path text b regex proxy)
  = annotateProxy env path text b regex proxy.
Proof. unfold annotateProxy. by destruct b, (regex text). Qed.

Lemma addFilePathAndLineNr_run path text b proxyName proxies lines :
  addFilePathAndLineNr env path text b proxyName proxies lines
  = match RegExp_new env (proxyNameRegexSource proxyName) with
    | Ok regex =>
        (Ok (alter (annotateProxy env path text b regex) proxyName proxies), lines)
    | Throw err => (Throw err, lines)
    | Diverge => (Diverge, lines)
    end.
Proof.
  unfold addFilePathAndLineNr, bind, io.
  destruct (RegExp_new env (proxyNameRegexSource proxyName)) as [regex|err|];
    [|done..].
  unfold annotateProxy, ret.
  destruct b, (regex text); f_equal; f_equal; apply map_eq; intros k;
    (destruct (decide (proxyName = k)) as [->|Hne];
     [rewrite !lookup_alter_eq; by destruct (proxies !! k)
     |by rewrite !lookup_alter_ne by done]).
Qed.

Lemma forEachM_proxies path text b (names : list string) proxies proxies' lines lines' :
  forEachM (addFilePathAndLineNr env path text b) names proxies lines
  = (Ok proxies', lines') →
  ∀ proxyName,
    (proxyName ∈ names →
     ∃ regex, RegExp_new env (proxyNameRegexSource proxyName) = Ok regex ∧
              proxies' !! proxyName
              = annotateProxy env path text b regex <$> proxies !! proxyName) ∧
    (proxyName ∉ names → proxies' !! proxyName = proxies !! proxyName).
Proof.
  revert proxies lines. induction names as [|n names IH]; intros proxies lines Hrun.
  - unfold forEachM, ret in Hrun. simplify_eq. intros proxyName.
    split; [by intros ?%elem_of_nil|done].
  - simpl in Hrun. unfold bind in Hrun.
    rewrite addFilePathAndLineNr_run in Hrun.
    destruct (RegExp_new env (proxyNameRegexSource n)) as [regex|err|] eqn:Hnew;
      [|done..].
    intros proxyName. destruct (IH _ _ Hrun proxyName) as [IHin IHout].
    destruct (decide (proxyName = n)) as [->|Hne].
    + split; [|by intros []; left]. intros _. exists regex. split; [done|].
      destruct (decide (n ∈ names)) as [Hin|Hnotin].
      * destruct (IHin Hin) as (regex' & Hnew' & Hlook).
        rewrite Hnew in Hnew'. simplify_eq.
        rewrite Hlook, lookup_alter_eq.
        destruct (proxies !! n); simpl; [|done].
        by rewrite annotateProxy_idemp.
      * by rewrite (IHout Hnotin), lookup_alter_eq.
    + split.
      * intros [?|Hin]%elem_of_cons; [done|].
        destruct (IHin Hin) as (regex' & Hnew' & Hlook).
        exists regex'. split; [done|]. by rewrite Hlook, lookup_alter_ne.
      * intros Hnotin%not_elem_of_cons. destruct Hnotin as [_ Hnotin].
        by rewrite (IHout Hnotin), lookup_alter_ne.
Qed.

Lemma checkCsProjFile_lines projectFolder lines o lines' :
  checkCsProjFile env projectFolder lines = (o, lines') → lines' = lines.
Proof.
  unfold checkCsProjFile, bind, io, ret.
  destruct (isDotNetProjectAsync env projectFolder) as [[|]| |]; try congruence.
  destruct (findFileRecursivelyAsync env projectFolder _ true None) as [[m|]| |];
    try congruence;
    destruct (RegExp_new env proxiesJsonEntryRegexSource); congruence.
Qed.

Lemma forEachM_proxies_run path text b (names : list string) proxies lines :
  (∀ k, k ∈ names →
        ∃ regex, RegExp_new env (proxyNameRegexSource k) = Ok regex) →
  ∃ proxies',
    forEachM (addFilePathAndLineNr env path text b) names proxies lines
    = (Ok proxies', lines).
Proof.
  revert proxies. induction names as [|n names IH]; intros proxies Hnames.
  - by eexists.
  - destruct (Hnames n) as [regex Hnew]; [by left|].
    simpl. unfold bind. rewrite addFilePathAndLineNr_run, Hnew.
    apply IH. intros k Hk. apply Hnames. by right.
Qed.

(** C10.  For a proxies.json that parsed.  Of every run that returns:
    each proxy of the returned map is a proxy of the file, has [filePath]
    set to the path of proxies.json, and has [pos] and [lineNr] set to the
    position of the match and to the line number computed from it when the
    pattern made of the quoted name, [\s*] and a colon matches in the text,
    and left as they were (unset, for a proxy that did not bring them) when
    it does not.  And when the check of the project file answers and the
    pattern can be built for every name, the run returns, with nothing
    logged, and every proxy of the file is in the returned map, annotated
    in this way. *)
Theorem proxy_annotations projectFolder lines text parsed
    (Hexists : existsSync env (path_join env projectFolder "proxies.json") = true)
    (Hread : readFile env (path_join env projectFolder "proxies.json") = Ok text)
    (Hparse : JSON_parse_proxies env text = Ok (Some parsed))
    (Hkeys : ∀ k, is_Some (po_map parsed !! k) → k ∈ po_keys parsed) :
  let proxiesJsonPath := path_join env projectFolder "proxies.json" in
  let pattern proxyName := dquote +:+ proxyName +:+ dquote +:+ "\s*:" in
  let annotated proxyName (proxy proxy' : ProxyInfo) :=
    proxy_filePath proxy' = Some proxiesJsonPath ∧
    ∃ proxyNameRegex,
      RegExp_new env (pattern proxyName) = Ok proxyNameRegex ∧
      match proxyNameRegex text with
      | Some index =>
          proxy_pos proxy' = Some index ∧
          proxy_lineNr proxy' = Some (posToLineNr env text index)
      | None =>
          proxy_pos proxy' = proxy_pos proxy ∧
          proxy_lineNr proxy' = proxy_lineNr proxy
      end in
  (∀ result lines',
     readProxiesJson env projectFolder lines = (Ok result, lines') →
     ∀ proxyName proxy',
       po_map result !! proxyName = Some proxy' →
       ∃ proxy, po_map parsed !! proxyName = Some proxy ∧
                annotated proxyName proxy proxy') ∧
  (∀ b lines1,
     checkCsProjFile env projectFolder lines = (Ok b, lines1) →
     (∀ k, k ∈ po_keys parsed → ∃ regex, RegExp_new env (pattern k) = Ok regex) →
     ∃ result,
       readProxiesJson env projectFolder lines = (Ok result, lines) ∧
       ∀ proxyName proxy,
         po_map parsed !! proxyName = Some proxy →
         ∃ proxy', po_map result !! proxyName = Some proxy' ∧
                   annotated proxyName proxy proxy').
Proof.
  intros proxiesJsonPath pattern annotated.
  assert (∀ b regex proxyName proxy,
            RegExp_new env (pattern proxyName) = Ok regex →
            annotated proxyName proxy
              (annotateProxy env proxiesJsonPath text b regex proxy)) as Hannotated.
  { intros b regex proxyName proxy Hnew. split.
    - unfold annotateProxy. by destruct b, (regex text).
    - exists regex. split; [done|].
      unfold annotateProxy. by destruct b, (regex text). }
  split.
  - intros result lines' Hrun proxyName proxy' Hlook.
    unfold readProxiesJson in Hrun. rewrite Hexists in Hrun. simpl in Hrun.
    unfold bind at 1 in Hrun. unfold io at 1 in Hrun. rewrite Hread in Hrun.
    unfold tryCatch, bind at 1 in Hrun. unfold io at 1 in Hrun.
    rewrite Hparse in Hrun. unfold bind at 1 in Hrun.
    destruct (checkCsProjFile env projectFolder lines) as [[b|err|] lines1];
      [|unfold bind, log, ret in Hrun; simplify_eq; by rewrite lookup_empty in Hlook
       |done].
    unfold bind at 1 in Hrun.
    destruct (forEachM _ (po_keys parsed) (po_map parsed) lines1)
      as [[m'|err|] lines2] eqn:Hloop;
      [|unfold bind, log, ret in Hrun; simplify_eq; by rewrite lookup_empty in Hlook
       |done].
    unfold ret in Hrun. simplify_eq. simpl in Hlook.
    destruct (forEachM_proxies _ _ _ _ _ _ _ _ Hloop proxyName) as [Hin Hout].
    assert (proxyName ∈ po_keys parsed) as Hk.
    { destruct (decide (proxyName ∈ po_keys parsed)) as [|Hnotin]; [done|].
      apply Hkeys. rewrite <-(Hout Hnotin), Hlook. by eexists. }
    destruct (Hin Hk) as (regex & Hnew & Hm'). rewrite Hlook in Hm'.
    destruct (po_map parsed !! proxyName) as [proxy|] eqn:Hproxy; simplify_eq/=.
    exists proxy. split; [done|]. by apply Hannotated.
  - intros b lines1 Hcheck Hnames.
    pose proof (checkCsProjFile_lines _ _ _ _ Hcheck) as ->.
    destruct (forEachM_proxies_run proxiesJsonPath text b (po_keys parsed)
                (po_map parsed) lines Hnames) as (m' & Hloop).
    exists (mkProxiesMap (po_keys parsed) m'). split.
    + unfold readProxiesJson. rewrite Hexists. simpl.
      unfold bind at 1. unfold io at 1. rewrite Hread.
      unfold tryCatch, bind at 1. unfold io at 1. rewrite Hparse.
      unfold bind at 1. rewrite Hcheck.
      unfold bind at 1. fold proxiesJsonPath. by rewrite Hloop.
    + intros proxyName proxy Hproxy. simpl.
      destruct (forEachM_proxies _ _ _ _ _ _ _ _ Hloop proxyName) as [Hin _].
      destruct Hin as (regex & Hnew & Hm'); [by apply Hkeys; eexists|].
      rewrite Hm', Hproxy. simpl. eexists. split; [done|]. by apply Hannotated.
Qed.

End Descriptors.

Lemma host_json_not_found_witness :
  traverseFunctionProject sampleRegexes sampleEnv "nohost" []
  = (Throw hostJsonNotFound, []).
Proof.
  apply (host_json_not_found sampleRegexes sampleEnv "nohost" [] [] "nohost" []);
    reflexivity.
Defined.

Lemma malformed_proxies_json_witness :
  traverseFunctionProject sampleRegexes sampleEnv "bad" []
  = (Ok (mkTraverseFunctionResult emptyFunctions emptyProxies [] "bad"),
     [">>> Found host.json at bad/host.json";
      failedToParse "bad/proxies.json"
        "SyntaxError: Unexpected token o in JSON at position 2"]).
Proof.
  apply (malformed_proxies_json sampleRegexes sampleEnv "bad" [] emptyFunctions []
           "bad" [">>> Found host.json at bad/host.json"] "{ oops"
           "SyntaxError: Unexpected token o in JSON at position 2");
    reflexivity.
Defined.

(** The proxies of the sample project. *)
Example sample_proxies :
  ∃ result,
    readProxiesJson sampleEnv "proj" [] = (Ok result, []) ∧
    po_keys result = ["p1"; "p2"; "p3"] ∧
    po_map result !! "p1"
    = Some (mkProxyInfo "{}" (Some "proj/proxies.json") None (Some 12) (Some 1)) ∧
    po_map result !! "p2"
    = Some (mkProxyInfo "{}" (Some "proj/proxies.json") None (Some 21) (Some 2)) ∧
    po_map result !! "p3"
    = Some (mkProxyInfo "{}" (Some "proj/proxies.json") None None None).
Proof. eexists. split; [vm_compute; reflexivity|]. by vm_compute. Qed.

Lemma proxy_annotations_witness :
  ∃ result p1 p2 p3,
    readProxiesJson sampleEnv "proj" [] = (Ok result, []) ∧
    po_map result !! "p1" = Some p1 ∧
    po_map result !! "p2" = Some p2 ∧
    po_map result !! "p3" = Some p3 ∧
    (proxy_filePath p1 = Some "proj/proxies.json" ∧
     proxy_pos p1 = Some 12 ∧ proxy_lineNr p1 = Some 1) ∧
    (proxy_filePath p2 = Some "proj/proxies.json" ∧
     proxy_pos p2 = Some 21 ∧ proxy_lineNr p2 = Some 2) ∧
    (proxy_filePath p3 = Some "proj/proxies.json" ∧
     proxy_pos p3 = None ∧ proxy_lineNr p3 = None).
Proof.
  assert (∀ k, is_Some (po_map sampleProxies !! k) → k ∈ po_keys sampleProxies)
    as Hkeys.
  { intros k. unfold sampleProxies. simpl.
    rewrite !lookup_insert_is_Some', lookup_empty, is_Some_alt.
    rewrite !elem_of_cons. intros [<-|[<-|[<-|[]]]]; auto. }
  assert (∀ k, k ∈ po_keys sampleProxies →
               ∃ regex, RegExp_new sampleEnv (dquote +:+ k +:+ dquote +:+ "\s*:")
                        = Ok regex) as Hnames.
  { intros k Hk. simpl in Hk.
    repeat (apply elem_of_cons in Hk as [->|Hk]); [by eexists..|].
    by apply elem_of_nil in Hk. }
  destruct (proxy_annotations sampleEnv "proj" [] sampleProxiesText sampleProxies
              eq_refl eq_refl eq_refl Hkeys) as [_ Hforward].
  destruct (Hforward false [] eq_refl Hnames) as (result & Hrun & Hall).
  destruct (Hall "p1" _ eq_refl) as (p1 & H1 & Hfile1 & regex1 & Hnew1 & Hpos1).
  destruct (Hall "p2" _ eq_refl) as (p2 & H2 & Hfile2 & regex2 & Hnew2 & Hpos2).
  destruct (Hall "p3" _ eq_refl) as (p3 & H3 & Hfile3 & regex3 & Hnew3 & Hpos3).
  injection Hnew1 as <-. injection Hnew2 as <-. injection Hnew3 as <-.
  vm_compute in Hpos1, Hpos2, Hpos3.
  destruct Hpos1 as [Hpos1 Hline1], Hpos2 as [Hpos2 Hline2],
    Hpos3 as [Hpos3 Hline3].
  exists result, p1, p2, p3.
  split; [exact Hrun|]. split; [exact H1|]. split; [exact H2|].
  split; [exact H3|].
  split; [split; [exact Hfile1|split; [exact Hpos1|exact Hline1]]|].
  split; [split; [exact Hfile2|split; [exact Hpos2|exact Hline2]]|].
  split; [exact Hfile3|split; [exact Hpos3|exact Hline3]].
Defined.

(** * The rest of the source *)

(** ** The call graph, edge by edge *)

Section Edges.
Context (rx : TraversalRegexes) (env : Env).
Implicit Types (m : gmap string FunctionInfo) (k : string).
Implicit Types (orch func : FunctionCode).

Lemma appendsAt_trans {X} (proj : FunctionInfo → list X) l1 l2 m1 m2 m3 k :
  appendsAt proj l1 m1 m2 k → appendsAt proj l2 m2 m3 k →
  appendsAt proj (l1 ++ l2) m1 m3 k.
Proof.
  unfold appendsAt. intros H12 H23. rewrite H23.
  destruct (m2 !! k) as [f2|], (m1 !! k) as [f1|]; simplify_eq/=; [|done].
  by rewrite H12, app_assoc.
Qed.

Lemma appendsAt_preserves {X} (proj : FunctionInfo → list X) m m' k :
  preserves proj m m' → appendsAt proj [] m m' k.
Proof.
  unfold appendsAt. intros ->. destruct (m !! k); simpl; [|done].
  by rewrite app_nil_r.
Qed.

(** A loop that pushes [val a] under [key a] for the elements that pass a
    test. *)
Lemma foldl_push_callers {A} (test : A → bool) (key val : A → string)
    (l : list A) m k :
  appendsAt isCalledBy
    (a ← l; if test a && bool_decide (key a = k) then [val a] else [])
    m
    (foldl (λ m a, if test a then alter (push_isCalledBy (val a)) (key a) m else m)
           m l)
    k.
Proof.
  revert m. induction l as [|a l IH]; intros m.
  - by apply appendsAt_preserves.
  - rewrite bind_cons. simpl. eapply appendsAt_trans; [|apply IH].
    unfold appendsAt. destruct (test a); simpl.
    + rewrite lookup_alter. case_decide; case_bool_decide; try done; subst.
      * by destruct (m !! key a).
      * destruct (m !! k); simpl; [|done]. by rewrite app_nil_r.
    + destruct (m !! k); simpl; [|done]. by rewrite app_nil_r.
Qed.

Lemma mapSubOrchestrators_test os orch m :
  mapSubOrchestrators rx os orch m
  = foldl (λ m subOrch,
             if negb (bool_decide (fc_name orch = fc_name subOrch))
                && getCallSubOrchestratorRegex rx (fc_name subOrch) (fc_code orch)
             then alter (push_isCalledBy (fc_name orch)) (fc_name subOrch) m
             else m) m os.
Proof.
  unfold mapSubOrchestrators. revert m.
  induction os as [|subOrch os IH]; intros m; [done|]. simpl.
  rewrite IH. by destruct (bool_decide (fc_name orch = fc_name subOrch)).
Qed.

Lemma mapContinueAsNew_callers orch m :
  preserves isCalledBy m (mapContinueAsNew rx orch m).
Proof. unfold mapContinueAsNew. pass. Qed.

Lemma mapEventProducers_callers others orch m e :
  preserves isCalledBy m (mapEventProducers rx others orch m e).
Proof. unfold mapEventProducers. pass. Qed.

Lemma enrichFunction_callers m func :
  preserves isCalledBy m (enrichFunction env m func).
Proof. unfold enrichFunction. pass. Qed.

Lemma addLocation_callers m func : preserves isCalledBy m (addLocation m func).
Proof. unfold addLocation. pass. Qed.

Lemma mapOrchestrator_callers os others names orch m m' k :
  mapOrchestrator rx os others names orch m = Some m' →
  appendsAt isCalledBy (callersFromOrchestrator rx os others names k orch) m m' k.
Proof.
  unfold mapOrchestrator. intros Hrun.
  destruct (getEventNames rx (fc_code orch)) as [events|]; [|done].
  injection Hrun as <-.
  unfold callersFromOrchestrator.
  set (m1 := mapCallers rx others orch m).
  set (m2 := mapSubOrchestrators rx os orch m1).
  set (m3 := mapActivitiesToOrchestrator rx m2 orch names).
  apply (appendsAt_trans _ _ _ m m1).
  { unfold m1, mapCallers.
    apply (foldl_push_callers
             (λ func, getStartNewOrchestrationRegex rx (fc_name orch) (fc_code func))
             (λ _, fc_name orch) fc_name). }
  apply (appendsAt_trans _ _ _ m1 m2).
  { unfold m2. rewrite mapSubOrchestrators_test.
    apply (foldl_push_callers
             (λ subOrch, negb (bool_decide (fc_name orch = fc_name subOrch))
                         && getCallSubOrchestratorRegex rx (fc_name subOrch)
                              (fc_code orch))
             fc_name (λ _, fc_name orch)). }
  rewrite <-(app_nil_r (_ ≫= _)).
  apply (appendsAt_trans _ _ _ m2 m3).
  { unfold m3, mapActivitiesToOrchestrator.
    apply (foldl_push_callers
             (λ activityName, getCallActivityRegex rx activityName (fc_code orch))
             id (λ _, fc_name orch)). }
  apply appendsAt_preserves.
  eapply preserves_trans; [apply mapContinueAsNew_callers|].
  apply preserves_foldl. intros. apply mapEventProducers_callers.
Qed.

Lemma forEachO_callers os others names (l : list FunctionCode) m m' k :
  forEachO (mapOrchestrator rx os others names) l m = Some m' →
  appendsAt isCalledBy
    (orch ← l; callersFromOrchestrator rx os others names k orch) m m' k.
Proof.
  revert m m'. induction l as [|orch l IH]; intros m m2 Hrun; simpl in Hrun.
  - simplify_eq. by apply appendsAt_preserves.
  - destruct (mapOrchestrator rx os others names orch m) as [m1|] eqn:Hstep;
      [|done].
    simpl in Hrun. rewrite bind_cons.
    eapply appendsAt_trans; [by apply mapOrchestrator_callers | by apply IH].
Qed.

Lemma mapEntities_callers others (ents : list FunctionCode) m k :
  appendsAt isCalledBy (entity ← ents; callersFromEntity rx others k entity)
    m (foldl (mapEntity rx others) m ents) k.
Proof.
  revert m. induction ents as [|entity ents IH]; intros m.
  - by apply appendsAt_preserves.
  - rewrite bind_cons. simpl. eapply appendsAt_trans; [|apply IH].
    unfold mapEntity, callersFromEntity.
    apply (foldl_push_callers
             (λ func, getSignalEntityRegex rx (fc_name entity) (fc_code func))
             (λ _, fc_name entity) fc_name).
Qed.

(** Under every key, the mapping appends to [isCalledBy] exactly the callers
    of [callersOf]. *)
Lemma mapGraph_callers kind os names acts ents others m m' k :
  mapGraph rx env kind os names acts ents others m = Some m' →
  appendsAt isCalledBy (callersOf rx os others names ents k) m m' k.
Proof.
  unfold mapGraph. intros Hrun.
  destruct (forEachO _ os m) as [m1|] eqn:Hloop; [|done].
  simpl in Hrun. injection Hrun as <-.
  unfold callersOf.
  eapply appendsAt_trans; [by apply forEachO_callers|].
  rewrite <-(app_nil_r (_ ≫= _)).
  eapply appendsAt_trans; [apply mapEntities_callers|].
  apply appendsAt_preserves.
  eapply preserves_trans;
    [|apply preserves_foldl; intros; apply addLocation_callers].
  case_bool_decide; [|apply preserves_refl].
  apply preserves_foldl; intros; apply enrichFunction_callers.
Qed.

End Edges.

Section EdgeTheorems.
Context (rx : TraversalRegexes) (env : Env).
Implicit Types (functions : FunctionsMap) (lines : list string) (k : string).

Lemma appendsAt_Some {X} (proj : FunctionInfo → list X) l
    (m m' : gmap string FunctionInfo) k f :
  appendsAt proj l m m' k → m !! k = Some f →
  ∃ f', m' !! k = Some f' ∧ proj f' = proj f ++ l.
Proof.
  unfold appendsAt. intros Happ Hf. rewrite Hf in Happ.
  destruct (m' !! k) as [f'|]; simplify_eq/=. by exists f'.
Qed.

Lemma elem_of_bind_if {A B} (test : A → bool) (val : A → B) (l : list A) (x : B) :
  x ∈ (a ← l; if test a then [val a] else []) ↔
  ∃ a, a ∈ l ∧ test a = true ∧ x = val a.
Proof.
  rewrite list_elem_of_bind. split.
  - intros (a & Hx & Ha). destruct (test a) eqn:Ht.
    + apply list_elem_of_singleton in Hx. eauto.
    + by apply elem_of_nil in Hx.
  - intros (a & Ha & Ht & ->). exists a. rewrite Ht. split; [by left|done].
Qed.

Lemma elem_of_callersFromOrchestrator os others names k orch x :
  x ∈ callersFromOrchestrator rx os others names k orch ↔
  (∃ func, func ∈ others ∧ fc_name orch = k ∧ x = fc_name func ∧
           getStartNewOrchestrationRegex rx (fc_name orch) (fc_code func) = true) ∨
  (∃ subOrch, subOrch ∈ os ∧ fc_name subOrch = k ∧ x = fc_name orch ∧
              fc_name orch ≠ fc_name subOrch ∧
              getCallSubOrchestratorRegex rx (fc_name subOrch) (fc_code orch) = true) ∨
  (k ∈ names ∧ x = fc_name orch ∧ getCallActivityRegex rx k (fc_code orch) = true).
Proof.
  unfold callersFromOrchestrator.
  rewrite !elem_of_app.
  rewrite (elem_of_bind_if
             (λ func, getStartNewOrchestrationRegex rx (fc_name orch) (fc_code func)
                      && bool_decide (fc_name orch = k)) fc_name).
  rewrite (elem_of_bind_if
             (λ subOrch, negb (bool_decide (fc_name orch = fc_name subOrch))
                         && getCallSubOrchestratorRegex rx (fc_name subOrch)
                              (fc_code orch)
                         && bool_decide (fc_name subOrch = k))
             (λ _, fc_name orch)).
  rewrite (elem_of_bind_if
             (λ activityName, getCallActivityRegex rx activityName (fc_code orch)
                              && bool_decide (activityName = k))
             (λ _, fc_name orch)).
  split.
  - intros [(func & Hin & Ht & ->)|[(subOrch & Hin & Ht & ->)|(a & Hin & Ht & ->)]].
    + apply andb_true_iff in Ht as [Ht Hk%bool_decide_eq_true]. left. eauto 10.
    + apply andb_true_iff in Ht as [Ht Hk%bool_decide_eq_true].
      apply andb_true_iff in Ht as [Hne%negb_true_iff%bool_decide_eq_false Ht].
      right; left. eauto 10.
    + apply andb_true_iff in Ht as [Ht Hk%bool_decide_eq_true]. subst.
      right; right. eauto.
  - intros [(func & Hin & Hk & -> & Ht)|[(subOrch & Hin & Hk & -> & Hne & Ht)
                                         |(Hin & -> & Ht)]].
    + left. exists func. by rewrite Ht, bool_decide_true.
    + right; left. exists subOrch. simpl.
      by rewrite (bool_decide_false _ Hne), Ht, (bool_decide_true _ Hk).
    + right; right. exists k. by rewrite Ht, bool_decide_true.
Qed.

Lemma elem_of_callersFromEntity others k entity x :
  x ∈ callersFromEntity rx others k entity ↔
  ∃ func, func ∈ others ∧ fc_name entity = k ∧ x = fc_name func ∧
          getSignalEntityRegex rx (fc_name entity) (fc_code func) = true.
Proof.
  unfold callersFromEntity.
  rewrite (elem_of_bind_if
             (λ func, getSignalEntityRegex rx (fc_name entity) (fc_code func)
                      && bool_decide (fc_name entity = k)) fc_name).
  split.
  - intros (func & Hin & Ht & ->).
    apply andb_true_iff in Ht as [Ht Hk%bool_decide_eq_true]. eauto 10.
  - intros (func & Hin & Hk & -> & Ht). exists func.
    by rewrite Ht, bool_decide_true.
Qed.

Lemma elem_of_callersOf os others names ents k x :
  x ∈ callersOf rx os others names ents k ↔
  (∃ orch, orch ∈ os ∧ x ∈ callersFromOrchestrator rx os others names k orch) ∨
  (∃ entity, entity ∈ ents ∧ x ∈ callersFromEntity rx others k entity).
Proof.
  unfold callersOf. rewrite elem_of_app, !list_elem_of_bind.
  split; (intros [(y & ? & ?)|(y & ? & ?)]; [left|right]; eauto).
Qed.

(** A name of the list of the others has none of the three triggers. *)
Lemma other_has_no_trigger functions n t :
  n ∈ otherFunctionNamesOf functions → t ∈ triggerTypes →
  hasBinding (fo_map functions) t n = false.
Proof.
  unfold otherFunctionNamesOf. rewrite elem_of_filter_bool.
  rewrite negb_true_iff, hasAnyTrigger_orb. intros [Hany _] Ht.
  apply orb_false_iff in Hany as [Hany He].
  apply orb_false_iff in Hany as [Ho Ha].
  unfold triggerTypes in Ht.
  rewrite !elem_of_cons, elem_of_nil in Ht.
  by destruct Ht as [->|[->|[->|[]]]].
Qed.

Lemma orchestrator_not_other functions n :
  n ∈ orchestratorNamesOf functions → n ∈ otherFunctionNamesOf functions → False.
Proof.
  unfold orchestratorNamesOf. rewrite elem_of_filter_bool. intros [Hb _] Hother.
  rewrite (other_has_no_trigger functions n "orchestrationTrigger") in Hb; [done..|].
  unfold triggerTypes. rewrite !elem_of_cons. auto.
Qed.

Lemma activity_not_other functions n :
  n ∈ activityNamesOf functions → n ∈ otherFunctionNamesOf functions → False.
Proof.
  unfold activityNamesOf. rewrite elem_of_filter_bool. intros [Hb _] Hother.
  rewrite (other_has_no_trigger functions n "activityTrigger") in Hb; [done..|].
  unfold triggerTypes. rewrite !elem_of_cons. auto.
Qed.

Lemma entity_not_other functions n :
  n ∈ entityNamesOf functions → n ∈ otherFunctionNamesOf functions → False.
Proof.
  unfold entityNamesOf. rewrite elem_of_filter_bool. intros [Hb _] Hother.
  rewrite (other_has_no_trigger functions n "entityTrigger") in Hb; [done..|].
  unfold triggerTypes. rewrite !elem_of_cons. auto.
Qed.

(** The result of the mapping, with the three facts the edge theorems
    start from. *)
Lemma mapping_result functions pf hf lines :
  advances (waitForExternalEventRegex rx) → answers env pf hf →
  ∃ m',
    mapOrchestratorsAndActivitiesAsync rx env functions pf hf lines
    = (Ok (mkFunctionsMap (fo_keys functions) m'), lines) ∧
    mapGraph rx env (projectKindOf env pf)
      (orchestratorsOf env pf hf functions) (activityNamesOf functions)
      (activitiesOf env pf hf functions) (entitiesOf env pf hf functions)
      (otherFunctionsOf env pf hf functions) (fo_map functions) = Some m'.
Proof.
  intros Hadv Hans.
  destruct (mapOrchestratorsAndActivitiesAsync_run rx env functions pf hf lines
              Hadv Hans) as (m' & Hgraph & Hrun).
  by exists m'.
Qed.

End EdgeTheorems.

(** ** Sample machines *)

Lemma machine_answers mc pf hf : answers (machineEnv mc) pf hf.
Proof.
  split; [by eexists|]. split; [by eexists|].
  intros kind n. destruct kind; simpl; repeat case_bool_decide; by eexists.
Qed.

Lemma flow_wf : wfFunctionsMap flowFunctions.
Proof. unfold flowFunctions. do 6 apply wf_setFunction. apply wf_emptyFunctions. Qed.

(** ** The edges of the call graph *)

Section CallGraph.
Context (rx : TraversalRegexes) (env : Env).
Implicit Types (functions : FunctionsMap) (lines : list string) (k : string).

(** X1.  Under every key the mapping appends to [isCalledBy] exactly the
    callers of [callersOf], in this order: orchestrator by orchestrator, the
    starters of the orchestrator, the orchestrator as caller of its
    sub-orchestrators, the orchestrator as caller of its activities; then,
    entity by entity, the functions that signal the entity. *)
Theorem caller_lists_exact functions pf hf lines
    (Hadv : advances (waitForExternalEventRegex rx))
    (Hans : answers env pf hf) :
  ∃ result,
    mapOrchestratorsAndActivitiesAsync rx env functions pf hf lines
    = (Ok result, lines) ∧
    ∀ k, isCalledBy <$> fo_map result !! k
         = (λ f, isCalledBy f ++
                 callersOf rx (orchestratorsOf env pf hf functions)
                   (otherFunctionsOf env pf hf functions) (activityNamesOf functions)
                   (entitiesOf env pf hf functions) k)
             <$> fo_map functions !! k.
Proof.
  destruct (mapping_result rx env functions pf hf lines Hadv Hans)
    as (m' & Hrun & Hgraph).
  eexists. split; [exact Hrun|]. intros k. simpl.
  exact (mapGraph_callers rx env _ _ _ _ _ _ _ _ k Hgraph).
Qed.

(** X2.  When the start-new-orchestration pattern for the name of an
    orchestrator (whose code was found) matches in the code of a function
    without durable trigger, that function is among the callers appended to
    the orchestrator's [isCalledBy]. *)
Theorem start_new_edge functions pf hf lines orch func
    (Hadv : advances (waitForExternalEventRegex rx))
    (Hans : answers env pf hf)
    (Horch : orch ∈ orchestratorsOf env pf hf functions)
    (Hfunc : func ∈ otherFunctionsOf env pf hf functions)
    (Hstart : getStartNewOrchestrationRegex rx (fc_name orch) (fc_code func) = true) :
  ∃ result f f' appendedCallers,
    mapOrchestratorsAndActivitiesAsync rx env functions pf hf lines
    = (Ok result, lines) ∧
    fo_map functions !! fc_name orch = Some f ∧
    fo_map result !! fc_name orch = Some f' ∧
    isCalledBy f' = isCalledBy f ++ appendedCallers ∧
    fc_name func ∈ appendedCallers.
Proof.
  destruct (mapping_result rx env functions pf hf lines Hadv Hans)
    as (m' & Hrun & Hgraph).
  pose proof Horch as [Hname _]%elem_of_codesOf.
  apply elem_of_filter_bool in Hname as [Hb _].
  destruct (hasBinding_is_Some _ _ _ Hb) as [f Hf].
  destruct (appendsAt_Some _ _ _ _ _ _
              (mapGraph_callers rx env _ _ _ _ _ _ _ _ (fc_name orch) Hgraph) Hf)
    as (f' & Hf' & Hl).
  eexists _, f, f', _. split; [exact Hrun|]. split; [done|]. split; [exact Hf'|].
  split; [exact Hl|].
  apply elem_of_callersOf. left. exists orch. split; [done|].
  apply elem_of_callersFromOrchestrator. left. eauto 10.
Qed.

(** X3.  When the call-sub-orchestrator pattern for the name of one
    orchestrator matches in the code of another one (another name), the
    caller is among the callers appended to the [isCalledBy] of the called. *)
Theorem sub_orchestrator_edge functions pf hf lines orch subOrch
    (Hadv : advances (waitForExternalEventRegex rx))
    (Hans : answers env pf hf)
    (Horch : orch ∈ orchestratorsOf env pf hf functions)
    (Hsub : subOrch ∈ orchestratorsOf env pf hf functions)
    (Hne : fc_name orch ≠ fc_name subOrch)
    (Hcall : getCallSubOrchestratorRegex rx (fc_name subOrch) (fc_code orch) = true) :
  ∃ result f f' appendedCallers,
    mapOrchestratorsAndActivitiesAsync rx env functions pf hf lines
    = (Ok result, lines) ∧
    fo_map functions !! fc_name subOrch = Some f ∧
    fo_map result !! fc_name subOrch = Some f' ∧
    isCalledBy f' = isCalledBy f ++ appendedCallers ∧
    fc_name orch ∈ appendedCallers.
Proof.
  destruct (mapping_result rx env functions pf hf lines Hadv Hans)
    as (m' & Hrun & Hgraph).
  pose proof Hsub as [Hname _]%elem_of_codesOf.
  apply elem_of_filter_bool in Hname as [Hb _].
  destruct (hasBinding_is_Some _ _ _ Hb) as [f Hf].
  destruct (appendsAt_Some _ _ _ _ _ _
              (mapGraph_callers rx env _ _ _ _ _ _ _ _ (fc_name subOrch) Hgraph) Hf)
    as (f' & Hf' & Hl).
  eexists _, f, f', _. split; [exact Hrun|]. split; [done|]. split; [exact Hf'|].
  split; [exact Hl|].
  apply elem_of_callersOf. left. exists orch. split; [done|].
  apply elem_of_callersFromOrchestrator. right; left. eauto 10.
Qed.

(** X4.  When the signal-entity pattern for the name of an entity (whose
    code was found) matches in the code of a function without durable
    trigger, that function is among the callers appended to the entity's
    [isCalledBy]. *)
Theorem signal_entity_edge functions pf hf lines entity func
    (Hadv : advances (waitForExternalEventRegex rx))
    (Hans : answers env pf hf)
    (Hentity : entity ∈ entitiesOf env pf hf functions)
    (Hfunc : func ∈ otherFunctionsOf env pf hf functions)
    (Hsignal : getSignalEntityRegex rx (fc_name entity) (fc_code func) = true) :
  ∃ result f f' appendedCallers,
    mapOrchestratorsAndActivitiesAsync rx env functions pf hf lines
    = (Ok result, lines) ∧
    fo_map functions !! fc_name entity = Some f ∧
    fo_map result !! fc_name entity = Some f' ∧
    isCalledBy f' = isCalledBy f ++ appendedCallers ∧
    fc_name func ∈ appendedCallers.
Proof.
  destruct (mapping_result rx env functions pf hf lines Hadv Hans)
    as (m' & Hrun & Hgraph).
  pose proof Hentity as [Hname _]%elem_of_codesOf.
  apply elem_of_filter_bool in Hname as [Hb _].
  destruct (hasBinding_is_Some _ _ _ Hb) as [f Hf].
  destruct (appendsAt_Some _ _ _ _ _ _
              (mapGraph_callers rx env _ _ _ _ _ _ _ _ (fc_name entity) Hgraph) Hf)
    as (f' & Hf' & Hl).
  eexists _, f, f', _. split; [exact Hrun|]. split; [done|]. split; [exact Hf'|].
  split; [exact Hl|].
  apply elem_of_callersOf. right. exists entity. split; [done|].
  apply elem_of_callersFromEntity. eauto 10.
Qed.

(** X5.  The mapping lists a function as its own caller only when the
    function is at once an orchestrator and an activity and the call-activity
    pattern for its name matches in its own code: a sub-orchestration of
    oneself is skipped, and starters and signallers have no durable trigger. *)
Theorem self_caller_only_as_activity functions pf hf lines result k f f' appendedCallers
    (Hadv : advances (waitForExternalEventRegex rx))
    (Hans : answers env pf hf)
    (Hrun : mapOrchestratorsAndActivitiesAsync rx env functions pf hf lines
            = (Ok result, lines))
    (Hf : fo_map functions !! k = Some f)
    (Hf' : fo_map result !! k = Some f')
    (Hl : isCalledBy f' = isCalledBy f ++ appendedCallers)
    (Hself : k ∈ appendedCallers) :
  k ∈ activityNamesOf functions ∧
  ∃ orch, orch ∈ orchestratorsOf env pf hf functions ∧ fc_name orch = k ∧
          getCallActivityRegex rx k (fc_code orch) = true.
Proof.
  destruct (mapping_result rx env functions pf hf lines Hadv Hans)
    as (m' & Hrun' & Hgraph).
  rewrite Hrun' in Hrun. simplify_eq. simpl in Hf'.
  destruct (appendsAt_Some _ _ _ _ _ _
              (mapGraph_callers rx env _ _ _ _ _ _ _ _ k Hgraph) Hf)
    as (f'' & Hf'' & Hl').
  rewrite Hf' in Hf''. simplify_eq. rewrite Hl in Hl'.
  apply app_inv_head in Hl'. subst appendedCallers.
  apply elem_of_callersOf in Hself
    as [(orch & Horch & Hself)|(entity & Hentity & Hself)].
  - apply elem_of_callersFromOrchestrator in Hself
      as [(func & Hfunc & Hk & Hx & _)|[(subOrch & Hsub & Hk & Hx & Hne & _)
                                        |(Hin & Hx & Hcall)]].
    + exfalso. apply (orchestrator_not_other functions k).
      * apply elem_of_codesOf in Horch as [Horch _]. by rewrite <-Hk.
      * apply elem_of_codesOf in Hfunc as [Hfunc _]. by rewrite Hx.
    + congruence.
    + split; [done|]. eauto.
  - apply elem_of_callersFromEntity in Hself as (func & Hfunc & Hk & Hx & _).
    exfalso. apply (entity_not_other functions k).
    + apply elem_of_codesOf in Hentity as [Hentity _]. by rewrite <-Hk.
    + apply elem_of_codesOf in Hfunc as [Hfunc _]. by rewrite Hx.
Qed.

End CallGraph.

(** *** The edges of the flow project *)

Lemma caller_lists_exact_witness :
  ∃ result,
    mapOrchestratorsAndActivitiesAsync sampleRegexes (machineEnv flowMachine)
      flowFunctions "flow" "flow" [] = (Ok result, []) ∧
    isCalledBy <$> fo_map result !! "Main" = Some ["Client"] ∧
    isCalledBy <$> fo_map result !! "Work" = Some ["Child"].
Proof.
  destruct (caller_lists_exact sampleRegexes (machineEnv flowMachine) flowFunctions
              "flow" "flow" [] sample_advances (machine_answers _ _ _))
    as (result & Hrun & Hcallers).
  exists result. split; [exact Hrun|].
  rewrite (Hcallers "Main"), (Hcallers "Work"). split; reflexivity.
Defined.

Lemma start_new_edge_witness :
  ∃ result f',
    mapOrchestratorsAndActivitiesAsync sampleRegexes (machineEnv flowMachine)
      flowFunctions "flow" "flow" [] = (Ok result, []) ∧
    fo_map result !! "Main" = Some f' ∧ "Client" ∈ isCalledBy f'.
Proof.
  assert (flowMain ∈ orchestratorsOf (machineEnv flowMachine) "flow" "flow"
                       flowFunctions) as Horch by by_computing.
  assert (flowClient ∈ otherFunctionsOf (machineEnv flowMachine) "flow" "flow"
                         flowFunctions) as Hfunc by by_computing.
  destruct (start_new_edge sampleRegexes (machineEnv flowMachine) flowFunctions
              "flow" "flow" [] flowMain flowClient sample_advances
              (machine_answers _ _ _) Horch Hfunc eq_refl)
    as (result & f & f' & l & Hrun & Hf & Hf' & Hl & Hin).
  exists result, f'. split; [exact Hrun|]. split; [exact Hf'|].
  rewrite Hl. apply elem_of_app. by right.
Defined.

Lemma sub_orchestrator_edge_witness :
  ∃ result f',
    mapOrchestratorsAndActivitiesAsync sampleRegexes (machineEnv flowMachine)
      flowFunctions "flow" "flow" [] = (Ok result, []) ∧
    fo_map result !! "Child" = Some f' ∧ "Main" ∈ isCalledBy f'.
Proof.
  assert (flowMain ∈ orchestratorsOf (machineEnv flowMachine) "flow" "flow"
                       flowFunctions) as Horch by by_computing.
  assert (flowChild ∈ orchestratorsOf (machineEnv flowMachine) "flow" "flow"
                        flowFunctions) as Hsub by by_computing.
  assert (fc_name flowMain ≠ fc_name flowChild) as Hne by discriminate.
  destruct (sub_orchestrator_edge sampleRegexes (machineEnv flowMachine)
              flowFunctions "flow" "flow" [] flowMain flowChild sample_advances
              (machine_answers _ _ _) Horch Hsub Hne eq_refl)
    as (result & f & f' & l & Hrun & Hf & Hf' & Hl & Hin).
  exists result, f'. split; [exact Hrun|]. split; [exact Hf'|].
  rewrite Hl. apply elem_of_app. by right.
Defined.

Lemma signal_entity_edge_witness :
  ∃ result f',
    mapOrchestratorsAndActivitiesAsync sampleRegexes (machineEnv flowMachine)
      flowFunctions "flow" "flow" [] = (Ok result, []) ∧
    fo_map result !! "Counter" = Some f' ∧ "Client" ∈ isCalledBy f'.
Proof.
  assert (flowCounter ∈ entitiesOf (machineEnv flowMachine) "flow" "flow"
                          flowFunctions) as Hentity by by_computing.
  assert (flowClient ∈ otherFunctionsOf (machineEnv flowMachine) "flow" "flow"
                         flowFunctions) as Hfunc by by_computing.
  destruct (signal_entity_edge sampleRegexes (machineEnv flowMachine) flowFunctions
              "flow" "flow" [] flowCounter flowClient sample_advances
              (machine_answers _ _ _) Hentity Hfunc eq_refl)
    as (result & f & f' & l & Hrun & Hf & Hf' & Hl & Hin).
  exists result, f'. split; [exact Hrun|]. split; [exact Hf'|].
  rewrite Hl. apply elem_of_app. by right.
Defined.

Lemma self_caller_only_as_activity_witness :
  "Both" ∈ activityNamesOf flowFunctions ∧
  ∃ orch, orch ∈ orchestratorsOf (machineEnv flowMachine) "flow" "flow" flowFunctions ∧
          fc_name orch = "Both" ∧
          getCallActivityRegex sampleRegexes "Both" (fc_code orch) = true.
Proof.
  destruct (mapOrchestratorsAndActivitiesAsync sampleRegexes (machineEnv flowMachine)
              flowFunctions "flow" "flow" []) as [[result| |] lines] eqn:Hrun;
    try (vm_compute in Hrun; discriminate).
  assert (lines = []) as -> by (vm_compute in Hrun; congruence).
  assert (fo_map result !! "Both"
          = Some (mkFunctionInfo [orchestrationTrigger; activityTrigger] ["Both"] []
                    None (Some "flow/Both/index.js") (Some 0) (Some 1))) as Hf'
    by (vm_compute in Hrun; simplify_eq; reflexivity).
  apply (self_caller_only_as_activity sampleRegexes (machineEnv flowMachine)
           flowFunctions "flow" "flow" [] result "Both"
           (newFunction [orchestrationTrigger; activityTrigger]) _ ["Both"]
           sample_advances (machine_answers _ _ _) Hrun eq_refl Hf' eq_refl).
  by left.
Defined.

(** ** What the mapping leaves alone *)

Section Untouched.
Context (rx : TraversalRegexes) (env : Env).
Implicit Types (functions : FunctionsMap) (lines : list string) (k : string).
Implicit Types (m : gmap string FunctionInfo).

(** A property that the three writes of the loop over the orchestrators
    leave alone is left alone by the loop. *)
Lemma forEachO_preserves {X} (proj : FunctionInfo → X) os others names
    (l : list FunctionCode) m m' :
  (∀ x f, proj (push_isCalledBy x f) = proj f) →
  (∀ s f, proj (push_isSignalledBy s f) = proj f) →
  (∀ f, proj (set_isCalledByItself f) = proj f) →
  forEachO (mapOrchestrator rx os others names) l m = Some m' →
  preserves proj m m'.
Proof.
  intros Hcall Hsig Hself. revert m m'.
  induction l as [|orch l IH]; intros m m2 Hrun; simpl in Hrun.
  - simplify_eq. apply preserves_refl.
  - destruct (mapOrchestrator rx os others names orch m) as [m1|] eqn:Hstep;
      [|done].
    simpl in Hrun. eapply preserves_trans; [|by apply IH].
    unfold mapOrchestrator in Hstep.
    destruct (getEventNames rx (fc_code orch)) as [events|]; [|done].
    injection Hstep as <-.
    eapply preserves_trans; [|apply preserves_foldl; intros m0 e;
      unfold mapEventProducers; apply preserves_foldl; intros;
      case_match; [by apply preserves_alter|apply preserves_refl]].
    eapply preserves_trans; [|unfold mapContinueAsNew;
      case_match; [by apply preserves_alter|apply preserves_refl]].
    eapply preserves_trans; [|unfold mapActivitiesToOrchestrator;
      apply preserves_foldl; intros;
      case_match; [by apply preserves_alter|apply preserves_refl]].
    eapply preserves_trans; [|unfold mapSubOrchestrators;
      apply preserves_foldl; intros;
      repeat case_match; try apply preserves_refl; by apply preserves_alter].
    unfold mapCallers. apply preserves_foldl; intros.
    case_match; [by apply preserves_alter|apply preserves_refl].
Qed.

Lemma mapEntities_preserves {X} (proj : FunctionInfo → X) others
    (ents : list FunctionCode) m :
  (∀ x f, proj (push_isCalledBy x f) = proj f) →
  preserves proj m (foldl (mapEntity rx others) m ents).
Proof.
  intros Hcall. apply preserves_foldl. intros. unfold mapEntity.
  apply preserves_foldl; intros.
  case_match; [by apply preserves_alter|apply preserves_refl].
Qed.

Lemma addLocations_location (l : list FunctionCode) m k :
  location <$> foldl addLocation m l !! k
  = (λ f, match locationOf l k with
          | Some func => locationIn func
          | None => location f
          end) <$> m !! k.
Proof.
  unfold locationOf. induction l as [|func l IH] using rev_ind.
  - simpl. by destruct (m !! k).
  - rewrite foldl_app, filter_app. simpl. unfold addLocation at 1.
    rewrite lookup_alter. case_decide as Hk.
    + rewrite filter_cons_True, filter_nil, last_snoc by done. subst.
      specialize (IH). destruct (foldl addLocation m l !! fc_name func) as [f1|],
        (m !! fc_name func) as [f|]; simplify_eq/=; done.
    + rewrite filter_cons_False, filter_nil, app_nil_r by done. exact IH.
Qed.

Lemma mapGraph_location kind os names acts ents others m m' k :
  mapGraph rx env kind os names acts ents others m = Some m' →
  location <$> m' !! k
  = (λ f, match locationOf (others ++ os ++ acts ++ ents) k with
          | Some func => locationIn func
          | None => location f
          end) <$> m !! k.
Proof.
  unfold mapGraph. intros Hrun.
  destruct (forEachO _ os m) as [m1|] eqn:Hloop; [|done].
  simpl in Hrun. injection Hrun as <-.
  rewrite addLocations_location.
  assert (location <$> (if bool_decide (kind = dotNet)
                        then foldl (enrichFunction env)
                               (foldl (mapEntity rx others) m1 ents) (acts ++ others)
                        else foldl (mapEntity rx others) m1 ents) !! k
          = location <$> m !! k) as Hbefore.
  { transitivity (location <$> foldl (mapEntity rx others) m1 ents !! k).
    - case_bool_decide; [|done].
      apply preserves_foldl. intros. unfold enrichFunction.
      apply preserves_alter. by intros [].
    - rewrite (mapEntities_preserves location others ents m1) by by intros ? [].
      by apply (forEachO_preserves location _ _ _ _ _ _
                  ltac:(by intros ? []) ltac:(by intros ? []) ltac:(by intros [])
                  Hloop). }
  destruct (_ !! k) as [f1|], (m !! k) as [f|]; try done.
  simpl. f_equal. destruct (locationOf _ k); [done|].
  simpl in Hbefore. unfold location in *. congruence.
Qed.

(** Every code of the four arrays stored under [k] is the one code found
    for [k]. *)
Lemma locationOf_codes functions pf hf k :
  k ∈ fo_keys functions →
  locationOf (otherFunctionsOf env pf hf functions
              ++ orchestratorsOf env pf hf functions
              ++ activitiesOf env pf hf functions
              ++ entitiesOf env pf hf functions) k
  = codeOf env (projectKindOf env pf) pf hf k.
Proof.
  intros Hk. unfold locationOf.
  set (l := _ ++ _ ++ _ ++ _).
  assert (∀ func, func ∈ l →
            codeOf env (projectKindOf env pf) pf hf (fc_name func) = Some func)
    as Hcodes.
  { intros func. unfold l. rewrite !elem_of_app.
    unfold otherFunctionsOf, orchestratorsOf, activitiesOf, entitiesOf.
    rewrite !elem_of_codesOf. tauto. }
  destruct (last (filter (λ func, fc_name func = k) l)) as [func|] eqn:Hlast.
  - apply last_Some_elem_of, list_elem_of_filter in Hlast as [<- Hin].
    symmetry. by apply Hcodes.
  - apply last_None in Hlast.
    destruct (codeOf env (projectKindOf env pf) pf hf k) as [func|] eqn:Hcode;
      [|done].
    exfalso. apply (filter_nil_not_elem_of _ _ func Hlast).
    + by apply (codeOf_name env) in Hcode.
    + unfold l. rewrite !elem_of_app.
      unfold otherFunctionsOf, orchestratorsOf, activitiesOf, entitiesOf.
      rewrite !elem_of_codesOf, (codeOf_name env _ _ _ _ _ Hcode).
      unfold orchestratorNamesOf, activityNamesOf, entityNamesOf,
        otherFunctionNamesOf.
      rewrite !elem_of_filter_bool, hasAnyTrigger_orb.
      destruct (hasBinding _ "orchestrationTrigger" k),
        (hasBinding _ "activityTrigger" k), (hasBinding _ "entityTrigger" k);
        simpl; tauto.
Qed.

End Untouched.

(** ** What the mapping changes and what it keeps *)

Section MappingFrame.
Context (rx : TraversalRegexes) (env : Env).
Implicit Types (functions : FunctionsMap) (lines : list string) (k : string).

Lemma not_in_orchestrators functions pf hf k :
  k ∈ otherFunctionNamesOf functions →
  k ∉ fc_name <$> orchestratorsOf env pf hf functions.
Proof.
  intros Hk (orch & -> & [Horch _]%elem_of_codesOf)%list_elem_of_fmap.
  by apply (orchestrator_not_other functions (fc_name orch)).
Qed.

Lemma foldl_skip {A B} (test : B → bool) (step : A → B → A) (l : list B) a :
  (∀ b, b ∈ l → test b = false) →
  foldl (λ a b, if test b then step a b else a) a l = a.
Proof.
  induction l as [|b l IH]; intros Hl; simpl; [done|].
  rewrite Hl by left. apply IH. intros b' Hb'. apply Hl. by right.
Qed.

Lemma enrichBindings_prefix d c :
  (type <$> d) `prefix_of` (type <$> enrichBindings d c).
Proof.
  rewrite enrichBindings_types, pushExtracted_filter, fmap_app.
  by apply prefix_app_r.
Qed.

Lemma enrichments_prefix (test : FunctionCode → bool) (l : list FunctionCode) d :
  (type <$> d)
    `prefix_of`
  (type <$> foldl (λ bs func,
                     if test func
                     then enrichBindings bs (tryExtractBindings env (fc_code func))
                     else bs) d l).
Proof.
  revert d. induction l as [|func l IH]; intros d; simpl; [done|].
  etrans; [|apply IH]. destruct (test func); [apply enrichBindings_prefix|done].
Qed.

(** X6.  A function without durable trigger gets no edge: the mapping
    leaves its [isCalledBy], its [isSignalledBy] and its [isCalledByItself]
    as they were. *)
Theorem no_trigger_no_edges functions pf hf lines k
    (Hadv : advances (waitForExternalEventRegex rx))
    (Hans : answers env pf hf)
    (Hk : k ∈ otherFunctionNamesOf functions) :
  ∃ result,
    mapOrchestratorsAndActivitiesAsync rx env functions pf hf lines
    = (Ok result, lines) ∧
    isCalledBy <$> fo_map result !! k = isCalledBy <$> fo_map functions !! k ∧
    isSignalledBy <$> fo_map result !! k = isSignalledBy <$> fo_map functions !! k ∧
    isCalledByItself <$> fo_map result !! k
    = isCalledByItself <$> fo_map functions !! k.
Proof.
  destruct (mapping_result rx env functions pf hf lines Hadv Hans)
    as (m' & Hrun & Hgraph).
  eexists. split; [exact Hrun|]. simpl. split; [|split].
  - rewrite (mapGraph_callers rx env _ _ _ _ _ _ _ _ k Hgraph).
    assert (callersOf rx (orchestratorsOf env pf hf functions)
              (otherFunctionsOf env pf hf functions) (activityNamesOf functions)
              (entitiesOf env pf hf functions) k = []) as ->.
    { apply elem_of_nil_inv. intros x.
      rewrite elem_of_callersOf.
      intros [(orch & Horch & Hx)|(entity & Hentity & Hx)].
      - apply elem_of_codesOf in Horch as [Horch _].
        apply elem_of_callersFromOrchestrator in Hx
          as [(func & _ & Hname & _)|[(subOrch & Hsub & Hname & _)|(Hact & _)]].
        + apply (orchestrator_not_other functions k); [by rewrite <-Hname|done].
        + apply elem_of_codesOf in Hsub as [Hsub _].
          apply (orchestrator_not_other functions k); [by rewrite <-Hname|done].
        + by apply (activity_not_other functions k).
      - apply elem_of_codesOf in Hentity as [Hentity _].
        apply elem_of_callersFromEntity in Hx as (func & _ & Hname & _).
        apply (entity_not_other functions k); [by rewrite <-Hname|done]. }
    destruct (fo_map functions !! k); simpl; [|done]. by rewrite app_nil_r.
  - rewrite (mapGraph_signals rx env _ _ _ _ _ _ _ _ k Hgraph).
    rewrite signalsOf_absent by by apply not_in_orchestrators.
    destruct (fo_map functions !! k); simpl; [|done]. by rewrite app_nil_r.
  - rewrite (mapGraph_itself rx env _ _ _ _ _ _ _ _ k Hgraph).
    destruct (continuesAsNew rx k _) eqn:Hc; [|done].
    apply continuesAsNew_true in Hc as (orch & Horch & Hname & _).
    exfalso. apply (not_in_orchestrators functions pf hf k Hk).
    apply list_elem_of_fmap. eauto.
Qed.

(** X7.  The mapping neither adds nor removes a function and only adds to
    what it knows of one: the keys and their order stay, and in every entry
    the old [isCalledBy] and [isSignalledBy] are prefixes of the new ones, an
    [isCalledByItself] that was [true] stays [true], and the types of the old
    bindings are a prefix of the types of the new ones. *)
Theorem mapping_only_adds functions pf hf lines
    (Hadv : advances (waitForExternalEventRegex rx))
    (Hans : answers env pf hf) :
  ∃ result,
    mapOrchestratorsAndActivitiesAsync rx env functions pf hf lines
    = (Ok result, lines) ∧
    fo_keys result = fo_keys functions ∧
    (∀ k, is_Some (fo_map result !! k) ↔ is_Some (fo_map functions !! k)) ∧
    (wfFunctionsMap functions → wfFunctionsMap result) ∧
    ∀ k f, fo_map functions !! k = Some f →
      ∃ f', fo_map result !! k = Some f' ∧
            isCalledBy f `prefix_of` isCalledBy f' ∧
            isSignalledBy f `prefix_of` isSignalledBy f' ∧
            (isCalledByItself f = Some true → isCalledByItself f' = Some true) ∧
            (type <$> bindings f) `prefix_of` (type <$> bindings f').
Proof.
  destruct (mapping_result rx env functions pf hf lines Hadv Hans)
    as (m' & Hrun & Hgraph).
  eexists. split; [exact Hrun|]. simpl.
  assert (∀ k, is_Some (m' !! k) ↔ is_Some (fo_map functions !! k)) as Hdom.
  { intros k. rewrite <-!(fmap_is_Some isCalledByItself).
    rewrite (mapGraph_itself rx env _ _ _ _ _ _ _ _ k Hgraph).
    by rewrite !fmap_is_Some. }
  split; [done|]. split; [exact Hdom|]. split.
  { intros [Hnd Hkeys]. split; [done|]. intros k. simpl. by rewrite Hdom. }
  intros k f Hf.
  destruct (proj2 (Hdom k)) as [f' Hf']; [by eexists|].
  exists f'. split; [done|].
  pose proof (mapGraph_callers rx env _ _ _ _ _ _ _ _ k Hgraph) as Hcallers.
  pose proof (mapGraph_signals rx env _ _ _ _ _ _ _ _ k Hgraph) as Hsignals.
  pose proof (mapGraph_itself rx env _ _ _ _ _ _ _ _ k Hgraph) as Hitself.
  pose proof (mapGraph_bindings rx env _ _ _ _ _ _ _ _ k Hgraph) as Hbindings.
  unfold appendsAt in Hcallers.
  rewrite Hf, Hf' in Hcallers, Hsignals, Hitself, Hbindings.
  simpl in *. simplify_eq.
  split; [rewrite Hcallers; by apply prefix_app_r|].
  split; [rewrite Hsignals; by apply prefix_app_r|].
  split.
  - rewrite Hitself. by destruct (continuesAsNew rx k _).
  - rewrite Hbindings. case_bool_decide; [|done]. apply enrichments_prefix.
Qed.

Lemma no_code_not_in_codes pf hf (names : list string) k :
  codeOf env (projectKindOf env pf) pf hf k = None →
  ∀ func, func ∈ codesOf env (projectKindOf env pf) pf hf names → fc_name func ≠ k.
Proof.
  intros Hnone func [_ Hcode]%elem_of_codesOf Hname.
  rewrite Hname in Hcode. congruence.
Qed.

(** X8.  After the mapping a function whose file was found has the
    file's path as [filePath], the position reported for the match as [pos]
    (0 when none was reported) and, as [lineNr], the line of that position in
    the whole text of the file; a function whose file was not found keeps
    the three as they were. *)
Theorem location_from_file functions pf hf lines k
    (Hadv : advances (waitForExternalEventRegex rx))
    (Hans : answers env pf hf)
    (Hk : k ∈ fo_keys functions) :
  ∃ result,
    mapOrchestratorsAndActivitiesAsync rx env functions pf hf lines
    = (Ok result, lines) ∧
    (∀ m, findFunctionFile env (projectKindOf env pf) pf hf k = Ok (Some m) →
          location <$> fo_map result !! k
          = (λ _, (Some (fm_filePath m), Some (default 0 (fm_pos m)),
                   Some (posToLineNr env (fm_code m) (default 0 (fm_pos m)))))
              <$> fo_map functions !! k) ∧
    (findFunctionFile env (projectKindOf env pf) pf hf k = Ok None →
     location <$> fo_map result !! k = location <$> fo_map functions !! k).
Proof.
  destruct (mapping_result rx env functions pf hf lines Hadv Hans)
    as (m' & Hrun & Hgraph).
  eexists. split; [exact Hrun|]. simpl.
  rewrite (mapGraph_location rx env _ _ _ _ _ _ _ _ k Hgraph).
  rewrite (locationOf_codes env functions pf hf k Hk). unfold codeOf.
  split.
  - intros m ->. done.
  - intros ->. by destruct (fo_map functions !! k).
Qed.

(** X9.  A function whose file was not found keeps its bindings, its
    [isSignalledBy], its [isCalledByItself] and its location; the only callers
    it can get are the orchestrators whose code matches the call-activity
    pattern for its name, and only if it is an activity. *)
Theorem function_without_code functions pf hf lines k f
    (Hadv : advances (waitForExternalEventRegex rx))
    (Hans : answers env pf hf)
    (Hf : fo_map functions !! k = Some f)
    (Hnone : findFunctionFile env (projectKindOf env pf) pf hf k = Ok None) :
  ∃ result appendedCallers,
    mapOrchestratorsAndActivitiesAsync rx env functions pf hf lines
    = (Ok result, lines) ∧
    fo_map result !! k
    = Some (mkFunctionInfo (bindings f) (isCalledBy f ++ appendedCallers)
                           (isSignalledBy f) (isCalledByItself f)
                           (filePath f) (pos f) (lineNr f)) ∧
    ∀ x, x ∈ appendedCallers ↔
         k ∈ activityNamesOf functions ∧
         ∃ orch, orch ∈ orchestratorsOf env pf hf functions ∧ x = fc_name orch ∧
                 getCallActivityRegex rx k (fc_code orch) = true.
Proof.
  destruct (mapping_result rx env functions pf hf lines Hadv Hans)
    as (m' & Hrun & Hgraph).
  assert (codeOf env (projectKindOf env pf) pf hf k = None) as Hcode
    by (unfold codeOf; by rewrite Hnone).
  pose proof (no_code_not_in_codes pf hf) as Hnot.
  pose proof (mapGraph_callers rx env _ _ _ _ _ _ _ _ k Hgraph) as Hcallers.
  pose proof (mapGraph_signals rx env _ _ _ _ _ _ _ _ k Hgraph) as Hsignals.
  pose proof (mapGraph_itself rx env _ _ _ _ _ _ _ _ k Hgraph) as Hitself.
  pose proof (mapGraph_bindings rx env _ _ _ _ _ _ _ _ k Hgraph) as Hbindings.
  pose proof (mapGraph_location rx env _ _ _ _ _ _ _ _ k Hgraph) as Hlocation.
  unfold appendsAt in Hcallers.
  destruct (m' !! k) as [f'|] eqn:Hf'; rewrite Hf in *; [|done].
  simpl in *.
  eexists _, _. split; [exact Hrun|]. split.
  - simpl. rewrite Hf'. f_equal.
    rewrite signalsOf_absent in Hsignals.
    2:{ intros (orch & Hname & Horch)%list_elem_of_fmap.
        by apply (Hnot _ k Hcode orch Horch). }
    rewrite app_nil_r in Hsignals.
    assert (continuesAsNew rx k (orchestratorsOf env pf hf functions) = false)
      as Hc.
    { destruct (continuesAsNew rx k _) eqn:Hc; [|done].
      apply continuesAsNew_true in Hc as (orch & Horch & Hname & _).
      by destruct (Hnot _ k Hcode orch Horch). }
    rewrite Hc in Hitself.
    assert (bindings f' = bindings f) as Hb.
    { injection Hbindings as ->. case_bool_decide; [|done].
      apply (foldl_skip (λ func, bool_decide (fc_name func = k))
               (λ bs func, enrichBindings bs (tryExtractBindings env (fc_code func)))).
      intros func Hfunc. apply bool_decide_eq_false.
      apply elem_of_app in Hfunc as [Hfunc|Hfunc];
        by apply (Hnot _ k Hcode func Hfunc). }
    assert (location f' = location f) as Hl.
    { injection Hlocation as Hlocation. rewrite Hlocation.
      unfold locationOf.
      rewrite (filter_none (λ func, fc_name func = k)); [done|].
      intros func Hfunc. unfold otherFunctionsOf, orchestratorsOf, activitiesOf,
        entitiesOf in Hfunc.
      rewrite !elem_of_app in Hfunc.
      destruct Hfunc as [Hfunc|[Hfunc|[Hfunc|Hfunc]]];
        by apply (Hnot _ k Hcode func Hfunc). }
    unfold location in Hl. destruct f'. simpl in *. simplify_eq. done.
  - intros x. rewrite elem_of_callersOf. split.
    + intros [(orch & Horch & Hx)|(entity & Hentity & Hx)].
      * apply elem_of_callersFromOrchestrator in Hx
          as [(func & _ & Hname & _)|[(subOrch & Hsub & Hname & _)|(Hact & -> & Hcall)]].
        -- by destruct (Hnot _ k Hcode orch Horch).
        -- by destruct (Hnot _ k Hcode subOrch Hsub).
        -- split; [done|]. eauto.
      * apply elem_of_callersFromEntity in Hx as (func & _ & Hname & _).
        by destruct (Hnot _ k Hcode entity Hentity).
    + intros (Hact & orch & Horch & -> & Hcall). left. exists orch.
      split; [done|]. apply elem_of_callersFromOrchestrator. by right; right.
Qed.

(** X10.  Which bindings the mapping touches: none outside a .NET project
    and, in a .NET project, none of a function that is neither an activity
    nor a function without durable trigger; the bindings of an activity or of
    a function without durable trigger whose code was found are enriched
    once, with the bindings extracted from that code. *)
Theorem enrichment_scope functions pf hf lines
    (Hadv : advances (waitForExternalEventRegex rx))
    (Hans : answers env pf hf)
    (Hwf : wfFunctionsMap functions) :
  ∃ result,
    mapOrchestratorsAndActivitiesAsync rx env functions pf hf lines
    = (Ok result, lines) ∧
    (projectKindOf env pf ≠ dotNet →
     ∀ k, bindings <$> fo_map result !! k = bindings <$> fo_map functions !! k) ∧
    (∀ k, k ∉ activityNamesOf functions → k ∉ otherFunctionNamesOf functions →
          bindings <$> fo_map result !! k = bindings <$> fo_map functions !! k) ∧
    (projectKindOf env pf = dotNet →
     ∀ func,
       func ∈ activitiesOf env pf hf functions ++ otherFunctionsOf env pf hf functions →
       bindings <$> fo_map result !! fc_name func
       = (λ f, enrichBindings (bindings f) (tryExtractBindings env (fc_code func)))
           <$> fo_map functions !! fc_name func).
Proof.
  destruct (mapping_result rx env functions pf hf lines Hadv Hans)
    as (m' & Hrun & Hgraph).
  destruct Hwf as [Hnd _].
  eexists. split; [exact Hrun|]. simpl. split; [|split].
  - intros Hkind k. rewrite (mapGraph_bindings rx env _ _ _ _ _ _ _ _ k Hgraph).
    by rewrite bool_decide_false.
  - intros k Hact Hother.
    rewrite (mapGraph_bindings rx env _ _ _ _ _ _ _ _ k Hgraph).
    case_bool_decide; [|done].
    destruct (fo_map functions !! k) as [f|]; simpl; [|done]. f_equal.
    apply (foldl_skip (λ func, bool_decide (fc_name func = k))
             (λ bs func, enrichBindings bs (tryExtractBindings env (fc_code func)))).
    intros func Hfunc. apply bool_decide_eq_false. intros <-.
    apply elem_of_app in Hfunc as [[Hfunc _]%elem_of_codesOf
                                  |[Hfunc _]%elem_of_codesOf]; tauto.
  - intros Hkind func Hfunc.
    rewrite (mapGraph_bindings rx env _ _ _ _ _ _ _ _ (fc_name func) Hgraph).
    rewrite bool_decide_true by done.
    destruct (fo_map functions !! fc_name func) as [f|]; simpl; [|done].
    f_equal. apply (enrich_once env); [|done].
    rewrite fmap_app. apply NoDup_app. split; [|split].
    + apply NoDup_codesOf. by apply NoDup_filter.
    + intros n (a & -> & [Ha _]%elem_of_codesOf)%list_elem_of_fmap
               (o & Hname & [Ho _]%elem_of_codesOf)%list_elem_of_fmap.
      rewrite <-Hname in Ho. by apply (activity_not_other functions (fc_name a)).
    + apply NoDup_codesOf. by apply NoDup_filter.
Qed.

End MappingFrame.

(** *** On the flow project and on the .NET project *)

Lemma net_wf : wfFunctionsMap netFunctions.
Proof. unfold netFunctions. do 3 apply wf_setFunction. apply wf_emptyFunctions. Qed.

Lemma no_trigger_no_edges_witness :
  ∃ result,
    mapOrchestratorsAndActivitiesAsync sampleRegexes (machineEnv flowMachine)
      flowFunctions "flow" "flow" [] = (Ok result, []) ∧
    isCalledBy <$> fo_map result !! "Client" = Some [] ∧
    isSignalledBy <$> fo_map result !! "Client" = Some [] ∧
    isCalledByItself <$> fo_map result !! "Client" = Some None.
Proof.
  assert ("Client" ∈ otherFunctionNamesOf flowFunctions) as Hk by by_computing.
  destruct (no_trigger_no_edges sampleRegexes (machineEnv flowMachine) flowFunctions
              "flow" "flow" [] "Client" sample_advances (machine_answers _ _ _) Hk)
    as (result & Hrun & H1 & H2 & H3).
  exists result. split; [exact Hrun|]. rewrite H1, H2, H3.
  split; [|split]; reflexivity.
Defined.

Lemma mapping_only_adds_witness :
  ∃ result,
    mapOrchestratorsAndActivitiesAsync sampleRegexes (machineEnv flowMachine)
      flowFunctions "flow" "flow" [] = (Ok result, []) ∧
    fo_keys result = ["Main"; "Child"; "Work"; "Counter"; "Client"; "Both"] ∧
    wfFunctionsMap result.
Proof.
  destruct (mapping_only_adds sampleRegexes (machineEnv flowMachine) flowFunctions
              "flow" "flow" [] sample_advances (machine_answers _ _ _))
    as (result & Hrun & Hkeys & _ & Hwf & _).
  exists result. split; [exact Hrun|]. split; [by rewrite Hkeys|].
  apply Hwf, flow_wf.
Defined.

Lemma location_from_file_witness :
  ∃ result,
    mapOrchestratorsAndActivitiesAsync sampleRegexes (machineEnv flowMachine)
      flowFunctions "flow" "flow" [] = (Ok result, []) ∧
    location <$> fo_map result !! "Main"
    = Some (Some "flow/Main/index.js", Some 0, Some 1) ∧
    location <$> fo_map result !! "Work" = Some (None, None, None).
Proof.
  assert ("Main" ∈ fo_keys flowFunctions) as Hk by by_computing.
  destruct (location_from_file sampleRegexes (machineEnv flowMachine) flowFunctions
              "flow" "flow" [] "Main" sample_advances (machine_answers _ _ _) Hk)
    as (result & Hrun & Hfound & _).
  assert ("Work" ∈ fo_keys flowFunctions) as Hk' by by_computing.
  destruct (location_from_file sampleRegexes (machineEnv flowMachine) flowFunctions
              "flow" "flow" [] "Work" sample_advances (machine_answers _ _ _) Hk')
    as (result' & Hrun' & _ & Hmissing).
  rewrite Hrun in Hrun'. injection Hrun' as <-.
  exists result. split; [exact Hrun|]. split.
  - rewrite (Hfound (mkFileMatch "flow/Main/index.js" "callSubOrchestrator(Child);"
                       None None) eq_refl).
    reflexivity.
  - rewrite (Hmissing eq_refl). reflexivity.
Defined.

Lemma function_without_code_witness :
  ∃ result appendedCallers,
    mapOrchestratorsAndActivitiesAsync sampleRegexes (machineEnv flowMachine)
      flowFunctions "flow" "flow" [] = (Ok result, []) ∧
    fo_map result !! "Work"
    = Some (mkFunctionInfo [activityTrigger] appendedCallers [] None None None None) ∧
    "Child" ∈ appendedCallers.
Proof.
  destruct (function_without_code sampleRegexes (machineEnv flowMachine)
              flowFunctions "flow" "flow" [] "Work" (newFunction [activityTrigger])
              sample_advances (machine_answers _ _ _) eq_refl eq_refl)
    as (result & l & Hrun & Hf' & Hl).
  exists result, l. split; [exact Hrun|]. split; [exact Hf'|].
  apply Hl. split; [by_computing|]. exists flowChild.
  split; [by_computing|]. split; reflexivity.
Defined.

Lemma enrichment_scope_witness :
  ∃ result,
    mapOrchestratorsAndActivitiesAsync sampleRegexes (machineEnv netMachine)
      netFunctions "net" netPublished [] = (Ok result, []) ∧
    bindings <$> fo_map result !! "Http"
    = Some [mkBinding "queue" (Some "out") ""] ∧
    bindings <$> fo_map result !! "Orch"
    = Some [mkBinding "orchestrationTrigger" None ""].
Proof.
  destruct (enrichment_scope sampleRegexes (machineEnv netMachine) netFunctions
              "net" netPublished [] sample_advances (machine_answers _ _ _) net_wf)
    as (result & Hrun & _ & Hkeep & Henrich).
  exists result. split; [exact Hrun|]. split.
  - assert (netCode "Http" "startNew(Orch); [Queue]"
              ∈ activitiesOf (machineEnv netMachine) "net" netPublished netFunctions
                ++ otherFunctionsOf (machineEnv netMachine) "net" netPublished
                     netFunctions) as Hfunc by by_computing.
    etrans; [exact (Henrich eq_refl _ Hfunc)|reflexivity].
  - rewrite (Hkeep "Orch"); [reflexivity|by_computing|by_computing].
Defined.

(** ** What the enrichment writes *)

Section EnrichmentFrame.
Implicit Types (d c : list Binding) (b : Binding).

Lemma setDefaultDirection_extra c b :
  extra (setDefaultDirection c b) = extra b.
Proof.
  unfold setDefaultDirection.
  destruct (negb (truthy (direction b))); [|done].
  by destruct (filter _ c) as [|? [|? ?]].
Qed.

Lemma setDefaultDirection_directed c b :
  truthy (direction b) = true → setDefaultDirection c b = b.
Proof. intros Hb. unfold setDefaultDirection. by rewrite Hb. Qed.

Lemma enrichBindings_split d c :
  enrichBindings d c = (setDefaultDirection c <$> d) ++ appended d c.
Proof.
  unfold enrichBindings. rewrite appended_filter, pushExtracted_filter, fmap_app.
  f_equal. apply list_fmap_fixed. intros b [_ Hb]%list_elem_of_filter.
  by apply setDefaultDirection_candidate.
Qed.

(** X11.  The enrichment changes nothing but missing directions: the
    bindings read from function.json keep their places, their types and
    their other fields, one that has a direction is left as it is, and the
    candidates that were pushed follow them exactly as they were extracted. *)
Theorem enrichment_changes_only_directions d c :
  length (enrichBindings d c) = length d + length (appended d c) ∧
  (∀ i b, d !! i = Some b →
     ∃ b', enrichBindings d c !! i = Some b' ∧
           type b' = type b ∧ extra b' = extra b ∧
           (truthy (direction b) = true → b' = b)) ∧
  (∀ j b, appended d c !! j = Some b →
     enrichBindings d c !! (length d + j) = Some b).
Proof.
  rewrite enrichBindings_split. split; [|split].
  - by rewrite length_app, length_fmap.
  - intros i b Hi. exists (setDefaultDirection c b). split.
    + rewrite lookup_app_l by (rewrite length_fmap; by eapply lookup_lt_Some).
      by rewrite list_lookup_fmap, Hi.
    + split; [apply setDefaultDirection_type|].
      split; [apply setDefaultDirection_extra|].
      apply setDefaultDirection_directed.
  - intros j b Hj.
    rewrite lookup_app_r by (rewrite length_fmap; lia).
    rewrite length_fmap. by replace (length d + j - length d) with j by lia.
Qed.

(** X12.  On the heap, where the pushed candidates are the very objects
    of the array extracted from the code: when the two arrays share no
    object to begin with, the function's array after the two loops is its
    old references followed by references taken from the extracted array, no
    object outside the function's old array is written (so the extracted
    objects are as they were, also the shared ones), and the array holds
    [enrichBindings] of what the two arrays held. *)
Theorem shared_candidates_are_not_written (store : gmap nat Binding)
    (json code : list nat)
    (Hnd : NoDup json)
    (Hdisj : ∀ r, r ∈ json → r ∉ code)
    (Hvalid : ∀ r, r ∈ json ++ code → is_Some (store !! r)) :
  let store' := (enrichOnHeap store json code).1 in
  let array := (enrichOnHeap store json code).2 in
  (∃ pushed, array = json ++ pushed ∧ ∀ r, r ∈ pushed → r ∈ code) ∧
  (∀ r, r ∉ json → store' !!! r = store !!! r) ∧
  deref store' array = enrichBindings (deref store json) (deref store code).
Proof.
  intros store' array. split; [|split].
  - unfold array, enrichOnHeap. simpl. rewrite deref_pushExtractedRefs.
    eexists. split; [done|]. by intros r [_ Hr]%list_elem_of_filter.
  - unfold store', enrichOnHeap. simpl.
    rewrite deref_pushExtractedRefs, foldl_app.
    destruct (directions_of_descriptor code json store Hnd Hdisj)
      as (Hout & _ & Hdom).
    rewrite directions_of_candidates; [exact Hout|].
    intros r [_ Hr]%list_elem_of_filter. split; [done|].
    apply Hdom, Hvalid, elem_of_app. by right.
  - by apply enrichOnHeap_enrichBindings.
Qed.

End EnrichmentFrame.

Lemma shared_candidates_are_not_written_witness :
  (enrichOnHeap sampleStore [0; 1] [2; 3; 4]).2 = [0; 1; 3; 4] ∧
  deref (enrichOnHeap sampleStore [0; 1] [2; 3; 4]).1 [2; 3; 4]
  = [queueOut; blobIn; blobOut] ∧
  deref (enrichOnHeap sampleStore [0; 1] [2; 3; 4]).1
        (enrichOnHeap sampleStore [0; 1] [2; 3; 4]).2
  = enrichBindings [httpTrigger; queueNoDirection] [queueOut; blobIn; blobOut].
Proof.
  assert (NoDup [0; 1]) as Hnd by by_computing.
  assert (∀ r, r ∈ [0; 1] → r ∉ [2; 3; 4]) as Hdisj.
  { apply (Forall_forall (λ r, r ∉ [2; 3; 4])). by_computing. }
  assert (∀ r, r ∈ [0; 1] ++ [2; 3; 4] → is_Some (sampleStore !! r)) as Hvalid.
  { apply (Forall_forall (λ r, is_Some (sampleStore !! r))). by_computing. }
  destruct (shared_candidates_are_not_written sampleStore [0; 1] [2; 3; 4]
              Hnd Hdisj Hvalid) as (_ & Hframe & Harray).
  split; [reflexivity|]. split; [|exact Harray].
  unfold deref. simpl.
  rewrite !Hframe by by_computing. reflexivity.
Defined.

(** ** Runs of the traversal *)

Section Runs.
Context (rx : TraversalRegexes) (env : Env).
Implicit Types (lines : list string) (proxies : gmap string ProxyInfo).

Lemma bind_run_Ok {A B} (m : M A) (k : A → M B) lines a lines1 :
  m lines = (Ok a, lines1) → bind m k lines = k a lines1.
Proof. intros Hm. unfold bind. by rewrite Hm. Qed.

Lemma bind_run_Throw {A B} (m : M A) (k : A → M B) lines err lines1 :
  m lines = (Throw err, lines1) → bind m k lines = (Throw err, lines1).
Proof. intros Hm. unfold bind. by rewrite Hm. Qed.

Lemma bind_Ok {A B} (m : M A) (k : A → M B) lines b lines' :
  bind m k lines = (Ok b, lines') ↔
  ∃ a lines1, m lines = (Ok a, lines1) ∧ k a lines1 = (Ok b, lines').
Proof.
  unfold bind. destruct (m lines) as [[a|err|] lines1]; split;
    try done; try (intros (? & ? & ? & ?); congruence).
  eauto.
Qed.


Lemma forEachM_proxies_throw path text b (names : list string) proxies lines k err :
  (∀ k, k ∈ names → RegExp_new env (proxyNameRegexSource k) ≠ Diverge) →
  k ∈ names → RegExp_new env (proxyNameRegexSource k) = Throw err →
  ∃ k' err', k' ∈ names ∧
    RegExp_new env (proxyNameRegexSource k') = Throw err' ∧
    forEachM (addFilePathAndLineNr env path text b) names proxies lines
    = (Throw err', lines).
Proof.
  revert proxies. induction names as [|n names IH]; intros proxies Hnames Hk Hbad.
  - by apply elem_of_nil in Hk.
  - simpl. unfold bind. rewrite addFilePathAndLineNr_run.
    destruct (RegExp_new env (proxyNameRegexSource n)) as [regex|err'|] eqn:Hnew.
    + apply elem_of_cons in Hk as [->|Hk]; [congruence|].
      destruct (IH (alter (annotateProxy env path text b regex) n proxies))
        as (k' & err' & Hk' & Hbad' & Hrun); [|done|done|].
      { intros k0 Hk0. apply Hnames. by right. }
      exists k', err'. split; [by right|]. done.
    + exists n, err'. split; [by left|]. done.
    + destruct (Hnames n); [by left|done].
Qed.


(** X14.  A proxy whose name cannot be made into a pattern costs all the
    proxies: when building the pattern throws for one of the names, the
    call returns the empty map, and the line it logs carries the error of a
    name for which the constructor threw. *)
Theorem invalid_proxy_name_drops_all_proxies projectFolder lines text parsed b
    lines1 proxyName err
    (Hexists : existsSync env (path_join env projectFolder "proxies.json") = true)
    (Hread : readFile env (path_join env projectFolder "proxies.json") = Ok text)
    (Hparse : JSON_parse_proxies env text = Ok (Some parsed))
    (Hcheck : checkCsProjFile env projectFolder lines = (Ok b, lines1))
    (Hnames : ∀ k, k ∈ po_keys parsed →
                   RegExp_new env (proxyNameRegexSource k) ≠ Diverge)
    (Hname : proxyName ∈ po_keys parsed)
    (Hbad : RegExp_new env (proxyNameRegexSource proxyName) = Throw err) :
  ∃ k err',
    k ∈ po_keys parsed ∧
    RegExp_new env (proxyNameRegexSource k) = Throw err' ∧
    readProxiesJson env projectFolder lines
    = (Ok emptyProxies,
       lines ++ [failedToParse (path_join env projectFolder "proxies.json") err']).
Proof.
  pose proof (checkCsProjFile_lines env _ _ _ _ Hcheck) as ->.
  destruct (forEachM_proxies_throw (path_join env projectFolder "proxies.json")
              text b (po_keys parsed) (po_map parsed) lines proxyName err
              Hnames Hname Hbad) as (k & err' & Hk & Hbad' & Hloop).
  exists k, err'. split; [done|]. split; [done|].
  unfold readProxiesJson. rewrite Hexists. simpl.
  unfold bind at 1. unfold io at 1. rewrite Hread.
  unfold tryCatch, bind at 1. unfold io at 1. rewrite Hparse.
  unfold bind at 1. rewrite Hcheck.
  unfold bind at 1. by rewrite Hloop.
Qed.

(** X15.  When proxies.json parses and a pattern can be built for every
    name, the proxies come back under the same keys in the same order, each
    with the fields of its descriptor untouched, and with
    [warningNotAddedToCsProjFile] set to [true] on every one of them when the
    check of the project file says so and left as it was on every one of them
    when it does not. *)
Theorem proxies_keep_keys_and_descriptors projectFolder lines text parsed b lines1
    (Hexists : existsSync env (path_join env projectFolder "proxies.json") = true)
    (Hread : readFile env (path_join env projectFolder "proxies.json") = Ok text)
    (Hparse : JSON_parse_proxies env text = Ok (Some parsed))
    (Hkeys : ∀ k, is_Some (po_map parsed !! k) → k ∈ po_keys parsed)
    (Hcheck : checkCsProjFile env projectFolder lines = (Ok b, lines1))
    (Hnames : ∀ k, k ∈ po_keys parsed →
                   ∃ regex, RegExp_new env (proxyNameRegexSource k) = Ok regex) :
  ∃ result,
    readProxiesJson env projectFolder lines = (Ok result, lines) ∧
    po_keys result = po_keys parsed ∧
    ∀ k, match po_map parsed !! k with
         | Some proxy =>
             ∃ proxy', po_map result !! k = Some proxy' ∧
                       proxy_descriptor proxy' = proxy_descriptor proxy ∧
                       warningNotAddedToCsProjFile proxy'
                       = if b then Some true
                         else warningNotAddedToCsProjFile proxy
         | None => po_map result !! k = None
         end.
Proof.
  pose proof (checkCsProjFile_lines env _ _ _ _ Hcheck) as ->.
  destruct (forEachM_proxies_run env (path_join env projectFolder "proxies.json")
              text b (po_keys parsed) (po_map parsed) lines Hnames)
    as (m' & Hloop).
  exists (mkProxiesMap (po_keys parsed) m'). split; [|split; [done|]].
  - unfold readProxiesJson. rewrite Hexists. simpl.
    unfold bind at 1. unfold io at 1. rewrite Hread.
    unfold tryCatch, bind at 1. unfold io at 1. rewrite Hparse.
    unfold bind at 1. rewrite Hcheck.
    unfold bind at 1. by rewrite Hloop.
  - intros k. simpl.
    destruct (forEachM_proxies env _ _ _ _ _ _ _ _ Hloop k) as [Hin Hout].
    destruct (po_map parsed !! k) as [proxy|] eqn:Hproxy.
    + destruct Hin as (regex & Hnew & Hm'); [by apply Hkeys; eexists|].
      rewrite Hm'. simpl. eexists. split; [done|].
      unfold annotateProxy. by destruct b, (regex text).
    + destruct (decide (k ∈ po_keys parsed)) as [Hk|Hk].
      * destruct (Hin Hk) as (regex & Hnew & Hm'). by rewrite Hm'.
      * by rewrite (Hout Hk).
Qed.

(** X16.  The check of the project file answers [true] in one case only:
    the folder is a .NET project, a project file is found there, its text
    is not empty and the pattern for the proxies.json entry does not match in
    it.  A project that is not .NET, has no project file or an empty one,
    gets no warning. *)
Theorem csproj_check projectFolder lines :
  checkCsProjFile env projectFolder lines = (Ok true, lines) ↔
  isDotNetProjectAsync env projectFolder = Ok true ∧
  ∃ csProjFile proxiesJsonEntryRegex,
    findFileRecursivelyAsync env projectFolder ".+\.csproj$" true None
    = Ok (Some csProjFile) ∧
    RegExp_new env proxiesJsonEntryRegexSource = Ok proxiesJsonEntryRegex ∧
    fm_code csProjFile ≠ "" ∧
    proxiesJsonEntryRegex (fm_code csProjFile) = None.
Proof.
  unfold checkCsProjFile, bind, io, ret. split.
  - destruct (isDotNetProjectAsync env projectFolder) as [[|]| |]; try done.
    destruct (findFileRecursivelyAsync env projectFolder _ true None)
      as [[m|]| |]; try done;
      destruct (RegExp_new env proxiesJsonEntryRegexSource) as [regex| |];
      try done.
    intros [= Hb]. apply andb_true_iff in Hb as [Hcode Hmatch].
    apply negb_true_iff, bool_decide_eq_false in Hcode, Hmatch.
    split; [done|]. exists m, regex. split; [done|]. split; [done|].
    split; [done|]. destruct (regex (fm_code m)); [|done].
    destruct Hmatch. by eexists.
  - intros (-> & m & regex & -> & -> & Hcode & Hmatch).
    rewrite Hmatch. rewrite bool_decide_false by done.
    rewrite bool_decide_false by (by apply is_Some_None). done.
Qed.

(** X17.  A project folder that starts with [http], in whatever case, is
    cloned first, and a clone that fails is fatal: the traversal throws the
    error of the clone after the one line that announces it. *)
Theorem clone_failure_is_fatal projectFolder lines err
    (Hurl : startsWith (toLowerCase projectFolder) "http" = true)
    (Hclone : cloneFromGitHub env projectFolder = Throw err) :
  traverseFunctionProject rx env projectFolder lines
  = (Throw err, lines ++ ["Cloning " +:+ projectFolder]).
Proof.
  unfold traverseFunctionProject, traverseFunctions, cloneIfGitRepo.
  rewrite Hurl. unfold bind, log, io. by rewrite Hclone.
Qed.

(** X18.  The functions of an isolated .NET project are returned as its
    reader gives them: nothing is published, no function.json is read and
    the mapping is not run on them; the temporary folders are those of the
    clone step alone. *)
Theorem isolated_project_is_not_mapped projectFolder lines tempFolders resolved
    lines1 hostJsonMatch functions proxiesRead lines2
    (Hclone : cloneIfGitRepo env projectFolder lines
              = (Ok (tempFolders, resolved), lines1))
    (Hfind : findFileRecursivelyAsync env resolved "host.json" false None
             = Ok (Some hostJsonMatch))
    (Hisolated : isDotNetIsolatedProjectAsync env resolved = Ok true)
    (Hreader : traverseDotNetIsolatedProject env resolved = Ok functions)
    (Hproxies : readProxiesJson env resolved
                  (lines1 ++ [">>> Found host.json at "
                              +:+ fm_filePath hostJsonMatch])
                = (Ok proxiesRead, lines2)) :
  traverseFunctionProject rx env projectFolder lines
  = (Ok (mkTraverseFunctionResult functions proxiesRead tempFolders resolved), lines2).
Proof.
  assert (traverseFunctions rx env projectFolder lines
          = (Ok (functions, tempFolders, resolved),
             lines1 ++ [">>> Found host.json at " +:+ fm_filePath hostJsonMatch]))
    as Hfront.
  { unfold traverseFunctions.
    rewrite (bind_run_Ok _ _ _ _ _ Hclone). simpl.
    unfold bind at 1, io at 1. rewrite Hfind.
    unfold bind at 1, log at 1.
    unfold bind at 1, io at 1. rewrite Hisolated. simpl.
    unfold bind, io, ret. simpl. by rewrite Hreader. }
  unfold traverseFunctionProject.
  rewrite (bind_run_Ok _ _ _ _ _ Hfront). simpl.
  by rewrite (bind_run_Ok _ _ _ _ _ Hproxies).
Qed.

(** X19.  When the folder of host.json is a .NET project that is not
    isolated, a [dotnet publish] that fails is fatal: the traversal throws its
    error after the line that announces the publishing, and the temporary
    folder made for it is not handed back. *)
Theorem publish_failure_is_fatal projectFolder lines tempFolders resolved
    lines1 hostJsonMatch publishTempFolder err
    (Hclone : cloneIfGitRepo env projectFolder lines
              = (Ok (tempFolders, resolved), lines1))
    (Hfind : findFileRecursivelyAsync env resolved "host.json" false None
             = Ok (Some hostJsonMatch))
    (Hisolated : isDotNetIsolatedProjectAsync env resolved = Ok false)
    (HdotNet : isDotNetProjectAsync env (path_dirname env (fm_filePath hostJsonMatch))
               = Ok true)
    (Hmkdtemp : mkdtemp env (path_join env (os_tmpdir env) "dotnet-publish-")
                = Ok publishTempFolder)
    (Hexec : execAsync env ("dotnet publish -o " +:+ publishTempFolder)
               (path_dirname env (fm_filePath hostJsonMatch)) = Throw err) :
  traverseFunctionProject rx env projectFolder lines
  = (Throw err,
     lines1 ++ [">>> Found host.json at " +:+ fm_filePath hostJsonMatch]
            ++ [">>> Publishing " +:+ path_dirname env (fm_filePath hostJsonMatch)
                +:+ " to " +:+ publishTempFolder +:+ "..."]).
Proof.
  unfold traverseFunctionProject, traverseFunctions.
  unfold bind at 1. rewrite (bind_run_Ok _ _ _ _ _ Hclone). simpl.
  unfold bind at 1, io at 1. rewrite Hfind.
  unfold bind at 1, log at 1.
  unfold bind at 1, io at 1. rewrite Hisolated. simpl.
  unfold publishIfDotNet, bind, io, log. rewrite HdotNet, Hmkdtemp, Hexec.
  by rewrite <-app_assoc.
Qed.



Lemma readFunctionJson_Ok hf n functions lines functions' lines' :
  readFunctionJson env hf n functions lines = (Ok functions', lines') →
  functions'
  = match descriptorOf env hf n with
    | Some value => setRead n value functions
    | None => functions
    end ∧
  (∀ l, l ∈ lines → l ∈ lines') ∧
  ∀ text err,
    lstat_isDirectory env (path_join env hf n) = Ok true →
    existsSync env (path_join env (path_join env hf n) "function.json") = true →
    readFile env (path_join env (path_join env hf n) "function.json") = Ok text →
    JSON_parse_bindings env text = Throw err →
    failedToParse (path_join env (path_join env hf n) "function.json") err ∈ lines'.
Proof.
  unfold readFunctionJson, descriptorOf, tryCatch, bind, io, log, ret.
  destruct (lstat_isDirectory env (path_join env hf n)) as [[|]| |]; try done.
  - destruct (existsSync env _); simpl.
    + destruct (readFile env _) as [text| |].
      * destruct (JSON_parse_bindings env text) as [value|err|] eqn:Hparse.
        -- intros [= <- <-]. split; [done|]. split; [done|].
           intros text' err' _ _ [= <-] Hparse'. congruence.
        -- intros [= <- <-]. split; [done|]. split.
           ++ intros l Hl. apply elem_of_app. by left.
           ++ intros text' err' _ _ [= <-] Hparse'. rewrite Hparse in Hparse'.
              injection Hparse' as <-. apply elem_of_app. right. by left.
        -- done.
      * intros [= <- <-]. split; [done|]. split.
        -- intros l Hl. apply elem_of_app. by left.
        -- by intros.
      * done.
    + intros [= <- <-]. split; [done|]. split; [done|]. by intros.
  - intros [= <- <-]. split; [done|]. split; [done|]. by intros.
Qed.

Lemma descriptorOf_Some hf n value :
  descriptorOf env hf n = Some value ↔
  lstat_isDirectory env (path_join env hf n) = Ok true ∧
  existsSync env (path_join env (path_join env hf n) "function.json") = true ∧
  ∃ text, readFile env (path_join env (path_join env hf n) "function.json") = Ok text ∧
          JSON_parse_bindings env text = Ok value.
Proof.
  unfold descriptorOf. split.
  - destruct (lstat_isDirectory env _) as [[|]| |]; try done.
    destruct (existsSync env _); try done.
    destruct (readFile env _) as [text| |]; try done.
    destruct (JSON_parse_bindings env text) as [value'| |] eqn:Hparse; try done.
    intros [= <-]. eauto.
  - intros (-> & -> & text & -> & ->). done.
Qed.

(** *** The keys of the object read *)

Lemma filter_iff_in {A} (P1 P2 : A → Prop)
    `{!∀ x, Decision (P1 x), !∀ x, Decision (P2 x)} (l : list A) :
  (∀ x, x ∈ l → P1 x ↔ P2 x) → filter P1 l = filter P2 l.
Proof.
  induction l as [|x l IH]; intros Hiff; [done|].
  rewrite !filter_cons, IH by (intros y Hy; apply Hiff; by right).
  destruct (decide (P1 x)) as [H1|H1], (decide (P2 x)) as [H2|H2]; try done.
  - destruct H2. apply Hiff; [by left|done].
  - destruct H1. apply Hiff; [by left|done].
Qed.

Lemma keyOrder_new_name k k' : arrayIndex k = None → keyOrder k' k.
Proof. intros Hk. unfold keyOrder. rewrite Hk. by destruct (arrayIndex k'). Qed.

Lemma keyOrder_trans k1 k2 k3 : keyOrder k1 k2 → keyOrder k2 k3 → keyOrder k1 k3.
Proof.
  unfold keyOrder.
  destruct (arrayIndex k1), (arrayIndex k2), (arrayIndex k3); try done. lia.
Qed.

Lemma sorted_insertIndexKey i k (keys : list string) :
  arrayIndex k = Some i →
  StronglySorted keyOrder keys → StronglySorted keyOrder (insertIndexKey i k keys).
Proof.
  intros Hk. induction keys as [|k' keys IH]; intros Hsorted; simpl.
  - repeat constructor.
  - apply StronglySorted_inv in Hsorted as [Hkeys Hk'].
    assert (keyOrder k k' → StronglySorted keyOrder (k :: k' :: keys)) as Hfront.
    { intros Hfirst. constructor; [by constructor|].
      constructor; [done|].
      eapply Forall_impl; [exact Hk'|]. intros x. by apply keyOrder_trans. }
    destruct (arrayIndex k') as [j|] eqn:Hj.
    + case_bool_decide as Hlt.
      * constructor; [by apply IH|].
        apply Forall_forall. intros x Hx.
        rewrite insertIndexKey_Permutation in Hx.
        apply elem_of_cons in Hx as [->|Hx].
        -- unfold keyOrder. rewrite Hj, Hk. lia.
        -- by eapply Forall_forall in Hk'.
      * apply Hfront. unfold keyOrder. rewrite Hj, Hk. lia.
    + apply Hfront. unfold keyOrder. by rewrite Hj, Hk.
Qed.

Lemma sorted_keysAfterAssign k (keys : list string) :
  StronglySorted keyOrder keys → StronglySorted keyOrder (keysAfterAssign k keys).
Proof.
  intros Hsorted. unfold keysAfterAssign. case_bool_decide; [done|].
  destruct (arrayIndex k) as [i|] eqn:Hk.
  - by apply sorted_insertIndexKey.
  - apply StronglySorted_app_2; [|done|repeat constructor].
    intros x y _ ->%list_elem_of_singleton. by apply keyOrder_new_name.
Qed.

Lemma names_insertIndexKey i k (keys : list string) :
  arrayIndex k = Some i →
  filter (λ k', arrayIndex k' = None) (insertIndexKey i k keys)
  = filter (λ k', arrayIndex k' = None) keys.
Proof.
  intros Hk. induction keys as [|k' keys IH]; simpl.
  - rewrite filter_cons_False by (by rewrite Hk). done.
  - destruct (arrayIndex k') as [j|] eqn:Hj.
    + case_bool_decide.
      * rewrite !(filter_cons_False _ k') by (by rewrite Hj). exact IH.
      * rewrite filter_cons_False by (by rewrite Hk). done.
    + rewrite filter_cons_False by (by rewrite Hk). done.
Qed.

Lemma names_keysAfterAssign k (keys : list string) :
  k ∉ keys →
  filter (λ k', arrayIndex k' = None) (keysAfterAssign k keys)
  = filter (λ k', arrayIndex k' = None) keys
    ++ filter (λ k', arrayIndex k' = None) [k].
Proof.
  intros Hk. unfold keysAfterAssign. rewrite bool_decide_false by done.
  destruct (arrayIndex k) as [i|] eqn:Hi.
  - rewrite names_insertIndexKey by done.
    rewrite (filter_cons_False _ k) by (by rewrite Hi).
    by rewrite filter_nil, app_nil_r.
  - by rewrite filter_app.
Qed.

Lemma wf_setRead n value functions :
  wfReadFunctions functions → wfReadFunctions (setRead n value functions).
Proof.
  intros [Hnd Hkeys]. unfold setRead. case_bool_decide; [done|].
  split; simpl.
  - by apply NoDup_keysAfterAssign.
  - intros k. rewrite lookup_insert_is_Some', elem_of_keysAfterAssign, Hkeys.
    split; intros [?|?]; auto.
Qed.

(** The callbacks run in any order [order], from any object: what they
    leave in the object, in its keys and in the log. *)
Lemma readFunctionJsons_Ok hf (order : list string) functions0 lines functions lines' :
  forEachM (readFunctionJson env hf) order functions0 lines = (Ok functions, lines') →
  (wfReadFunctions functions0 → wfReadFunctions functions) ∧
  (StronglySorted keyOrder (rf_keys functions0) →
   StronglySorted keyOrder (rf_keys functions)) ∧
  (∀ k, rf_map functions !! k
        = if decide (k ∈ order ∧ k ≠ "__proto__")
          then match descriptorOf env hf k with
               | Some value => Some value
               | None => rf_map functions0 !! k
               end
          else rf_map functions0 !! k) ∧
  (NoDup order → (∀ k, k ∈ order → k ∉ rf_keys functions0) →
   filter (λ k, arrayIndex k = None) (rf_keys functions)
   = filter (λ k, arrayIndex k = None) (rf_keys functions0)
     ++ filter (λ k, arrayIndex k = None ∧ k ≠ "__proto__"
                     ∧ is_Some (descriptorOf env hf k)) order) ∧
  (∀ l, l ∈ lines → l ∈ lines') ∧
  ∀ n text err,
    n ∈ order →
    lstat_isDirectory env (path_join env hf n) = Ok true →
    existsSync env (path_join env (path_join env hf n) "function.json") = true →
    readFile env (path_join env (path_join env hf n) "function.json") = Ok text →
    JSON_parse_bindings env text = Throw err →
    failedToParse (path_join env (path_join env hf n) "function.json") err ∈ lines'.
Proof.
  revert functions0 lines. induction order as [|n order IH];
    intros functions0 lines Hrun.
  - unfold forEachM, ret in Hrun. injection Hrun as <- <-.
    split; [done|]. split; [done|]. split.
    { intros k. rewrite decide_False; [done|]. by intros [?%elem_of_nil _]. }
    split; [intros _ _; by rewrite filter_nil, app_nil_r|].
    split; [done|]. intros n text err Hn. by apply elem_of_nil in Hn.
  - simpl in Hrun.
    apply bind_Ok in Hrun as (functions1 & lines1 & Hfirst & Hrest).
    apply readFunctionJson_Ok in Hfirst as (Hfunctions1 & Hlines1 & Hlog1).
    destruct (IH _ _ Hrest) as (Hwf & Hsorted & Hmap & Hnames & Hlines & Hlog).
    assert (∀ k, rf_map functions1 !! k
                 = if decide (k = n ∧ k ≠ "__proto__")
                   then match descriptorOf env hf k with
                        | Some value => Some value
                        | None => rf_map functions0 !! k
                        end
                   else rf_map functions0 !! k) as Hmap1.
    { intros k. rewrite Hfunctions1.
      destruct (decide (k = n ∧ k ≠ "__proto__")) as [[-> Hproto]|Hne].
      - destruct (descriptorOf env hf n) as [value|]; [|done].
        unfold setRead. rewrite bool_decide_false by done. simpl.
        by rewrite lookup_insert_eq.
      - destruct (descriptorOf env hf n) as [value|]; [|done].
        unfold setRead. case_bool_decide as Hproto; [done|]. simpl.
        rewrite lookup_insert_ne; [done|]. intros ->. by apply Hne. }
    assert (∀ k, k ∈ rf_keys functions1 ↔
                 (k = n ∧ n ≠ "__proto__" ∧ is_Some (descriptorOf env hf n))
                 ∨ k ∈ rf_keys functions0) as Hkeys1.
    { intros k. rewrite Hfunctions1.
      destruct (descriptorOf env hf n) as [value|].
      - unfold setRead. case_bool_decide as Hproto; simpl.
        + split; [by right|]. by intros [(_ & ? & _)|?].
        + rewrite elem_of_keysAfterAssign. split.
          * intros [->|?]; [left|by right]. split; [done|]. split; [done|].
            by eexists.
          * intros [(-> & _)|?]; [by left|by right].
      - split; [by right|]. intros [(_ & _ & [? ?])|?]; done. }
    split; [|split; [|split; [|split; [|split]]]].
    + intros Hwf0. apply Hwf. rewrite Hfunctions1.
      destruct (descriptorOf env hf n); [by apply wf_setRead|done].
    + intros Hsorted0. apply Hsorted. rewrite Hfunctions1.
      destruct (descriptorOf env hf n); [|done].
      unfold setRead. case_bool_decide; [done|]. simpl.
      by apply sorted_keysAfterAssign.
    + intros k. rewrite Hmap, Hmap1.
      destruct (decide (k = n ∧ k ≠ "__proto__")) as [[-> Hproto]|Hne].
      * rewrite (decide_True (P := n ∈ n :: order ∧ _)) by (split; [by left|done]).
        destruct (descriptorOf env hf n) as [value|];
          by destruct (decide (n ∈ order ∧ n ≠ "__proto__")).
      * destruct (decide (k ∈ order ∧ k ≠ "__proto__")) as [[Hk Hproto]|Hk].
        -- by rewrite decide_True by (split; [by right|done]).
        -- rewrite decide_False; [done|].
           intros [[->|Hin]%elem_of_cons Hproto]; [by apply Hne|by apply Hk].
    + intros Hnd Hfresh. apply NoDup_cons in Hnd as [Hn Hnd].
      rewrite Hnames; [|done|].
      2:{ intros k Hk. rewrite Hkeys1. intros [(-> & _)|Hin]; [done|].
          by apply (Hfresh k); [right|]. }
      assert (n ∉ rf_keys functions0) as Hfresh0 by (apply Hfresh; by left).
      assert (filter (λ k, arrayIndex k = None) (rf_keys functions1)
              = filter (λ k, arrayIndex k = None) (rf_keys functions0)
                ++ filter (λ k, arrayIndex k = None ∧ k ≠ "__proto__"
                                ∧ is_Some (descriptorOf env hf k)) [n]) as ->.
      { rewrite Hfunctions1.
        destruct (descriptorOf env hf n) as [value|] eqn:Hd.
        - unfold setRead. case_bool_decide as Hproto; simpl.
          + rewrite filter_cons_False by tauto.
            by rewrite filter_nil, app_nil_r.
          + rewrite names_keysAfterAssign by done. f_equal.
            destruct (decide (arrayIndex n = None)) as [Hi|Hi].
            * rewrite !filter_cons_True; [done| |done].
              split; [done|]. split; [done|]. by eexists.
            * by rewrite !filter_cons_False by tauto.
        - rewrite filter_cons_False.
          + by rewrite filter_nil, app_nil_r.
          + intros (_ & _ & [? ?]). congruence. }
      rewrite <-app_assoc. f_equal.
      by rewrite <-filter_app.
    + intros l Hl. apply Hlines, Hlines1, Hl.
    + intros k text err [->|Hk]%elem_of_cons Hdir Hexists Hread Hparse.
      * apply Hlines. by eapply Hlog1.
      * by eapply Hlog.
Qed.

Lemma firstNoArray_Some functions n typeError :
  wfReadFunctions functions →
  rf_map functions !! n = Some (NoArray typeError) →
  is_Some (firstNoArray functions).
Proof.
  intros [_ Hkeys] Hn. unfold firstNoArray.
  assert (n ∈ rf_keys functions) as Hin by (apply Hkeys; by eexists).
  destruct (omap _ (rf_keys functions)) as [|e l] eqn:Homap; [|by eexists].
  exfalso. apply (elem_of_nil typeError). rewrite <-Homap.
  apply list_elem_of_omap. exists n. split; [done|]. by rewrite Hn.
Qed.

(** X21.  The object read from the function.json files, when the order
    in which the reads complete is a permutation of the listing.  It is
    well-formed; it has an entry for a name exactly when the name is listed,
    is not [__proto__], is a directory, has a function.json and that file can
    be read and parsed, and the entry then holds what the file has as its
    [bindings], array or not; its keys are the array indices first, in
    ascending order, and then the other names in the order in which their
    reads completed; a function.json that does not parse is reported in the
    log and leaves no entry; and an entry whose [bindings] is no array makes
    the mapping that follows throw. *)
Theorem function_json_entries hostJsonFolder (functionNames : list string)
    lines functions lines'
    (Hnames : NoDup functionNames)
    (Horder : completionOrder env hostJsonFolder functionNames ≡ₚ functionNames)
    (Hrun : readFunctionJsons env hostJsonFolder functionNames lines
            = (Ok functions, lines')) :
  let fullPath n := path_join env hostJsonFolder n in
  let functionJsonFilePath n := path_join env (fullPath n) "function.json" in
  wfReadFunctions functions ∧
  (∀ n value,
     rf_map functions !! n = Some value ↔
     n ∈ functionNames ∧ n ≠ "__proto__" ∧
     lstat_isDirectory env (fullPath n) = Ok true ∧
     existsSync env (functionJsonFilePath n) = true ∧
     ∃ text, readFile env (functionJsonFilePath n) = Ok text ∧
             JSON_parse_bindings env text = Ok value) ∧
  StronglySorted keyOrder (rf_keys functions) ∧
  filter (λ k, arrayIndex k = None) (rf_keys functions)
  = filter (λ k, arrayIndex k = None ∧ is_Some (rf_map functions !! k))
           (completionOrder env hostJsonFolder functionNames) ∧
  (∀ n text err,
     n ∈ functionNames →
     lstat_isDirectory env (fullPath n) = Ok true →
     existsSync env (functionJsonFilePath n) = true →
     readFile env (functionJsonFilePath n) = Ok text →
     JSON_parse_bindings env text = Throw err →
     rf_map functions !! n = None ∧
     failedToParse (functionJsonFilePath n) err ∈ lines') ∧
  (∀ n typeError projectFolder projectKind lines0,
     rf_map functions !! n = Some (NoArray typeError) →
     getProjectKind env projectFolder lines0 = (Ok projectKind, lines0) →
     ∃ err, mapReadFunctions rx env functions projectFolder hostJsonFolder lines0
            = (Throw err, lines0)).
Proof.
  intros fullPath functionJsonFilePath. unfold readFunctionJsons in Hrun.
  destruct (readFunctionJsons_Ok _ _ _ _ _ _ Hrun)
    as (Hwf & Hsorted & Hmap & Hkeys & _ & Hlog).
  assert (wfReadFunctions functions) as Hwf'.
  { apply Hwf. split; simpl; [constructor|].
    intros k. rewrite elem_of_nil, lookup_empty, is_Some_alt. done. }
  assert (∀ n value,
            rf_map functions !! n = Some value ↔
            n ∈ functionNames ∧ n ≠ "__proto__" ∧
            descriptorOf env hostJsonFolder n = Some value) as Hentry.
  { intros n value. rewrite Hmap. simpl. rewrite lookup_empty.
    destruct (decide (_ ∧ _)) as [[Hn Hproto]|Hn].
    - rewrite Horder in Hn.
      destruct (descriptorOf env hostJsonFolder n) as [value'|].
      + split; [by intros [= <-]|]. by intros (_ & _ & [= <-]).
      + split; [done|]. by intros (_ & _ & ?).
    - split; [done|]. intros (Hin & Hproto & _). destruct Hn.
      by rewrite Horder. }
  split; [done|]. split.
  { intros n value. rewrite Hentry, descriptorOf_Some. tauto. }
  split; [apply Hsorted; constructor|]. split.
  { rewrite Hkeys; [|by rewrite Horder|by intros k _ ?%elem_of_nil].
    change (rf_keys emptyRead) with (@nil string).
    rewrite ?filter_nil, ?app_nil_l.
    apply filter_iff_in. intros k Hk. rewrite Horder in Hk. split.
    - intros (Hi & Hproto & [value Hd]). split; [done|]. exists value.
      by apply Hentry.
    - intros (Hi & [value Hd]). apply Hentry in Hd as (_ & Hproto & Hd).
      split; [done|]. split; [done|]. by eexists. }
  split.
  { intros n text err Hn Hdir Hexists Hread Hparse. split.
    - destruct (rf_map functions !! n) as [value|] eqn:Hvalue; [|done].
      apply Hentry in Hvalue as (_ & _ & Hd).
      apply descriptorOf_Some in Hd as (_ & _ & text' & Hread' & Hparse').
      unfold functionJsonFilePath, fullPath in *. congruence.
    - eapply Hlog; [by rewrite Horder|done..]. }
  intros n typeError projectFolder projectKind lines0 Hn Hkind.
  unfold mapReadFunctions.
  destruct (firstNoArray_Some _ _ _ Hwf' Hn) as [err ->].
  exists err. unfold bind. by rewrite Hkind.
Qed.

Lemma key_is_classified functions n :
  n ∈ fo_keys functions →
  n ∈ orchestratorNamesOf functions ∨ n ∈ activityNamesOf functions ∨
  n ∈ entityNamesOf functions ∨ n ∈ otherFunctionNamesOf functions.
Proof.
  intros Hn. unfold orchestratorNamesOf, activityNamesOf, entityNamesOf,
    otherFunctionNamesOf.
  rewrite !elem_of_filter_bool, hasAnyTrigger_orb.
  destruct (hasBinding _ "orchestrationTrigger" n),
    (hasBinding _ "activityTrigger" n), (hasBinding _ "entityTrigger" n);
    simpl; tauto.
Qed.

Lemma functionAndItsCode_outcome kind pf hf n lines :
  functionAndItsCode env kind pf hf n lines
  = match findFunctionFile env kind pf hf n with
    | Ok r => (Ok (toFunctionCode env kind n <$> r), lines)
    | Throw err => (Throw err, lines)
    | Diverge => (Diverge, lines)
    end.
Proof.
  unfold functionAndItsCode, bind, io.
  by destruct (findFunctionFile env kind pf hf n) as [[m|]| |].
Qed.

Lemma promiseAll_outcome kind pf hf (names : list string) lines :
  (∀ k, k ∈ names → findFunctionFile env kind pf hf k ≠ Diverge) →
  ((∀ k, k ∈ names → ∃ r, findFunctionFile env kind pf hf k = Ok r) ∧
   ∃ found, promiseAll (functionAndItsCode env kind pf hf) names lines
            = (Ok found, lines)) ∨
  (∃ k err, k ∈ names ∧ findFunctionFile env kind pf hf k = Throw err ∧
            promiseAll (functionAndItsCode env kind pf hf) names lines
            = (Throw err, lines)).
Proof.
  intros Hnames. induction names as [|n names IH].
  - left. split; [by intros k ?%elem_of_nil|]. by eexists.
  - assert (promiseAll (functionAndItsCode env kind pf hf) (n :: names) lines
            = match findFunctionFile env kind pf hf n with
              | Ok r =>
                  match promiseAll (functionAndItsCode env kind pf hf) names lines with
                  | (Ok ys, lines') => (Ok ((toFunctionCode env kind n <$> r) :: ys),
                                        lines')
                  | (Throw err, lines') => (Throw err, lines')
                  | (Diverge, lines') => (Diverge, lines')
                  end
              | Throw err => (Throw err, lines)
              | Diverge => (Diverge, lines)
              end) as ->.
    { simpl. unfold bind at 1. rewrite functionAndItsCode_outcome.
      by destruct (findFunctionFile env kind pf hf n). }
    destruct (findFunctionFile env kind pf hf n) as [r|err|] eqn:Hn.
    + destruct IH as [[Hall [found Hrun]]|(k & err & Hk & Hbad & Hrun)].
      { intros k Hk. apply Hnames. by right. }
      * left. split.
        -- intros k [->|Hk]%elem_of_cons; [by eexists|by apply Hall].
        -- rewrite Hrun. by eexists.
      * right. exists k, err. split; [by right|]. split; [done|]. by rewrite Hrun.
    + right. exists n, err. split; [by left|]. done.
    + destruct (Hnames n); [by left|done].
Qed.

Lemma getFunctionsAndTheirCodesAsync_outcome kind pf hf (names : list string) lines :
  (∀ k, k ∈ names → findFunctionFile env kind pf hf k ≠ Diverge) →
  ((∀ k, k ∈ names → ∃ r, findFunctionFile env kind pf hf k = Ok r) ∧
   ∃ codes, getFunctionsAndTheirCodesAsync env names kind pf hf lines
            = (Ok codes, lines)) ∨
  (∃ k err, k ∈ names ∧ findFunctionFile env kind pf hf k = Throw err ∧
            getFunctionsAndTheirCodesAsync env names kind pf hf lines
            = (Throw err, lines)).
Proof.
  intros Hnames. unfold getFunctionsAndTheirCodesAsync.
  destruct (promiseAll_outcome kind pf hf names lines Hnames)
    as [[Hall [found Hrun]]|(k & err & Hk & Hbad & Hrun)].
  - left. split; [done|]. unfold bind. rewrite Hrun. by eexists.
  - right. exists k, err. split; [done|]. split; [done|]. unfold bind. by rewrite Hrun.
Qed.

(** X22.  The mapping catches nothing: when the search for the file of
    one of the functions throws (and the project probes answer), the whole
    mapping throws, with the error of a function whose search threw. *)
Theorem probe_failure_rejects_mapping functions pf hf lines n err
    (HdotNet : ∃ b, isDotNetProjectAsync env pf = Ok b)
    (Hjava : ∃ b, isJavaProjectAsync env pf = Ok b)
    (Hprobes : ∀ k, k ∈ fo_keys functions →
                    findFunctionFile env (projectKindOf env pf) pf hf k ≠ Diverge)
    (Hn : n ∈ fo_keys functions)
    (Hbad : findFunctionFile env (projectKindOf env pf) pf hf n = Throw err) :
  ∃ k err',
    k ∈ fo_keys functions ∧
    findFunctionFile env (projectKindOf env pf) pf hf k = Throw err' ∧
    mapOrchestratorsAndActivitiesAsync rx env functions pf hf lines
    = (Throw err', lines).
Proof.
  assert (getProjectKind env pf lines = (Ok (projectKindOf env pf), lines)) as Hkind.
  { destruct HdotNet as [b1 H1], Hjava as [b2 H2].
    unfold getProjectKind, projectKindOf, bind, io.
    rewrite H1. destruct b1; [done|]. rewrite H2. by destruct b2. }
  set (kind := projectKindOf env pf) in *.
  assert (∀ names : list string,
            (∀ k, k ∈ names → k ∈ fo_keys functions) →
            ∀ k, k ∈ names → findFunctionFile env kind pf hf k ≠ Diverge)
    as Hsub by (intros names Hnames k Hk; by apply Hprobes, Hnames).
  assert (∀ p : string → bool, ∀ k, k ∈ filter (λ n, p n) (fo_keys functions) →
                                     k ∈ fo_keys functions) as Hfilter.
  { intros p k Hk. by apply elem_of_filter_bool in Hk as [_ Hk]. }
  unfold mapOrchestratorsAndActivitiesAsync.
  rewrite (bind_run_Ok _ _ _ _ _ Hkind).
  destruct (getFunctionsAndTheirCodesAsync_outcome kind pf hf
              (orchestratorNamesOf functions) lines (Hsub _ (Hfilter _)))
    as [[Ho [os Hos]]|(k & err' & Hk & Hthrow & Hrun)].
  2:{ exists k, err'. split; [exact (Hfilter _ _ Hk)|]. split; [done|].
      by rewrite (bind_run_Throw _ _ _ _ _ Hrun). }
  rewrite (bind_run_Ok _ _ _ _ _ Hos).
  destruct (getFunctionsAndTheirCodesAsync_outcome kind pf hf
              (activityNamesOf functions) lines (Hsub _ (Hfilter _)))
    as [[Ha [acts Hacts]]|(k & err' & Hk & Hthrow & Hrun)].
  2:{ exists k, err'. split; [exact (Hfilter _ _ Hk)|]. split; [done|].
      by rewrite (bind_run_Throw _ _ _ _ _ Hrun). }
  rewrite (bind_run_Ok _ _ _ _ _ Hacts).
  destruct (getFunctionsAndTheirCodesAsync_outcome kind pf hf
              (entityNamesOf functions) lines (Hsub _ (Hfilter _)))
    as [[He [ents Hents]]|(k & err' & Hk & Hthrow & Hrun)].
  2:{ exists k, err'. split; [exact (Hfilter _ _ Hk)|]. split; [done|].
      by rewrite (bind_run_Throw _ _ _ _ _ Hrun). }
  rewrite (bind_run_Ok _ _ _ _ _ Hents).
  destruct (getFunctionsAndTheirCodesAsync_outcome kind pf hf
              (otherFunctionNamesOf functions) lines (Hsub _ (Hfilter _)))
    as [[Hx [others Hothers]]|(k & err' & Hk & Hthrow & Hrun)].
  2:{ exists k, err'. split; [exact (Hfilter _ _ Hk)|]. split; [done|].
      by rewrite (bind_run_Throw _ _ _ _ _ Hrun). }
  exfalso.
  destruct (key_is_classified functions n Hn) as [H|[H|[H|H]]];
    [apply Ho in H as [r Hr]|apply Ha in H as [r Hr]
    |apply He in H as [r Hr]|apply Hx in H as [r Hr]]; congruence.
Qed.

(** X29.  A project that is neither isolated .NET nor Java: the
    names listed in the folder the publish step hands on (the published
    folder for a .NET project, the folder of host.json otherwise) are read
    there, each function.json adding its key when its own read completes;
    the Java probe is asked about that folder, the mapping gets the object
    read, the project folder and that folder, and the proxies are read from
    the project folder. *)
Theorem descriptors_are_read_where_published projectFolder lines tempFolders
    resolved lines1 hostJsonMatch tempFolders' hostJsonFolder lines2 functionNames
    read lines3 functions lines4 proxiesRead lines5
    (Hclone : cloneIfGitRepo env projectFolder lines
              = (Ok (tempFolders, resolved), lines1))
    (Hfind : findFileRecursivelyAsync env resolved "host.json" false None
             = Ok (Some hostJsonMatch))
    (Hisolated : isDotNetIsolatedProjectAsync env resolved = Ok false)
    (Hpublish : publishIfDotNet env tempFolders
                  (path_dirname env (fm_filePath hostJsonMatch))
                  (lines1 ++ [">>> Found host.json at "
                              +:+ fm_filePath hostJsonMatch])
                = (Ok (tempFolders', hostJsonFolder), lines2))
    (Hjava : isJavaProjectAsync env hostJsonFolder = Ok false)
    (Hreaddir : readdir env hostJsonFolder = Ok functionNames)
    (Hread : readFunctionJsons env hostJsonFolder functionNames lines2
             = (Ok read, lines3))
    (Hmap : mapReadFunctions rx env read resolved hostJsonFolder lines3
            = (Ok functions, lines4))
    (Hproxies : readProxiesJson env resolved lines4 = (Ok proxiesRead, lines5)) :
  traverseFunctionProject rx env projectFolder lines
  = (Ok (mkTraverseFunctionResult functions proxiesRead tempFolders' resolved),
     lines5).
Proof.
  assert (traverseFunctions rx env projectFolder lines
          = (Ok (functions, tempFolders', resolved), lines4)) as Hfront.
  { unfold traverseFunctions.
    rewrite (bind_run_Ok _ _ _ _ _ Hclone). simpl.
    unfold bind at 1, io at 1. rewrite Hfind.
    unfold bind at 1, log at 1.
    unfold bind at 1, io at 1. rewrite Hisolated. simpl.
    unfold bind at 1. unfold bind at 1. rewrite Hpublish. simpl.
    unfold bind at 1, io at 1. rewrite Hjava. unfold ret at 1. simpl.
    unfold bind at 1. unfold bind at 1, io at 1. rewrite Hreaddir.
    unfold bind at 1. rewrite Hread. rewrite Hmap. done. }
  unfold traverseFunctionProject.
  rewrite (bind_run_Ok _ _ _ _ _ Hfront). simpl.
  by rewrite (bind_run_Ok _ _ _ _ _ Hproxies).
Qed.

(** X30.  A Java project: its functions come from the Java reader, run
    on the project folder, and go through the mapping; no function.json is
    read. *)
Theorem java_project_is_mapped projectFolder lines tempFolders
    resolved lines1 hostJsonMatch tempFolders' hostJsonFolder lines2
    functions0 functions lines3 proxiesRead lines4
    (Hclone : cloneIfGitRepo env projectFolder lines
              = (Ok (tempFolders, resolved), lines1))
    (Hfind : findFileRecursivelyAsync env resolved "host.json" false None
             = Ok (Some hostJsonMatch))
    (Hisolated : isDotNetIsolatedProjectAsync env resolved = Ok false)
    (Hpublish : publishIfDotNet env tempFolders
                  (path_dirname env (fm_filePath hostJsonMatch))
                  (lines1 ++ [">>> Found host.json at "
                              +:+ fm_filePath hostJsonMatch])
                = (Ok (tempFolders', hostJsonFolder), lines2))
    (Hjava : isJavaProjectAsync env hostJsonFolder = Ok true)
    (Hreader : traverseJavaProject env resolved = Ok functions0)
    (Hmap : mapOrchestratorsAndActivitiesAsync rx env functions0 resolved
              hostJsonFolder lines2 = (Ok functions, lines3))
    (Hproxies : readProxiesJson env resolved lines3 = (Ok proxiesRead, lines4)) :
  traverseFunctionProject rx env projectFolder lines
  = (Ok (mkTraverseFunctionResult functions proxiesRead tempFolders' resolved),
     lines4).
Proof.
  assert (traverseFunctions rx env projectFolder lines
          = (Ok (functions, tempFolders', resolved), lines3)) as Hfront.
  { unfold traverseFunctions.
    rewrite (bind_run_Ok _ _ _ _ _ Hclone). simpl.
    unfold bind at 1, io at 1. rewrite Hfind.
    unfold bind at 1, log at 1.
    unfold bind at 1, io at 1. rewrite Hisolated. simpl.
    unfold bind at 1. unfold bind at 1. rewrite Hpublish. simpl.
    unfold bind at 1, io at 1. rewrite Hjava. unfold ret at 1. simpl.
    unfold bind at 1. unfold bind at 1, io at 1. rewrite Hreader.
    rewrite Hmap. done. }
  unfold traverseFunctionProject.
  rewrite (bind_run_Ok _ _ _ _ _ Hfront). simpl.
  by rewrite (bind_run_Ok _ _ _ _ _ Hproxies).
Qed.
End Runs.

(** *** Runs on the sample machines *)


Lemma invalid_proxy_name_drops_all_proxies_witness :
  ∃ err,
    readProxiesJson (machineEnv cloudMachine) "jv" []
    = (Ok emptyProxies, [failedToParse "jv/proxies.json" err]).
Proof.
  assert (∀ k, k ∈ ["ok"; "a(b"] →
               RegExp_new (machineEnv cloudMachine) (proxyNameRegexSource k)
               ≠ Diverge) as Hnames.
  { intros k Hk. repeat (apply elem_of_cons in Hk as [->|Hk]); [done..|].
    by apply elem_of_nil in Hk. }
  assert ("a(b" ∈ ["ok"; "a(b"]) as Hname by by_computing.
  destruct (invalid_proxy_name_drops_all_proxies (machineEnv cloudMachine)
              "jv" [] cloudProxiesText _ false [] "a(b"
              "SyntaxError: Invalid regular expression"
              eq_refl eq_refl eq_refl eq_refl Hnames Hname eq_refl)
    as (k & err & _ & _ & Hrun).
  by exists err.
Defined.

Lemma proxies_keep_keys_and_descriptors_witness :
  ∃ result proxy',
    readProxiesJson (machineEnv netMachine) "net" [] = (Ok result, []) ∧
    po_keys result = ["api"] ∧
    po_map result !! "api" = Some proxy' ∧
    proxy_descriptor proxy' = "{}" ∧
    warningNotAddedToCsProjFile proxy' = Some true.
Proof.
  assert (∀ k, is_Some (po_map netProxies !! k) → k ∈ po_keys netProxies)
    as Hkeys.
  { intros k. unfold netProxies. simpl.
    rewrite lookup_insert_is_Some', lookup_empty, is_Some_alt.
    rewrite elem_of_cons. intros [<-|[]]; auto. }
  assert (∀ k, k ∈ po_keys netProxies →
               ∃ regex, RegExp_new (machineEnv netMachine) (proxyNameRegexSource k)
                        = Ok regex) as Hnames.
  { intros k Hk. simpl in Hk. apply elem_of_cons in Hk as [->|Hk].
    - by eexists.
    - by apply elem_of_nil in Hk. }
  destruct (proxies_keep_keys_and_descriptors (machineEnv netMachine) "net" []
              netProxiesText netProxies true [] eq_refl eq_refl eq_refl
              Hkeys eq_refl Hnames)
    as (result & Hrun & Hsame & Hall).
  specialize (Hall "api"). simpl in Hall.
  destruct Hall as (proxy' & Hlook & Hdescr & Hwarn).
  by exists result, proxy'.
Defined.

Lemma csproj_check_witness :
  checkCsProjFile (machineEnv netMachine) "net" [] = (Ok true, []).
Proof.
  apply csproj_check. split; [reflexivity|].
  eexists _, _. split; [reflexivity|]. split; [reflexivity|].
  split; [discriminate|reflexivity].
Defined.

Lemma clone_failure_is_fatal_witness :
  traverseFunctionProject sampleRegexes (machineEnv cloudMachine)
    "Http://example.org/none.git" []
  = (Throw "fatal: repository not found", ["Cloning Http://example.org/none.git"]).
Proof.
  apply (clone_failure_is_fatal sampleRegexes (machineEnv cloudMachine)
           "Http://example.org/none.git" []); reflexivity.
Defined.

Lemma isolated_project_is_not_mapped_witness :
  traverseFunctionProject sampleRegexes (machineEnv cloudMachine) "iso" []
  = (Ok (mkTraverseFunctionResult twoTriggers emptyProxies [] "iso"),
     [">>> Found host.json at iso/host.json"]).
Proof.
  apply (isolated_project_is_not_mapped sampleRegexes (machineEnv cloudMachine)
           "iso" [] [] "iso" [] (mkFileMatch "iso/host.json" "" None None));
    reflexivity.
Defined.

Lemma publish_failure_is_fatal_witness :
  traverseFunctionProject sampleRegexes brokenPublishEnv "pub" []
  = (Throw "Command failed: dotnet publish",
     [">>> Found host.json at pub/host.json";
      ">>> Publishing pub to /tmp/dotnet-publish-XXXXXX..."]).
Proof.
  apply (publish_failure_is_fatal sampleRegexes brokenPublishEnv "pub" [] [] "pub" []
           (mkFileMatch "pub/host.json" "" None None) "/tmp/dotnet-publish-XXXXXX");
    reflexivity.
Defined.


Lemma function_json_entries_witness :
  ∃ functions lines' err,
    readFunctionJsons (machineEnv cloudMachine) "mix"
      ["10"; "9"; "Bare"; "Broken"; "Good"; "__proto__"; "host.json"] []
    = (Ok functions, lines') ∧
    rf_keys functions = ["9"; "10"; "Good"; "Bare"] ∧
    rf_map functions !! "Good"
    = Some (BindingsArray [mkBinding "timerTrigger" None ""]) ∧
    rf_map functions !! "__proto__" = None ∧
    rf_map functions !! "Bare"
    = Some (NoArray "TypeError: Cannot read properties of undefined (reading 'some')") ∧
    rf_map functions !! "Broken" = None ∧
    failedToParse "mix/Broken/function.json"
      "SyntaxError: Unexpected end of JSON input" ∈ lines' ∧
    mapReadFunctions sampleRegexes (machineEnv cloudMachine) functions "mix" "mix" []
    = (Throw err, []).
Proof.
  destruct (readFunctionJsons (machineEnv cloudMachine) "mix"
              ["10"; "9"; "Bare"; "Broken"; "Good"; "__proto__"; "host.json"] [])
    as [[functions| |] lines'] eqn:Hrun; try (vm_compute in Hrun; discriminate).
  assert (NoDup ["10"; "9"; "Bare"; "Broken"; "Good"; "__proto__"; "host.json"])
    as Hnames by by_computing.
  assert (completionOrder (machineEnv cloudMachine) "mix"
            ["10"; "9"; "Bare"; "Broken"; "Good"; "__proto__"; "host.json"]
          ≡ₚ ["10"; "9"; "Bare"; "Broken"; "Good"; "__proto__"; "host.json"])
    as Horder by by_computing.
  destruct (function_json_entries sampleRegexes (machineEnv cloudMachine) "mix"
              _ _ _ _ Hnames Horder Hrun)
    as (Hwf & Hentries & Hsorted & Hrest & Hbroken & Hthrow).
  assert (rf_map functions !! "Bare"
          = Some (NoArray "TypeError: Cannot read properties of undefined (reading 'some')"))
    as Hbare.
  { apply Hentries. split; [by_computing|]. split; [done|].
    split; [reflexivity|]. split; [reflexivity|]. by exists "{}". }
  destruct (Hthrow "Bare" _ "mix" _ [] Hbare eq_refl) as [err Herr].
  exists functions, lines', err. split; [done|]. split.
  { vm_compute in Hrun. injection Hrun as <- <-. reflexivity. }
  split.
  { apply Hentries. split; [by_computing|]. split; [done|].
    split; [reflexivity|]. split; [reflexivity|].
    by exists (functionJson "timerTrigger"). }
  split.
  { destruct (rf_map functions !! "__proto__") as [value|] eqn:Hproto; [|done].
    apply Hentries in Hproto as (_ & Hne & _). done. }
  split; [done|].
  destruct (Hbroken "Broken" "{" "SyntaxError: Unexpected end of JSON input")
    as [Hnone Hlog]; [by_computing|reflexivity..|].
  done.
Defined.

Lemma probe_failure_rejects_mapping_witness :
  ∃ err,
    mapOrchestratorsAndActivitiesAsync sampleRegexes unsearchableEnv flowFunctions
      "flow" "flow" [] = (Throw err, []).
Proof.
  assert (∀ k, k ∈ fo_keys flowFunctions →
               findFunctionFile unsearchableEnv (projectKindOf unsearchableEnv "flow")
                 "flow" "flow" k ≠ Diverge) as Hprobes.
  { intros k Hk. simpl. by case_bool_decide. }
  assert ("Child" ∈ fo_keys flowFunctions) as Hn by by_computing.
  destruct (probe_failure_rejects_mapping sampleRegexes unsearchableEnv
              flowFunctions "flow" "flow" [] "Child" "EACCES: permission denied"
              (ex_intro _ false eq_refl) (ex_intro _ false eq_refl)
              Hprobes Hn eq_refl) as (k & err & _ & _ & Hrun).
  by exists err.
Defined.

Lemma descriptors_are_read_where_published_witness :
  ∃ result lines',
    traverseFunctionProject sampleRegexes (machineEnv netMachine) "net" []
    = (Ok result, lines') ∧
    tr_tempFolders result = [netPublished] ∧
    fo_keys (tr_functions result) = ["Act"; "Orch"; "Http"] ∧
    isCalledBy <$> fo_map (tr_functions result) !! "Act" = Some ["Orch"].
Proof.
  eexists _, _. split.
  - eapply (descriptors_are_read_where_published sampleRegexes
              (machineEnv netMachine) "net" [] [] "net" []
              (mkFileMatch "net/host.json" "" None None)
              [netPublished] netPublished _ ["Orch"; "Act"; "Http"]);
      vm_compute; reflexivity.
  - by vm_compute.
Defined.

Lemma java_project_is_mapped_witness :
  ∃ result lines',
    traverseFunctionProject sampleRegexes (machineEnv cloudMachine) "jv" []
    = (Ok result, lines') ∧
    fo_keys (tr_functions result) = ["Both"; "Http"] ∧
    tr_tempFolders result = [].
Proof.
  eexists _, _. split.
  - eapply (java_project_is_mapped sampleRegexes (machineEnv cloudMachine)
              "jv" [] [] "jv" [] (mkFileMatch "jv/host.json" "" None None)
              [] "jv");
      vm_compute; reflexivity.
  - by vm_compute.
Defined.

(** ** MonitorViewList.ts *)

Section MonitorViewList.

Lemma list_ascii_of_string_app (s t : string) :
  String.list_ascii_of_string (s +:+ t)
  = String.list_ascii_of_string s ++ String.list_ascii_of_string t.
Proof. induction s as [|c s IH]; [done|]. simpl. by rewrite IH. Qed.

Lemma string_of_list_ascii_app (l k : list Ascii.ascii) :
  String.string_of_list_ascii (l ++ k)
  = String.string_of_list_ascii l +:+ String.string_of_list_ascii k.
Proof. induction l as [|c l IH]; [done|]. simpl. by rewrite IH. Qed.

Lemma length_list_ascii_of_string (s : string) :
  length (String.list_ascii_of_string s) = String.length s.
Proof. induction s as [|c s IH]; [done|]. simpl. by rewrite IH. Qed.

Lemma endsWith_app (s searchString : string) :
  endsWith (s +:+ searchString) searchString = true.
Proof.
  unfold endsWith. apply bool_decide_eq_true.
  rewrite list_ascii_of_string_app. by apply suffix_app_r.
Qed.

Lemma substr0_app (s searchString : string) :
  substr0 (s +:+ searchString)
          (String.length (s +:+ searchString) - String.length searchString)
  = s.
Proof.
  unfold substr0. rewrite <-!length_list_ascii_of_string, list_ascii_of_string_app.
  rewrite length_app, Nat.add_sub, take_app_length.
  apply String.string_of_list_ascii_of_string.
Qed.

Lemma endsWith_split (s searchString : string) :
  endsWith s searchString = true →
  s = substr0 s (String.length s - String.length searchString) +:+ searchString.
Proof.
  unfold endsWith. intros [p Hp]%bool_decide_eq_true.
  assert (substr0 s (String.length s - String.length searchString)
          = String.string_of_list_ascii p) as ->.
  { unfold substr0. rewrite <-!length_list_ascii_of_string, Hp.
    by rewrite length_app, Nat.add_sub, take_app_length. }
  rewrite <-(String.string_of_list_ascii_of_string s), Hp.
  by rewrite string_of_list_ascii_app, String.string_of_list_ascii_of_string.
Qed.

Lemma indexOf_is_Some (l : list string) x : is_Some (indexOf l x) ↔ x ∈ l.
Proof.
  induction l as [|y l IH]; simpl.
  - split; [by intros [? ?]|by intros ?%elem_of_nil].
  - case_bool_decide as Hy.
    + subst. split; [by left|by eexists].
    + rewrite fmap_is_Some, IH, elem_of_cons. split; [by right|].
      by intros [->|?].
Qed.

Lemma elem_of_stripped (searchString : string) (tableNames : list Table) hub :
  hub ∈ (λ tableName, substr0 tableName
                        (String.length tableName - String.length searchString))
          <$> filter (λ tableName, endsWith tableName searchString)
                     (TableName <$> tableNames)
  ↔ ∃ table, table ∈ tableNames ∧ TableName table = hub +:+ searchString.
Proof.
  rewrite list_elem_of_fmap. split.
  - intros (tableName & -> & [Hends Hin]%list_elem_of_filter).
    apply list_elem_of_fmap in Hin as (table & -> & Hin).
    exists table. split; [done|]. by apply endsWith_split, Is_true_true.
  - intros (table & Hin & Hname). exists (TableName table). split.
    + by rewrite Hname, substr0_app.
    + apply list_elem_of_filter. split.
      * rewrite Hname, endsWith_app. done.
      * apply list_elem_of_fmap. eauto.
Qed.

(** X23.  A name is returned as a task hub exactly when the table list
    has both its [Instances] table and its [History] table. *)
Theorem task_hub_has_both_tables (tableNames : list Table) hub :
  hub ∈ getTaskHubNamesFromTableNames tableNames ↔
  (∃ table, table ∈ tableNames ∧ TableName table = hub +:+ "Instances") ∧
  (∃ table, table ∈ tableNames ∧ TableName table = hub +:+ "History").
Proof.
  unfold getTaskHubNamesFromTableNames.
  rewrite list_elem_of_filter, indexOf_is_Some.
  rewrite (elem_of_stripped "Instances"), (elem_of_stripped "History"). tauto.
Qed.

Lemma string_app_assoc (s t u : string) : (s +:+ t) +:+ u = s +:+ (t +:+ u).
Proof.
  induction s as [|c s IH]; [done|].
  change (String c ((s +:+ t) +:+ u) = String c (s +:+ (t +:+ u))).
  by rewrite IH.
Qed.

Lemma endsWith_nonempty (s searchString : string) :
  searchString ≠ "" → endsWith s searchString = true → s ≠ "".
Proof.
  intros Hne Hends ->. apply Hne.
  unfold endsWith in Hends. apply bool_decide_eq_true in Hends as [p Hp].
  simpl in Hp. symmetry in Hp. apply app_eq_nil in Hp as [_ Hp].
  rewrite <-(String.string_of_list_ascii_of_string searchString), Hp. done.
Qed.

(** X24.  The fixed table endpoint always ends with a slash, fixing it
    again changes nothing (whatever the account name), and an endpoint that
    was given comes back as it is or with one slash added. *)
Theorem table_endpoint_ends_with_slash tableEndpointUrl accountName accountName' :
  let fixed := fixTableEndpointUrl tableEndpointUrl accountName in
  endsWith fixed "/" = true ∧
  fixTableEndpointUrl fixed accountName' = fixed ∧
  (tableEndpointUrl = "" ∨ fixed = tableEndpointUrl
   ∨ fixed = tableEndpointUrl +:+ "/").
Proof.
  intros fixed.
  assert (endsWith fixed "/" = true) as Hends.
  { unfold fixed, fixTableEndpointUrl. case_bool_decide.
    - change ".table.core.windows.net/" with (".table.core.windows.net" +:+ "/").
      rewrite <-!string_app_assoc. apply endsWith_app.
    - destruct (endsWith tableEndpointUrl "/") eqn:Hslash; simpl; [done|].
      apply endsWith_app. }
  split; [done|]. split.
  - unfold fixTableEndpointUrl at 1.
    rewrite bool_decide_false by by apply (endsWith_nonempty _ "/").
    by rewrite Hends.
  - unfold fixed, fixTableEndpointUrl. case_bool_decide; [by left|right].
    destruct (endsWith tableEndpointUrl "/"); simpl; [by left|by right].
Qed.

Lemma indexOf_Some (l : list string) x i :
  indexOf l x = Some i →
  filter (λ y, y ≠ x) (delete i l) = filter (λ y, y ≠ x) l ∧
  length (delete i l) < length l.
Proof.
  revert i. induction l as [|y l IH]; intros i; simpl; [done|].
  case_bool_decide as Hy.
  - intros [= <-]. simpl. subst. split; [|lia].
    by rewrite filter_cons_False by (by intros ?).
  - destruct (indexOf l x) as [j|]; [|done]. intros [= <-]. simpl.
    destruct (IH j eq_refl) as [Hfilter Hlength]. split; [|lia].
    by rewrite !filter_cons_True, Hfilter by done.
Qed.

Lemma indexOf_None (l : list string) x :
  indexOf l x = None → filter (λ y, y ≠ x) l = l.
Proof.
  induction l as [|y l IH]; simpl; [done|].
  case_bool_decide as Hy; [done|].
  destruct (indexOf l x) as [j|] eqn:Hj; [done|]. intros _.
  by rewrite filter_cons_True, IH by done.
Qed.

Lemma forget_loop_filter fuel (connStringHashes : list string) connStringHashKey :
  length connStringHashes < fuel →
  forget_loop fuel connStringHashes connStringHashKey
  = Some (filter (λ h, h ≠ connStringHashKey) connStringHashes).
Proof.
  revert connStringHashes.
  induction fuel as [|fuel IH]; intros connStringHashes Hfuel; [lia|].
  simpl. destruct (indexOf connStringHashes connStringHashKey) as [i|] eqn:Hi.
  - destruct (indexOf_Some _ _ _ Hi) as [Hfilter Hlength].
    rewrite IH by lia. by rewrite Hfilter.
  - by rewrite (indexOf_None _ _ Hi).
Qed.

Lemma getPersistedConnStrings_loop (stored : gmap string string)
    (hashes result : list string) :
  foldl (λ result connStringHash,
           let connString := stored !! connStringHash in
           if truthy connString then result ++ [default "" connString]
           else result)
        result hashes
  = result ++ omap (λ h, s ← stored !! h;
                         if bool_decide (s = "") then None else Some s) hashes.
Proof.
  revert result. induction hashes as [|h hashes IH]; intros result; simpl.
  - by rewrite app_nil_r.
  - rewrite IH. destruct (stored !! h) as [s|]; simpl; [|done].
    case_bool_decide; simpl; [done|]. by rewrite <-app_assoc.
Qed.

(** What [getPersistedConnStrings] answers, hash by hash. *)
Lemma getPersistedConnStrings_omap ctx :
  getPersistedConnStrings ctx
  = omap (λ h, s ← secrets ctx !! h; if bool_decide (s = "") then None else Some s)
         (default [] (connectionStringHashes ctx)).
Proof.
  unfold getPersistedConnStrings.
  destruct (connectionStringHashes ctx) as [hashes|]; [|done]. simpl.
  by rewrite getPersistedConnStrings_loop.
Qed.

Lemma elem_of_getPersistedConnStrings ctx s :
  s ∈ getPersistedConnStrings ctx ↔
  s ≠ "" ∧ ∃ hashes h, connectionStringHashes ctx = Some hashes ∧ h ∈ hashes ∧
                       secrets ctx !! h = Some s.
Proof.
  rewrite getPersistedConnStrings_omap, list_elem_of_omap. split.
  - intros (h & Hh & Hs).
    destruct (connectionStringHashes ctx) as [hashes|]; simpl in Hh;
      [|by apply elem_of_nil in Hh].
    destruct (secrets ctx !! h) as [s'|] eqn:Hs'; simpl in Hs; [|done].
    case_bool_decide; simplify_eq. split; [done|]. eauto.
  - intros (Hne & hashes & h & -> & Hh & Hs). exists h. split; [done|].
    rewrite Hs. simpl. by rewrite bool_decide_false.
Qed.

(** X25.  Forgetting a connection string always comes to an end: the
    secret under its hash key is deleted, every occurrence of the key is
    taken out of the list of hashes while the others keep their order, and
    the connection strings listed afterwards are those kept under the other
    keys. *)
Theorem forget_removes_every_occurrence (GetConnStringHashKey : string → string)
    storageConnString ctx :
  let connStringHashKey := GetConnStringHashKey storageConnString in
  ∃ ctx',
    forgetConnectionString GetConnStringHashKey storageConnString ctx = Some ctx' ∧
    secrets ctx' = delete connStringHashKey (secrets ctx) ∧
    connectionStringHashes ctx'
    = filter (λ h, h ≠ connStringHashKey) <$> connectionStringHashes ctx ∧
    ∀ s, s ∈ getPersistedConnStrings ctx' ↔
         s ≠ "" ∧ ∃ hashes h, connectionStringHashes ctx = Some hashes ∧ h ∈ hashes ∧
                              h ≠ connStringHashKey ∧ secrets ctx !! h = Some s.
Proof.
  intros connStringHashKey. unfold forgetConnectionString. fold connStringHashKey.
  destruct (connectionStringHashes ctx) as [hashes|] eqn:Hhashes.
  - rewrite forget_loop_filter by lia. simpl. eexists. split; [done|].
    split; [done|]. split; [done|].
    intros s. rewrite elem_of_getPersistedConnStrings. simpl. split.
    + intros (Hne & hashes' & h & [= <-] & [Hh Hin]%list_elem_of_filter & Hs).
      rewrite lookup_delete_ne in Hs by done. split; [done|]. eauto 10.
    + intros (Hne & hashes' & h & [= <-] & Hin & Hh & Hs). split; [done|].
      exists (filter (λ h, h ≠ connStringHashKey) hashes), h.
      split; [done|]. split; [by apply list_elem_of_filter|].
      by rewrite lookup_delete_ne.
  - eexists. split; [done|]. split; [done|]. split; [done|].
    intros s. rewrite elem_of_getPersistedConnStrings. simpl. split.
    + by intros (_ & ? & ? & ? & _).
    + by intros (_ & ? & ? & ? & _).
Qed.

(** X26.  After saving, the connection string (if not empty) is among the
    persisted ones; the list of hashes holds its key, keeps what it held in
    the same order, and has no repetition if it had none; saving the same
    settings again changes nothing. *)
Theorem saved_connection_string_is_listed connSettings ctx :
  let ctx' := saveConnectionString connSettings ctx in
  (storageConnString connSettings ≠ "" →
   storageConnString connSettings ∈ getPersistedConnStrings ctx') ∧
  (∀ hashes', connectionStringHashes ctx' = Some hashes' →
     connStringHashKey connSettings ∈ hashes' ∧
     default [] (connectionStringHashes ctx) `prefix_of` hashes' ∧
     (NoDup (default [] (connectionStringHashes ctx)) → NoDup hashes')) ∧
  saveConnectionString connSettings ctx' = ctx'.
Proof.
  intros ctx'. unfold ctx', saveConnectionString. simpl.
  set (hashes := default [] (connectionStringHashes ctx)).
  set (key := connStringHashKey connSettings).
  assert (key ∈ (if negb (includes hashes key) then hashes ++ [key] else hashes))
    as Hkey.
  { destruct (includes hashes key) eqn:Hin; simpl.
    - by apply includes_true.
    - apply elem_of_app. right. by left. }
  split; [|split].
  - intros Hne. apply elem_of_getPersistedConnStrings. split; [done|]. simpl.
    eexists _, key. split; [done|]. split; [done|]. by rewrite lookup_insert_eq.
  - intros hashes' [= <-]. split; [done|]. split.
    + destruct (includes hashes key); simpl; [done|]. by apply prefix_app_r.
    + intros Hnd. destruct (includes hashes key) eqn:Hin; simpl; [done|].
      apply NoDup_app. split; [done|]. split.
      * intros h Hh ->%list_elem_of_singleton. by apply includes_false in Hin.
      * apply NoDup_singleton.
  - apply includes_true in Hkey. rewrite Hkey. simpl. by rewrite insert_insert_eq.
Qed.

Lemma filter_ne_absent (l : list string) x :
  x ∉ l → filter (λ y, y ≠ x) l = l.
Proof.
  induction l as [|y l IH]; [done|].
  intros [Hy Hl]%not_elem_of_cons.
  by rewrite filter_cons_True, IH by done.
Qed.

(** X27.  Forgetting undoes saving: for settings whose hash key is the
    hash of their connection string and was not known before, saving and then
    forgetting leaves the secrets and the list of hashes as they were. *)
Theorem forget_undoes_save (GetConnStringHashKey : string → string) connSettings
    ctx hashes
    (Hkey : GetConnStringHashKey (storageConnString connSettings)
            = connStringHashKey connSettings)
    (Hhashes : connectionStringHashes ctx = Some hashes)
    (Hnew : connStringHashKey connSettings ∉ hashes)
    (Hsecret : secrets ctx !! connStringHashKey connSettings = None) :
  forgetConnectionString GetConnStringHashKey (storageConnString connSettings)
    (saveConnectionString connSettings ctx)
  = Some ctx.
Proof.
  assert (saveConnectionString connSettings ctx
          = mkPersisted (<[connStringHashKey connSettings
                           := storageConnString connSettings]> (secrets ctx))
                        (Some (hashes ++ [connStringHashKey connSettings])))
    as ->.
  { unfold saveConnectionString. rewrite Hhashes. simpl.
    apply includes_false in Hnew. by rewrite Hnew. }
  unfold forgetConnectionString. rewrite Hkey.
  cbn [connectionStringHashes secrets].
  rewrite forget_loop_filter by lia. cbn [mbind option_bind].
  rewrite filter_app, filter_cons_False, filter_nil, app_nil_r
    by (by intros ?).
  rewrite filter_ne_absent by done.
  rewrite delete_insert_id by done.
  destruct ctx. simpl in *. by subst.
Qed.

(** X28.  When building the headers or the request to Table Storage
    fails, loading the hub names throws that error if it was asked to throw
    upon error, and otherwise logs it and answers that there is no list. *)
Theorem hub_names_failure (storage : TableStorage)
    tableEndpointUrl accountName accountKey throwUponError lines err
    (Hfail :
       let url := fixTableEndpointUrl tableEndpointUrl accountName in
       CreateAuthHeadersForTableStorage storage accountName accountKey url
       = Throw err ∨
       ∃ authHeaders,
         CreateAuthHeadersForTableStorage storage accountName accountKey url
         = Ok authHeaders ∧
         axios_get storage (url +:+ "Tables") authHeaders = Throw err) :
  getTaskHubNamesFromTableStorage storage tableEndpointUrl accountName accountKey
    throwUponError lines
  = if throwUponError then (Throw err, lines)
    else (Ok None, lines ++ [failedToLoadHubNames err]).
Proof.
  unfold getTaskHubNamesFromTableStorage.
  destruct Hfail as [Hauth|(authHeaders & Hauth & Hget)];
    unfold bind, tryCatch, io; rewrite Hauth; [|rewrite Hget];
    by destruct throwUponError.
Qed.

End MonitorViewList.

Lemma task_hub_has_both_tables_witness :
  "HubB" ∈ getTaskHubNamesFromTableNames sampleTables.
Proof.
  apply task_hub_has_both_tables. split.
  - exists (mkTable "HubBInstances"). split; [by_computing|reflexivity].
  - exists (mkTable "HubBHistory"). split; [by_computing|reflexivity].
Defined.

Lemma forget_removes_every_occurrence_witness :
  ∃ ctx',
    forgetConnectionString (λ s, "h" +:+ dropString 4 s) "conn1" samplePersisted
    = Some ctx' ∧
    connectionStringHashes ctx' = Some ["h2"] ∧
    secrets ctx' !! "h1" = None.
Proof.
  destruct (forget_removes_every_occurrence (λ s, "h" +:+ dropString 4 s) "conn1"
              samplePersisted) as (ctx' & Hrun & Hsecrets & Hhashes & _).
  exists ctx'. split; [exact Hrun|]. split; [by rewrite Hhashes|].
  by rewrite Hsecrets.
Defined.

Lemma forget_undoes_save_witness :
  forgetConnectionString (λ s, "h" +:+ dropString 4 s) "conn3"
    (saveConnectionString (mkStorageConnectionSettings "conn3" "h3") samplePersisted)
  = Some samplePersisted.
Proof.
  apply (forget_undoes_save (λ s, "h" +:+ dropString 4 s)
           (mkStorageConnectionSettings "conn3" "h3") samplePersisted ["h1"; "h2"]).
  - reflexivity.
  - reflexivity.
  - by_computing.
  - reflexivity.
Defined.

Lemma hub_names_failure_witness :
  getTaskHubNamesFromTableStorage sampleStorage "https://other.example" "acc" "key"
    false []
  = (Ok None,
     [failedToLoadHubNames "Request failed with status code 404"]).
Proof.
  apply (hub_names_failure sampleStorage "https://other.example" "acc" "key" false []).
  right. exists "SharedKeyLite". split; reflexivity.
Defined.
